(** * Schema differ and migration-SQL generator: a shallow embedding

    The definitions below follow [server/src/services/schema.service.ts]
    (the diff engine and the DDL emitter) and [schema.decorator.ts]
    (the constraint-name recipe and the column construction of the metadata
    compiler).  JavaScript strings are modelled as [string] (one [ascii] per
    code unit), arrays as lists, optional fields as [option], and the plain
    objects used as dictionaries as insertion-ordered maps of their own
    properties.  A property read [o[k]] finds the own property [k], else the
    member [k] of [Object.prototype], else nothing; where such a member
    reaches code that expects a table, a column, a constraint or an index,
    the call throws or pushes a record that is no [SchemaDiff], and the
    functions below say which.  [console.log] and logger calls are omitted:
    they do not influence any returned value. *)

From Stdlib Require Import List String Ascii Bool Arith NArith ZArith Lia.
From Stdlib Require Import Permutation Sorting.Sorted.
Import ListNotations.

Open Scope list_scope.
Open Scope string_scope.

(* ================================================================== *)
(** ** JavaScript values used by the service *)
(* ================================================================== *)

Module Js.

(** The double-quote character that wraps every SQL identifier. *)
Definition dq : string := String "034"%char EmptyString.

(** [`"${s}"`] *)
Definition quoted (s : string) : string := dq ++ s ++ dq.

(** Truthiness of an optional boolean. *)
Definition truthy_bool (b : option bool) : bool :=
  match b with
  | Some true => true
  | _ => false
  end.

(** Truthiness of an optional object or array: only [undefined] is falsy. *)
Definition truthy_obj {A : Type} (x : option A) : bool :=
  match x with
  | Some _ => true
  | None => false
  end.

(** [a !== b] on optional strings and optional booleans. *)
Definition neq_ostr (a b : option string) : bool :=
  match a, b with
  | Some x, Some y => negb (x =? y)
  | None, None => false
  | _, _ => true
  end.

Definition neq_obool (a b : option bool) : bool :=
  match a, b with
  | Some x, Some y => negb (Bool.eqb x y)
  | None, None => false
  | _, _ => true
  end.

(** [Array.prototype.join] *)
Definition join (sep : string) (l : list string) : string := String.concat sep l.

(** [Array.prototype.toSorted()] with the default comparator: a stable
    sort by code-unit order. *)
Fixpoint insert_sorted (x : string) (l : list string) : list string :=
  match l with
  | [] => [x]
  | y :: r => if (y <=? x)%string then y :: insert_sorted x r else x :: l
  end.

Definition toSorted (l : list string) : list string :=
  fold_left (fun acc x => insert_sorted x acc) l [].

(** [String.prototype.slice(0, n)] *)
Definition slice0 (n : nat) (s : string) : string := substring 0 n s.



(** *** Plain objects used as dictionaries

    An object is the list of its own string-keyed properties in creation
    order.  Assigning an existing key keeps its position. *)
Section Objects.
Context {V : Type}.

Definition JsObject := list (string * V).

Fixpoint obj_get (o : JsObject) (k : string) : option V :=
  match o with
  | [] => None
  | (k', v) :: r => if (k' =? k)%string then Some v else obj_get r k
  end.

Fixpoint obj_set (k : string) (v : V) (o : JsObject) : JsObject :=
  match o with
  | [] => [(k, v)]
  | (k', v') :: r =>
      if (k' =? k)%string then (k, v) :: r else (k', v') :: obj_set k v r
  end.

(** [Object.fromEntries(entries)] *)
Definition fromEntries (entries : list (string * V)) : JsObject :=
  fold_left (fun o e => obj_set (fst e) (snd e) o) entries [].

End Objects.

Arguments JsObject : clear implicits.

(** Array-index keys: canonical decimal numerals below 2^32 - 1.
    [Object.keys] lists them first, in ascending numeric order. *)
Definition digit_of (c : ascii) : option N :=
  let n := N_of_ascii c in
  if ((48 <=? n) && (n <=? 57))%N then Some (n - 48)%N else None.

Fixpoint parse_digits (acc : N) (s : string) : option N :=
  match s with
  | EmptyString => Some acc
  | String c r =>
      match digit_of c with
      | Some d => parse_digits (10 * acc + d)%N r
      | None => None
      end
  end.

Definition array_index (s : string) : option N :=
  match s with
  | EmptyString => None
  | String c r =>
      match parse_digits 0%N s with
      | Some n =>
          if ((c =? "0")%char && negb (r =? ""))%bool then None
          else if (n <? 4294967295)%N then Some n else None
      | None => None
      end
  end.

Fixpoint insert_index (x : N * string) (l : list (N * string)) : list (N * string) :=
  match l with
  | [] => [x]
  | y :: r => if (fst y <=? fst x)%N then y :: insert_index x r else x :: l
  end.

Definition index_keys (ks : list string) : list (N * string) :=
  fold_left
    (fun acc k => match array_index k with
                  | Some n => insert_index (n, k) acc
                  | None => acc
                  end)
    ks [].

Definition is_array_index (k : string) : bool :=
  match array_index k with Some _ => true | None => false end.

(** [Object.keys(o)] *)
Definition keys {V : Type} (o : JsObject V) : list string :=
  let ks := map fst o in
  map snd (index_keys ks) ++ filter (fun k => negb (is_array_index k)) ks.

(** [new Set(array)]: the distinct elements in order of first occurrence. *)
Definition set_has (s : list string) (x : string) : bool :=
  existsb (fun y => (y =? x)%string) s.

Definition set_add (s : list string) (x : string) : list string :=
  if set_has s x then s else s ++ [x].

Definition newSet (l : list string) : list string := fold_left set_add l [].

(** *** Property reads

    [obj_get] above is the own property of a name.  A read [o[k]] on a plain
    object without an own property [k] goes on to [Object.prototype] and
    finds its members under their names. *)
Definition prototypeMembers : list string :=
  ["constructor"; "__defineGetter__"; "__defineSetter__"; "hasOwnProperty";
   "__lookupGetter__"; "__lookupSetter__"; "isPrototypeOf";
   "propertyIsEnumerable"; "toString"; "valueOf"; "__proto__"; "toLocaleString"].

Definition isPrototypeMember (k : string) : bool := set_has prototypeMembers k.

Inductive Lookup (V : Type) : Type :=
| Own (v : V)
| Inherited (member : string)
| Absent.

Arguments Own {V} v.
Arguments Inherited {V} member.
Arguments Absent {V}.

(** [o[k]] *)
Definition obj_read {V : Type} (o : JsObject V) (k : string) : Lookup V :=
  match obj_get o k with
  | Some v => Own v
  | None => if isPrototypeMember k then Inherited k else Absent
  end.

(** Truthiness of what a read yields: the members of [Object.prototype] are
    functions, or the prototype object itself, and the own properties of the
    dictionaries of this service are objects and arrays. *)
Definition truthy_read {V : Type} (x : Lookup V) : bool :=
  match x with
  | Absent => false
  | _ => true
  end.

(** What a read yields, as a value of the declared element type. *)
Definition own {V : Type} (x : Lookup V) : option V :=
  match x with
  | Own v => Some v
  | _ => None
  end.

(** [member.name]: a member is a function named like its property, except
    [constructor], which is the function [Object], and [__proto__], which
    yields [Object.prototype] itself, an object without [name].  No member
    has one of the other fields that the service reads ([type],
    [tableName], [columns], [columnNames], ...). *)
Definition memberName (member : string) : option string :=
  if (member =? "constructor")%string then Some "Object"
  else if (member =? "__proto__")%string then None
  else Some member.

(** *** How a call completes

    [Returns v]: the call returns [v].  [Throws]: the call throws a
    [TypeError]. *)
Inductive Outcome (A : Type) : Type :=
| Returns (value : A)
| Throws.

Arguments Returns {A} value.
Arguments Throws {A}.

(** [items.push(...first); items.push(...second)]: an exception in either
    call ends the run. *)
Definition andThen {A : Type} (first second : Outcome (list A)) : Outcome (list A) :=
  match first, second with
  | Returns a, Returns b => Returns (a ++ b)%list
  | _, _ => Throws
  end.

(** [for (const key of keys) { items.push(...body(key)); }] *)
Definition forEach {K A : Type} (body : K -> Outcome (list A)) (keys : list K)
  : Outcome (list A) :=
  fold_right (fun key rest => andThen (body key) rest) (Returns []) keys.

(** [const a = first; next(a)] *)
Definition whenReturned {A B : Type} (first : Outcome A) (next : A -> Outcome B)
  : Outcome B :=
  match first with
  | Returns a => next a
  | Throws => Throws
  end.

(** [for (const row of rows) { ... }] over a state that each pass updates. *)
Fixpoint forRows {S R : Type} (pass : S -> R -> Outcome S) (rows : list R) (state : S)
  : Outcome S :=
  match rows with
  | [] => Returns state
  | row :: rest => whenReturned (pass state row) (forRows pass rest)
  end.

End Js.

Import Js.

(* ================================================================== *)
(** ** Data model ([src/types], [src/enum]) *)
(* ================================================================== *)

(** Referential actions; the string values are those of the [Action] type
    in [schema.decorator.ts]. *)
Inductive DatabaseActionType : Type :=
| NO_ACTION
| CASCADE
| RESTRICT
| SET_NULL
| SET_DEFAULT.

Definition action_string (a : DatabaseActionType) : string :=
  match a with
  | NO_ACTION => "NO ACTION"
  | CASCADE => "CASCADE"
  | RESTRICT => "RESTRICT"
  | SET_NULL => "SET NULL"
  | SET_DEFAULT => "SET DEFAULT"
  end.

Definition action_eqb (a b : DatabaseActionType) : bool :=
  match a, b with
  | NO_ACTION, NO_ACTION | CASCADE, CASCADE | RESTRICT, RESTRICT
  | SET_NULL, SET_NULL | SET_DEFAULT, SET_DEFAULT => true
  | _, _ => false
  end.

Definition neq_oaction (a b : option DatabaseActionType) : bool :=
  match a, b with
  | Some x, Some y => negb (action_eqb x y)
  | None, None => false
  | _, _ => true
  end.

Inductive DatabaseConstraintType : Type :=
| PRIMARY_KEY
| FOREIGN_KEY
| UNIQUE
| CHECK.

Definition constraintType_eqb (a b : DatabaseConstraintType) : bool :=
  match a, b with
  | PRIMARY_KEY, PRIMARY_KEY | FOREIGN_KEY, FOREIGN_KEY
  | UNIQUE, UNIQUE | CHECK, CHECK => true
  | _, _ => false
  end.

(** Modelled from the spec: the declaration of the enum
    [DatabaseConstraintType] ([src/enum]) is not among the sources; the
    members are listed in the order in which the data model names them.
    This is the order of [Object.values(DatabaseConstraintType)]. *)
Definition DatabaseConstraintType_values : list DatabaseConstraintType :=
  [PRIMARY_KEY; FOREIGN_KEY; UNIQUE; CHECK].

(** The [values] of a column are the labels of its enum.  [loadSchema]
    takes them from [enumMap[udt_name]]; for a type named like a member of
    [Object.prototype] that read yields the member, which is stored as it
    is. *)
Inductive EnumValues : Type :=
| Labels (values : list string)
| PrototypeMember (member : string).

Record DatabaseColumn : Type := mkColumn {
  col_name : string;
  col_tableName : string;
  col_type : string;
  col_nullable : bool;
  col_isArray : bool;
  col_primary : option bool;
  col_default : option string;
  col_values : option EnumValues;
  col_numericPrecision : option Z;
  col_numericScale : option Z
}.

Record DatabaseIndex : Type := mkIndex {
  idx_name : string;
  idx_tableName : string;
  idx_columnNames : option (list string);
  idx_expression : option string;
  idx_unique : option bool;
  idx_using : option string;
  idx_where : option string
}.

Inductive DatabaseConstraint : Type :=
| PrimaryKeyConstraint (name tableName : string) (columnNames : list string)
| ForeignKeyConstraint (name tableName : string) (columnNames : list string)
    (referenceTableName : string) (referenceColumnNames : list string)
    (onUpdate onDelete : option DatabaseActionType)
| UniqueConstraint (name tableName : string) (columnNames : list string)
| CheckConstraint (name tableName expression : string).

Definition con_type (c : DatabaseConstraint) : DatabaseConstraintType :=
  match c with
  | PrimaryKeyConstraint _ _ _ => PRIMARY_KEY
  | ForeignKeyConstraint _ _ _ _ _ _ _ => FOREIGN_KEY
  | UniqueConstraint _ _ _ => UNIQUE
  | CheckConstraint _ _ _ => CHECK
  end.

Definition con_name (c : DatabaseConstraint) : string :=
  match c with
  | PrimaryKeyConstraint n _ _ | ForeignKeyConstraint n _ _ _ _ _ _
  | UniqueConstraint n _ _ | CheckConstraint n _ _ => n
  end.

Definition con_tableName (c : DatabaseConstraint) : string :=
  match c with
  | PrimaryKeyConstraint _ t _ | ForeignKeyConstraint _ t _ _ _ _ _
  | UniqueConstraint _ t _ | CheckConstraint _ t _ => t
  end.

(** Field reads that are [undefined] on the variants lacking the field. *)
Definition con_columnNames (c : DatabaseConstraint) : option (list string) :=
  match c with
  | PrimaryKeyConstraint _ _ cs | ForeignKeyConstraint _ _ cs _ _ _ _
  | UniqueConstraint _ _ cs => Some cs
  | CheckConstraint _ _ _ => None
  end.

Definition con_referenceTableName (c : DatabaseConstraint) : option string :=
  match c with
  | ForeignKeyConstraint _ _ _ rt _ _ _ => Some rt
  | _ => None
  end.

Definition con_referenceColumnNames (c : DatabaseConstraint) : option (list string) :=
  match c with
  | ForeignKeyConstraint _ _ _ _ rcs _ _ => Some rcs
  | _ => None
  end.

Definition con_onUpdate (c : DatabaseConstraint) : option DatabaseActionType :=
  match c with
  | ForeignKeyConstraint _ _ _ _ _ u _ => u
  | _ => None
  end.

Definition con_onDelete (c : DatabaseConstraint) : option DatabaseActionType :=
  match c with
  | ForeignKeyConstraint _ _ _ _ _ _ d => d
  | _ => None
  end.

Definition con_expression (c : DatabaseConstraint) : option string :=
  match c with
  | CheckConstraint _ _ e => Some e
  | _ => None
  end.

Record DatabaseTable : Type := mkTable {
  tbl_name : string;
  tbl_columns : list DatabaseColumn;
  tbl_indexes : list DatabaseIndex;
  tbl_constraints : list DatabaseConstraint
}.

Record DatabaseSchema : Type := mkSchema {
  sch_name : string;
  sch_tables : list DatabaseTable
}.

(** The nine change tags. *)
Inductive SchemaDiff : Type :=
| TableCreate (tableName : string) (columns : list DatabaseColumn)
| TableDelete (tableName : string)
| ColumnCreate (column : DatabaseColumn)
| ColumnUpdate (source target : DatabaseColumn)
| ColumnDelete (tableName columnName : string)
| ConstraintCreate (constraint : DatabaseConstraint)
| ConstraintDelete (tableName constraintName : string)
| IndexCreate (index : DatabaseIndex)
| IndexDelete (indexName : string).

(** The records that the differ builds from a member of [Object.prototype]
    which a read has found in place of a column, a constraint, an index or
    a table.  They lie outside the type [SchemaDiff]:
    - [StrayColumnCreate m]: [{ type: 'column.create', column: m }];
    - [StrayColumnDelete m]:
      [{ type: 'column.delete', tableName: undefined, columnName: m.name }];
    - [StrayConstraintCreate m]: [{ type: 'constraint.create', constraint: m }];
    - [StrayConstraintDelete m]:
      [{ type: 'constraint.delete', tableName: undefined, constraintName: m.name }];
    - [StrayIndexCreate m]: [{ type: 'index.create', index: m }];
    - [StrayIndexDelete m]: [{ type: 'index.delete', indexName: undefined }],
      for the member without [name];
    - [StrayTableDelete m]: [{ type: 'table.delete', tableName: undefined }],
      for the member without [name].
    A delete of an index or table by the [name] of a member that has one is
    an ordinary [IndexDelete] or [TableDelete]. *)
Inductive StrayChange : Type :=
| StrayColumnCreate (member : string)
| StrayColumnDelete (member : string)
| StrayConstraintCreate (member : string)
| StrayConstraintDelete (member : string)
| StrayIndexCreate (member : string)
| StrayIndexDelete (member : string)
| StrayTableDelete (member : string).

(** An element of the array that the differ returns. *)
Inductive Emitted : Type :=
| Change (change : SchemaDiff)
| Stray (record : StrayChange).

Record DiffOptions : Type := mkDiffOptions {
  ignoreExtraTables : option bool
}.

(* ================================================================== *)
(** ** Diff engine *)
(* ================================================================== *)

(** Modelled from the spec: [setIsEqual] ([src/utils/set]) is not among the
    sources.  Column-name collections are compared as sets, without regard
    to order: each side contains every member of the other. *)
Definition setIsEqual (a b : list string) : bool :=
  forallb (set_has b) a && forallb (set_has a) b.

Definition orEmpty (l : option (list string)) : list string :=
  match l with
  | Some x => x
  | None => []
  end.

Definition haveEqualColumns (sourceColumns targetColumns : option (list string)) : bool :=
  setIsEqual (newSet (orEmpty sourceColumns)) (newSet (orEmpty targetColumns)).

Definition dropAndRecreateColumn (source target : DatabaseColumn) : list SchemaDiff :=
  [ColumnDelete (col_tableName target) (col_name target); ColumnCreate source].

Definition dropAndRecreateConstraint (source target : DatabaseConstraint) : list SchemaDiff :=
  [ConstraintDelete (con_tableName target) (con_name target); ConstraintCreate source].

Definition dropAndRecreateIndex (source target : DatabaseIndex) : list SchemaDiff :=
  [IndexDelete (idx_name target); IndexCreate source].

Definition diffColumn (source target : option DatabaseColumn) : list SchemaDiff :=
  match source, target with
  | Some s, None => [ColumnCreate s]
  | None, Some t => [ColumnDelete (col_tableName t) (col_name t)]
  | None, None => []
  | Some s, Some t =>
      let isTypeChanged := negb (col_type s =? col_type t) in
      if isTypeChanged then dropAndRecreateColumn s t
      else
        let isChanged :=
          negb (col_type s =? col_type t)
          || negb (Bool.eqb (col_nullable s) (col_nullable t))
          || neq_obool (col_primary s) (col_primary t)
          || neq_ostr (col_default s) (col_default t)
          || negb (Bool.eqb (col_isArray s) (col_isArray t)) in
        if isChanged then [ColumnUpdate s t] else []
  end.

(** [Object.fromEntries(columns.map((column) => [column.name, column]))] *)
Definition columnMap (columns : list DatabaseColumn) : JsObject DatabaseColumn :=
  fromEntries (map (fun column => (col_name column, column)) columns).

(** [this.diffColumn(sourceMap[key], targetMap[key])] on what the two reads
    yield.  A member of [Object.prototype] is truthy and has no [type]:
    against a column, [source.type !== target.type] holds and
    [dropAndRecreateColumn] deletes the target and creates the source;
    against nothing, the member is created or deleted like a column.  Two
    members compare equal in every field. *)
Definition diffColumnRead (source target : Lookup DatabaseColumn) : list Emitted :=
  match source, target with
  | Inherited _, Inherited _ => []
  | Own s, Inherited member => [Stray (StrayColumnDelete member); Change (ColumnCreate s)]
  | Absent, Inherited member => [Stray (StrayColumnDelete member)]
  | Inherited member, Own t =>
      [Change (ColumnDelete (col_tableName t) (col_name t));
       Stray (StrayColumnCreate member)]
  | Inherited member, Absent => [Stray (StrayColumnCreate member)]
  | _, _ => map Change (diffColumn (own source) (own target))
  end.

Definition diffColumns (sources targets : list DatabaseColumn) : list Emitted :=
  let sourceMap := columnMap sources in
  let targetMap := columnMap targets in
  let keys := newSet (keys sourceMap ++ keys targetMap) in
  flat_map (fun key => diffColumnRead (obj_read sourceMap key) (obj_read targetMap key)) keys.

Definition diffPrimaryKeyConstraint (source target : DatabaseConstraint) : list SchemaDiff :=
  if negb (haveEqualColumns (con_columnNames source) (con_columnNames target))
     || negb (con_tableName source =? con_tableName target)
  then dropAndRecreateConstraint source target
  else [].

Definition diffForeignKeyConstraint (source target : DatabaseConstraint) : list SchemaDiff :=
  if negb (haveEqualColumns (con_columnNames source) (con_columnNames target))
     || negb (haveEqualColumns (con_referenceColumnNames source) (con_referenceColumnNames target))
     || negb (con_tableName source =? con_tableName target)
     || neq_ostr (con_referenceTableName source) (con_referenceTableName target)
     || neq_oaction (con_onDelete source) (con_onDelete target)
     || neq_oaction (con_onUpdate source) (con_onUpdate target)
  then dropAndRecreateConstraint source target
  else [].

Definition diffUniqueConstraint (source target : DatabaseConstraint) : list SchemaDiff :=
  if haveEqualColumns (con_columnNames source) (con_columnNames target)
  then []
  else dropAndRecreateConstraint source target.

Definition diffCheckConstraint (source target : DatabaseConstraint) : list SchemaDiff :=
  if negb (neq_ostr (con_expression source) (con_expression target))
  then []
  else dropAndRecreateConstraint source target.

Definition diffConstraint (source target : option DatabaseConstraint) : list SchemaDiff :=
  match source, target with
  | Some s, None => [ConstraintCreate s]
  | None, Some t => [ConstraintDelete (con_tableName t) (con_name t)]
  | None, None => []
  | Some s, Some t =>
      match con_type s with
      | PRIMARY_KEY => diffPrimaryKeyConstraint s t
      | FOREIGN_KEY => diffForeignKeyConstraint s t
      | UNIQUE => diffUniqueConstraint s t
      | CHECK => diffCheckConstraint s t
      end
  end.

(** [Object.fromEntries(items.filter((item) => item.type === type).map((item) => [item.name, item]))] *)
Definition constraintMap (type : DatabaseConstraintType) (items : list DatabaseConstraint)
  : JsObject DatabaseConstraint :=
  fromEntries
    (map (fun item => (con_name item, item))
       (filter (fun item => constraintType_eqb (con_type item) type) items)).

(** [this.diffConstraint(sourceMap[key], targetMap[key])] on what the two
    reads yield.  A member of [Object.prototype] as source has no [type]:
    the [default] branch calls [dropAndRecreateConstraint] with it, and
    against nothing it is created like a constraint.  As target it has no
    [tableName], no [columnNames] and no [expression]: a primary key, a
    foreign key and a check constraint always differ from it, a unique
    constraint differs from it unless it has no columns. *)
Definition diffConstraintRead (source target : Lookup DatabaseConstraint) : list Emitted :=
  match source, target with
  | Inherited member, Inherited member' =>
      [Stray (StrayConstraintDelete member'); Stray (StrayConstraintCreate member)]
  | Inherited member, Own t =>
      [Change (ConstraintDelete (con_tableName t) (con_name t));
       Stray (StrayConstraintCreate member)]
  | Inherited member, Absent => [Stray (StrayConstraintCreate member)]
  | Absent, Inherited member => [Stray (StrayConstraintDelete member)]
  | Own s, Inherited member =>
      let recreate := [Stray (StrayConstraintDelete member); Change (ConstraintCreate s)] in
      match con_type s with
      | UNIQUE => if haveEqualColumns (con_columnNames s) None then [] else recreate
      | _ => recreate
      end
  | _, _ => map Change (diffConstraint (own source) (own target))
  end.

Definition diffConstraints (sources targets : list DatabaseConstraint) : list Emitted :=
  flat_map
    (fun type =>
       let sourceMap := constraintMap type sources in
       let targetMap := constraintMap type targets in
       let keys := newSet (keys sourceMap ++ keys targetMap) in
       flat_map
         (fun key => diffConstraintRead (obj_read sourceMap key) (obj_read targetMap key))
         keys)
    DatabaseConstraintType_values.

Definition diffIndex (source target : option DatabaseIndex) : list SchemaDiff :=
  match source, target with
  | Some s, None => [IndexCreate s]
  | None, Some t => [IndexDelete (idx_name t)]
  | None, None => []
  | Some s, Some t =>
      let isChanged :=
        negb (haveEqualColumns (idx_columnNames s) (idx_columnNames t))
        || neq_ostr (idx_expression s) (idx_expression t)
        || neq_obool (idx_unique s) (idx_unique t)
        || neq_ostr (idx_where s) (idx_where t) in
      if isChanged then dropAndRecreateIndex s t else []
  end.

(** [Object.fromEntries(indexes.map((index) => [index.name, index]))] *)
Definition indexMap (indexes : list DatabaseIndex) : JsObject DatabaseIndex :=
  fromEntries (map (fun index => (idx_name index, index)) indexes).

(** [{ type: 'index.delete', indexName: target.name }] for a member of
    [Object.prototype] as target. *)
Definition deleteIndexOfMember (member : string) : Emitted :=
  match memberName member with
  | Some name => Change (IndexDelete name)
  | None => Stray (StrayIndexDelete member)
  end.

(** [this.diffIndex(sourceMap[key], targetMap[key])] on what the two reads
    yield.  A member of [Object.prototype] has a [name] at most: an index is
    unchanged against it when the index has no columns, expression, unique
    flag and predicate either; otherwise [dropAndRecreateIndex] deletes the
    target by its [name] and creates the source. *)
Definition diffIndexRead (source target : Lookup DatabaseIndex) : list Emitted :=
  match source, target with
  | Inherited _, Inherited _ => []
  | Inherited member, Absent => [Stray (StrayIndexCreate member)]
  | Inherited member, Own t =>
      let isChanged :=
        negb (haveEqualColumns None (idx_columnNames t))
        || neq_ostr None (idx_expression t)
        || neq_obool None (idx_unique t)
        || neq_ostr None (idx_where t) in
      if isChanged
      then [Change (IndexDelete (idx_name t)); Stray (StrayIndexCreate member)]
      else []
  | Absent, Inherited member => [deleteIndexOfMember member]
  | Own s, Inherited member =>
      let isChanged :=
        negb (haveEqualColumns (idx_columnNames s) None)
        || neq_ostr (idx_expression s) None
        || neq_obool (idx_unique s) None
        || neq_ostr (idx_where s) None in
      if isChanged then [deleteIndexOfMember member; Change (IndexCreate s)] else []
  | _, _ => map Change (diffIndex (own source) (own target))
  end.

Definition diffIndexes (sources targets : list DatabaseIndex) : list Emitted :=
  let sourceMap := indexMap sources in
  let targetMap := indexMap targets in
  let keys := newSet (keys sourceMap ++ keys targetMap) in
  flat_map (fun key => diffIndexRead (obj_read sourceMap key) (obj_read targetMap key)) keys.

Definition diffTable (source target : option DatabaseTable) : list Emitted :=
  match source, target with
  | Some s, None =>
      Change (TableCreate (tbl_name s) (tbl_columns s))
        :: diffIndexes (tbl_indexes s) []
        ++ diffConstraints (tbl_constraints s) []
  | None, Some t => [Change (TableDelete (tbl_name t))]
  | None, None => []
  | Some s, Some t =>
      diffColumns (tbl_columns s) (tbl_columns t)
        ++ diffConstraints (tbl_constraints s) (tbl_constraints t)
        ++ diffIndexes (tbl_indexes s) (tbl_indexes t)
  end.

(** [this.diffTable(sourceMap[key], targetMap[key])] on what the two reads
    yield.  A member of [Object.prototype] is truthy and has no [columns]:
    as source it makes [Object.values(source.columns)] or [sources.map]
    throw, as target of a table it makes [targets.map] throw; with no source
    table it is deleted like a table, by its [name]. *)
Definition diffTableRead (source target : Lookup DatabaseTable)
  : Outcome (list Emitted) :=
  match source, target with
  | Inherited _, _ => Throws
  | Own _, Inherited _ => Throws
  | Absent, Inherited member =>
      match memberName member with
      | Some name => Returns [Change (TableDelete name)]
      | None => Returns [Stray (StrayTableDelete member)]
      end
  | _, _ => Returns (diffTable (own source) (own target))
  end.

(** [Object.fromEntries(tables.map((table) => [table.name, table]))] *)
Definition tableMap (tables : list DatabaseTable) : JsObject DatabaseTable :=
  fromEntries (map (fun table => (tbl_name table, table)) tables).

Definition diffTables (sources targets : list DatabaseTable) (ignoreExtra : bool)
  : Outcome (list Emitted) :=
  let sourceMap := tableMap sources in
  let targetMap := tableMap targets in
  let keys := newSet (keys sourceMap ++ keys targetMap) in
  forEach
    (fun key =>
       if ignoreExtra && negb (truthy_read (obj_read sourceMap key)) then Returns []
       else diffTableRead (obj_read sourceMap key) (obj_read targetMap key))
    keys.

(** [diff(source, target, options = {})]; a missing [ignoreExtraTables]
    counts as [true]. *)
Definition diff (source target : DatabaseSchema) (options : option DiffOptions)
  : Outcome (list Emitted) :=
  let options := match options with Some o => o | None => mkDiffOptions None end in
  diffTables (sch_tables source) (sch_tables target)
    (match ignoreExtraTables options with Some b => b | None => true end).

(* ================================================================== *)
(** ** DDL emitter *)
(* ================================================================== *)

(** [asSql] returns [string | string[]]. *)
Inductive SqlResult : Type :=
| Sql (statement : string)
| SqlList (statements : list string).

Definition asColumnsNames (columns : list string) : string :=
  join ", " (map (fun column => quoted column) (toSorted columns)).

Definition withNull (column : DatabaseColumn) : string :=
  if col_nullable column then "" else " NOT NULL".

(** [column.default ? ... : '']: an absent and an empty default are falsy. *)
Definition withDefault (column : DatabaseColumn) : string :=
  match col_default column with
  | Some (String c r) => " DEFAULT " ++ String c r
  | _ => ""
  end.

Definition withAction (constraint : DatabaseConstraint) : string :=
  (match con_onDelete constraint with
   | Some a => " ON DELETE " ++ action_string a
   | None => ""
   end)
  ++
  (match con_onUpdate constraint with
   | Some a => " ON UPDATE " ++ action_string a
   | None => ""
   end).

Definition asConstraintSql (constraint : DatabaseConstraint) : SqlResult :=
  let base :=
    "ALTER TABLE " ++ quoted (con_tableName constraint)
      ++ " ADD CONSTRAINT " ++ quoted (con_name constraint) in
  match constraint with
  | PrimaryKeyConstraint _ _ cols =>
      let columnNames := asColumnsNames cols in
      Sql (base ++ " PRIMARY KEY (" ++ columnNames ++ ");")
  | ForeignKeyConstraint _ _ cols refTable refCols _ _ =>
      let columnNames := asColumnsNames cols in
      let referenceColumnNames := asColumnsNames refCols in
      Sql (base ++ " FOREIGN KEY (" ++ columnNames ++ ") REFERENCES "
             ++ quoted refTable ++ " (" ++ referenceColumnNames ++ ")"
             ++ withAction constraint
             ++ ";")
  | UniqueConstraint _ _ cols =>
      let columnNames := asColumnsNames cols in
      Sql (base ++ " UNIQUE (" ++ columnNames ++ ");")
  | CheckConstraint _ _ expression =>
      Sql (base ++ " CHECK (" ++ expression ++ ");")
  end.

(** The statement built for [index.create], clause by clause. *)
Definition indexCreateSql (index : DatabaseIndex) : string :=
  let sql := "CREATE" in
  let sql := if truthy_bool (idx_unique index) then sql ++ " UNIQUE" else sql in
  let sql := sql ++ " INDEX " ++ quoted (idx_name index)
               ++ " ON " ++ quoted (idx_tableName index) in
  let sql := match idx_columnNames index with
             | Some cols => sql ++ " (" ++ asColumnsNames cols ++ ")"
             | None => sql
             end in
  let sql := match idx_using index with
             | Some (String c r) => sql ++ " USING " ++ String c r
             | _ => sql
             end in
  let sql := match idx_expression index with
             | Some (String c r) => sql ++ " (" ++ String c r ++ ")"
             | _ => sql
             end in
  let sql := match idx_where index with
             | Some (String c r) => sql ++ " WHERE " ++ String c r
             | _ => sql
             end in
  sql.

Definition columnSql (column : DatabaseColumn) : string :=
  quoted (col_name column) ++ " " ++ col_type column
    ++ withNull column ++ withDefault column.

Definition asSql (item : SchemaDiff) : SqlResult :=
  match item with
  | TableCreate tableName columns =>
      let columns := join ", " (map columnSql columns) in
      Sql ("CREATE TABLE " ++ quoted tableName ++ " (" ++ columns ++ ");")
  | TableDelete tableName =>
      Sql ("DROP TABLE " ++ quoted tableName ++ ";")
  | ColumnCreate column =>
      Sql ("ALTER TABLE " ++ quoted (col_tableName column)
             ++ " ADD " ++ quoted (col_name column) ++ " " ++ col_type column
             ++ withNull column
             ++ withDefault column
             ++ ";")
  | ColumnUpdate source target =>
      if negb (Bool.eqb (col_nullable source) (col_nullable target)) then
        if col_nullable source
        then Sql ("ALTER TABLE " ++ quoted (col_tableName source)
                    ++ " ALTER COLUMN " ++ quoted (col_name source) ++ " DROP NOT NULL;")
        else Sql ("ALTER TABLE " ++ quoted (col_tableName source)
                    ++ " ALTER COLUMN " ++ quoted (col_name source) ++ " SET NOT NULL;")
      else SqlList []
  | ColumnDelete tableName columnName =>
      Sql ("ALTER TABLE " ++ quoted tableName ++ " DROP COLUMN " ++ quoted columnName ++ ";")
  | ConstraintCreate constraint => asConstraintSql constraint
  | ConstraintDelete tableName constraintName =>
      Sql ("ALTER TABLE " ++ quoted tableName
             ++ " DROP CONSTRAINT " ++ quoted constraintName ++ ";")
  | IndexCreate index => Sql (indexCreateSql index)
  | IndexDelete indexName =>
      Sql ("DROP INDEX " ++ quoted indexName ++ ";")
  end.

Definition diffToSql (items : list SchemaDiff) : list string :=
  flat_map
    (fun item =>
       match asSql item with
       | Sql sql => [sql]
       | SqlList sql => sql
       end)
    items.

(* ================================================================== *)
(** ** Metadata compiler ([schema.decorator.ts]) *)
(* ================================================================== *)

(** The hex digest comes from [node:crypto]; the naming functions are
    parametric in it. *)
Section ConstraintNames.

Variable sha1 : string -> string.

Definition asKey (prefix tableName : string) (columnNames : list string) : string :=
  slice0 30 (prefix ++ sha1 (tableName ++ "_" ++ join "_" (toSorted columnNames))).

Definition asPrimaryKeyConstraintName (tableName : string) (columnNames : list string) :=
  asKey "PK_" tableName columnNames.

Definition asUniqueConstraintName (tableName : string) (columnNames : list string) :=
  asKey "UQ_" tableName columnNames.

Definition asForeignKeyConstraintName (tableName : string) (columnNames : list string) :=
  asKey "FK_" tableName columnNames.

End ConstraintNames.

(** The [default] option of a column declaration, by the cases that
    [getDynamicSchema] distinguishes; [DefaultDate] carries the result of
    [toISOString()] and [DefaultOther] the result of [String(value)]. *)
Inductive ColumnDefault : Type :=
| DefaultBoolean (b : bool)
| DefaultDate (iso : string)
| DefaultNull
| DefaultOther (text : string).

Record ColumnOptions : Type := mkColumnOptions {
  opt_name : option string;
  opt_type : option string;
  opt_primary : option bool;
  opt_nullable : option bool;
  opt_unique : option bool;
  opt_array : option bool;
  opt_default : option ColumnDefault;
  opt_enum : option (list string)
}.

(** The column pushed in the columns pass of [getDynamicSchema]. *)
Definition dynamicColumn (tableName propertyName : string) (options : ColumnOptions)
  : DatabaseColumn :=
  let columnName := match opt_name options with Some n => n | None => propertyName end in
  let defaultValue :=
    match opt_default options with
    | Some (DefaultBoolean value) => Some (if value then "TRUE" else "FALSE")
    | Some (DefaultDate iso) => Some iso
    | Some DefaultNull => None
    | Some (DefaultOther text) => Some text
    | None => None
    end in
  let nullable :=
    match opt_default options with
    | Some DefaultNull => Some true
    | _ => opt_nullable options
    end in
  {| col_name := columnName;
     col_primary := Some (match opt_primary options with Some b => b | None => false end);
     col_tableName := tableName;
     col_nullable := match nullable with Some b => b | None => false end;
     col_default := defaultValue;
     col_values := option_map Labels (opt_enum options);
     col_isArray := match opt_array options with Some b => b | None => false end;
     col_type := match opt_type options with
                 | Some (String c r) => String c r
                 | _ => "character varying"
                 end;
     col_numericPrecision := None;
     col_numericScale := None |}.

(** A row of the catalog query for columns, and the column that
    [loadSchema] builds from it ([None] when the row is skipped).  For a
    USER-DEFINED column the read [enumMap[column.udt_name]] decides: a type
    that is no enum is skipped, unless it is called like a member of
    [Object.prototype], which the read finds and stores as [values]. *)
Record ColumnRow : Type := mkColumnRow {
  row_table_name : string;
  row_column_name : string;
  row_data_type : string;
  row_is_nullable : string;
  row_column_default : option string;
  row_numeric_precision : option Z;
  row_numeric_scale : option Z;
  row_array_type : option string;
  row_udt_name : string
}.

Definition catalogColumn (enumMap : JsObject (list string)) (column : ColumnRow)
  : option DatabaseColumn :=
  let item ty values :=
    {| col_type := ty;
       col_name := row_column_name column;
       col_tableName := row_table_name column;
       col_nullable := (row_is_nullable column =? "YES");
       col_isArray := false;
       col_numericPrecision := row_numeric_precision column;
       col_numericScale := row_numeric_scale column;
       col_default := row_column_default column;
       col_values := values;
       col_primary := None |} in
  if row_data_type column =? "ARRAY" then
    match row_array_type column with
    | Some (String c r) => Some (item (String c r) None)
    | _ => None
    end
  else if row_data_type column =? "USER-DEFINED" then
    match obj_read enumMap (row_udt_name column) with
    | Own values => Some (item "enum" (Some (Labels values)))
    | Inherited member => Some (item "enum" (Some (PrototypeMember member)))
    | Absent => None
    end
  else Some (item (row_data_type column) None).

(* ================================================================== *)
(** ** A reference SHA-1 (FIPS 180-4) over the code units of a string,
       rendered as 40 lower-case hex digits.  On ASCII input it is the
       digest that [createHash('sha1').update(value).digest('hex')] returns;
       it stands for that digest wherever a concrete one is needed. *)
(* ================================================================== *)

Module Sha1.

Local Open Scope Z_scope.

Definition w32 (x : Z) : Z := x mod 4294967296.

Definition rotl (n x : Z) : Z :=
  w32 (Z.lor (Z.shiftl x n) (Z.shiftr x (32 - n))).

Definition bytes_of_string (s : string) : list Z :=
  map (fun c => Z.of_N (N_of_ascii c)) (list_ascii_of_string s).

(** Big-endian bytes of [x], [n] of them. *)
Fixpoint be_bytes (n : nat) (x : Z) : list Z :=
  match n with
  | O => []
  | S n' => Z.land (Z.shiftr x (8 * Z.of_nat n')) 255 :: be_bytes n' x
  end.

Definition pad (msg : list Z) : list Z :=
  let len := Z.of_nat (List.length msg) in
  let zeros := Z.to_nat ((55 - len) mod 64) in
  (msg ++ [128] ++ repeat 0 zeros ++ be_bytes 8 (8 * len))%list.

Fixpoint words (fuel : nat) (bytes : list Z) : list Z :=
  match fuel, bytes with
  | S fuel', b0 :: b1 :: b2 :: b3 :: r =>
      (b0 * 16777216 + b1 * 65536 + b2 * 256 + b3) :: words fuel' r
  | _, _ => []
  end.

Fixpoint chunks (fuel : nat) (ws : list Z) : list (list Z) :=
  match fuel, ws with
  | S fuel', _ :: _ => firstn 16 ws :: chunks fuel' (skipn 16 ws)
  | _, _ => []
  end.

(** Message schedule, most recent word first. *)
Fixpoint extend (n : nat) (recent : list Z) : list Z :=
  match n with
  | O => recent
  | S n' =>
      let w := rotl 1 (Z.lxor (nth 2 recent 0)
                         (Z.lxor (nth 7 recent 0)
                            (Z.lxor (nth 13 recent 0) (nth 15 recent 0)))) in
      extend n' (w :: recent)
  end.

Definition schedule (block : list Z) : list Z := rev (extend 64 (rev block)).

Definition State : Type := (Z * Z * Z * Z * Z)%type.

Definition round (t : nat) (st : State) (w : Z) : State :=
  let '(a, b, c, d, e) := st in
  let notb := Z.lxor b 4294967295 in
  let '(f, k) :=
    if (t <? 20)%nat then (Z.lor (Z.land b c) (Z.land notb d), 1518500249)
    else if (t <? 40)%nat then (Z.lxor b (Z.lxor c d), 1859775393)
    else if (t <? 60)%nat then
      (Z.lor (Z.land b c) (Z.lor (Z.land b d) (Z.land c d)), 2400959708)
    else (Z.lxor b (Z.lxor c d), 3395469782) in
  (w32 (rotl 5 a + f + e + k + w), a, rotl 30 b, c, d).

Fixpoint rounds (t : nat) (st : State) (ws : list Z) : State :=
  match ws with
  | [] => st
  | w :: r => rounds (S t) (round t st w) r
  end.

Definition compress (h : State) (block : list Z) : State :=
  let '(h0, h1, h2, h3, h4) := h in
  let '(a, b, c, d, e) := rounds 0 h (schedule block) in
  (w32 (h0 + a), w32 (h1 + b), w32 (h2 + c), w32 (h3 + d), w32 (h4 + e)).

Definition initial : State :=
  (1732584193, 4023233417, 2562383102, 271733878, 3285377520).

Definition hexdigit (x : Z) : ascii :=
  let d := Z.to_N (Z.land x 15) in
  if (d <? 10)%N then ascii_of_N (48 + d) else ascii_of_N (87 + d).

Definition hex8 (x : Z) (rest : string) : string :=
  String (hexdigit (Z.shiftr x 28)) (String (hexdigit (Z.shiftr x 24))
  (String (hexdigit (Z.shiftr x 20)) (String (hexdigit (Z.shiftr x 16))
  (String (hexdigit (Z.shiftr x 12)) (String (hexdigit (Z.shiftr x 8))
  (String (hexdigit (Z.shiftr x 4)) (String (hexdigit x) rest))))))).

Definition hex_of_state (st : State) : string :=
  let '(h0, h1, h2, h3, h4) := st in
  hex8 h0 (hex8 h1 (hex8 h2 (hex8 h3 (hex8 h4 EmptyString)))).

Definition digest (msg : list Z) : State :=
  let padded := pad msg in
  let ws := words (List.length padded) padded in
  fold_left compress (chunks (List.length ws) ws) initial.

Definition sha1 (value : string) : string :=
  hex_of_state (digest (bytes_of_string value)).

End Sha1.

(* ================================================================== *)
(** ** Vocabulary of the statements below, and sample data *)
(* ================================================================== *)

(** The order of the default sort, as a relation. *)
Definition str_le (a b : string) : Prop := (a <=? b) = true.

(** The value of the last entry with key [k]: what a read of
    [Object.fromEntries(entries)[k]] yields. *)
Fixpoint lastEntry {V : Type} (entries : list (string * V)) (k : string) : option V :=
  match entries with
  | [] => None
  | (k', v) :: r =>
      match lastEntry r k with
      | Some v' => Some v'
      | None => if (k' =? k)%string then Some v else None
      end
  end.

(** *** Names that no read confuses with a member of [Object.prototype] *)

Definition ordinaryNames (names : list string) : bool :=
  forallb (fun name => negb (isPrototypeMember name)) names.

Definition ordinaryTable (table : DatabaseTable) : bool :=
  negb (isPrototypeMember (tbl_name table))
  && ordinaryNames (map col_name (tbl_columns table))
  && ordinaryNames (map idx_name (tbl_indexes table))
  && ordinaryNames (map con_name (tbl_constraints table)).

Definition ordinarySchema (schema : DatabaseSchema) : bool :=
  forallb ordinaryTable (sch_tables schema).

(** *** The changes between own properties

    The lists that the differ returns when every read finds an own property
    or nothing, as is the case for schemas with ordinary names (lemma
    [diff_ordinary]): the loops of [diffColumns], [diffConstraints],
    [diffIndexes], [diffTable], [diffTables] and [diff] with the per-item
    comparison applied to the own properties. *)
Definition columnChanges (sources targets : list DatabaseColumn) : list SchemaDiff :=
  let sourceMap := columnMap sources in
  let targetMap := columnMap targets in
  let keys := newSet (keys sourceMap ++ keys targetMap) in
  flat_map (fun key => diffColumn (obj_get sourceMap key) (obj_get targetMap key)) keys.

Definition constraintChanges (sources targets : list DatabaseConstraint) : list SchemaDiff :=
  flat_map
    (fun type =>
       let sourceMap := constraintMap type sources in
       let targetMap := constraintMap type targets in
       let keys := newSet (keys sourceMap ++ keys targetMap) in
       flat_map (fun key => diffConstraint (obj_get sourceMap key) (obj_get targetMap key)) keys)
    DatabaseConstraintType_values.

Definition indexChanges (sources targets : list DatabaseIndex) : list SchemaDiff :=
  let sourceMap := indexMap sources in
  let targetMap := indexMap targets in
  let keys := newSet (keys sourceMap ++ keys targetMap) in
  flat_map (fun key => diffIndex (obj_get sourceMap key) (obj_get targetMap key)) keys.

Definition tableChanges (source target : option DatabaseTable) : list SchemaDiff :=
  match source, target with
  | Some s, None =>
      TableCreate (tbl_name s) (tbl_columns s)
        :: indexChanges (tbl_indexes s) []
        ++ constraintChanges (tbl_constraints s) []
  | None, Some t => [TableDelete (tbl_name t)]
  | None, None => []
  | Some s, Some t =>
      columnChanges (tbl_columns s) (tbl_columns t)
        ++ constraintChanges (tbl_constraints s) (tbl_constraints t)
        ++ indexChanges (tbl_indexes s) (tbl_indexes t)
  end.

Definition tablesChanges (sources targets : list DatabaseTable) (ignoreExtra : bool)
  : list SchemaDiff :=
  let sourceMap := tableMap sources in
  let targetMap := tableMap targets in
  let keys := newSet (keys sourceMap ++ keys targetMap) in
  flat_map
    (fun key =>
       if ignoreExtra && negb (truthy_obj (obj_get sourceMap key)) then []
       else tableChanges (obj_get sourceMap key) (obj_get targetMap key))
    keys.

Definition schemaChanges (source target : DatabaseSchema) (options : option DiffOptions)
  : list SchemaDiff :=
  let options := match options with Some o => o | None => mkDiffOptions None end in
  tablesChanges (sch_tables source) (sch_tables target)
    (match ignoreExtraTables options with Some b => b | None => true end).

(** A table present on both sides: each table map has it as the own
    property [tableName]. *)
Definition tableInBoth (source target : DatabaseSchema) (tableName : string)
           (S T : DatabaseTable) : Prop :=
  obj_get (tableMap (sch_tables source)) tableName = Some S
  /\ obj_get (tableMap (sch_tables target)) tableName = Some T.

(** A [column.update] is only ever emitted between columns of one type. *)
Definition updateKeepsType (change : SchemaDiff) : Prop :=
  match change with
  | ColumnUpdate source target => col_type source = col_type target
  | _ => True
  end.

(** The clause of a referential action as the statement form gives it:
    [ ON DELETE <a>] or [ ON UPDATE <a>] when the action is present, nothing
    otherwise. *)
Definition actionClause (event : string) (action : option DatabaseActionType) : string :=
  match action with
  | Some a => " ON " ++ event ++ " " ++ action_string a
  | None => ""
  end.

(** A comma-joined list of the quoted [names]. *)
Definition quotedList (names : list string) : string :=
  join ", " (map quoted names).

(** Lower-case hexadecimal digits, as [digest('hex')] produces them. *)
Definition isHexDigit (c : ascii) : bool :=
  let n := N_of_ascii c in
  (((48 <=? n) && (n <=? 57)) || ((97 <=? n) && (n <=? 102)))%N.

Definition isHexString (s : string) : Prop :=
  Forall (fun c => isHexDigit c = true) (list_ascii_of_string s).

(** Sample schemas in the style of the service's tests: the desired and the
    observed state of one table. *)
Definition sampleColumn (name type : string) (primary : option bool) : DatabaseColumn :=
  mkColumn name "Table1" type false false primary None None None None.

Definition desiredTable : DatabaseTable :=
  mkTable "Table1"
    [sampleColumn "Column1" "uuid" (Some true);
     sampleColumn "Column2" "character varying" (Some false)]
    [mkIndex "IDX_1" "Table1" (Some ["Column2"]) None (Some true) None None]
    [PrimaryKeyConstraint "PK_1" "Table1" ["Column1"]].

Definition observedTable : DatabaseTable :=
  mkTable "Table1"
    [sampleColumn "Column1" "text" None;
     sampleColumn "Column2" "character varying" None]
    [mkIndex "IDX_1" "Table1" (Some ["Column2"]) None (Some false) None None]
    [PrimaryKeyConstraint "PK_1" "Table1" ["Column1"; "Column2"]].

Definition desiredSchema : DatabaseSchema := mkSchema "public" [desiredTable].
Definition observedSchema : DatabaseSchema := mkSchema "public" [observedTable].

Definition nullableColumn (nullable : bool) (type : string) (d : option string)
  : DatabaseColumn :=
  mkColumn "Column1" "Table1" type nullable false None d None None None.


(** An index whose predicate text itself ends with a semicolon. *)
Definition indexWithTerminatedPredicate : DatabaseIndex :=
  mkIndex "IDX_1" "Table1" (Some ["Column1"]) None None None (Some "(1 = 1);").

Definition uniqueIndex : DatabaseIndex :=
  mkIndex "IDX_1" "Table1" (Some ["Column1"]) None (Some true) None None.

(* ================================================================== *)
(** ** The driver ([bin/sync-schema.ts]) *)
(* ================================================================== *)

(** [dynamicSchema.tables.some(({ name }) => table.name === name)] *)
Definition isIncluded (dynamicSchema : DatabaseSchema) (table : DatabaseTable) : bool :=
  existsb (fun t => tbl_name table =? tbl_name t) (sch_tables dynamicSchema).

(** The observed schema after [schema.tables = schema.tables.filter(isIncluded)]. *)
Definition includedOnly (dynamicSchema schema : DatabaseSchema) : DatabaseSchema :=
  mkSchema (sch_name schema) (filter (isIncluded dynamicSchema) (sch_tables schema)).

(** [service.diff(dynamicSchema, schema, { ignoreExtraTables: true })] on the
    filtered schema. *)
Definition syncDiff (dynamicSchema schema : DatabaseSchema) : Outcome (list Emitted) :=
  diff dynamicSchema (includedOnly dynamicSchema schema)
    (Some (mkDiffOptions (Some true))).

(** *** Further vocabulary *)

(** Where a change comes from: what is created is taken from the source
    schema, what is deleted names something of the target schema, and an
    update pairs a source column with a target column of the same name in
    tables of the same name. *)
Definition changeFrom (source target : DatabaseSchema) (change : SchemaDiff) : Prop :=
  match change with
  | TableCreate n cols =>
      exists S, In S (sch_tables source) /\ n = tbl_name S /\ cols = tbl_columns S
  | TableDelete n =>
      exists T, In T (sch_tables target) /\ n = tbl_name T
  | ColumnCreate c =>
      exists S, In S (sch_tables source) /\ In c (tbl_columns S)
  | ColumnUpdate s t =>
      exists S T, In S (sch_tables source) /\ In T (sch_tables target)
                  /\ tbl_name S = tbl_name T
                  /\ In s (tbl_columns S) /\ In t (tbl_columns T)
                  /\ col_name s = col_name t
  | ColumnDelete tn cn =>
      exists T c, In T (sch_tables target) /\ In c (tbl_columns T)
                  /\ tn = col_tableName c /\ cn = col_name c
  | ConstraintCreate c =>
      exists S, In S (sch_tables source) /\ In c (tbl_constraints S)
  | ConstraintDelete tn cn =>
      exists T c, In T (sch_tables target) /\ In c (tbl_constraints T)
                  /\ tn = con_tableName c /\ cn = con_name c
  | IndexCreate i =>
      exists S, In S (sch_tables source) /\ In i (tbl_indexes S)
  | IndexDelete n =>
      exists T i, In T (sch_tables target) /\ In i (tbl_indexes T) /\ n = idx_name i
  end.

Definition isTableDelete (change : SchemaDiff) : bool :=
  match change with
  | TableDelete _ => true
  | _ => false
  end.

(** The same for an element of a returned array, well-formed or not. *)
Definition dropsTable (record : Emitted) : bool :=
  match record with
  | Change change => isTableDelete change
  | Stray (StrayTableDelete _) => true
  | Stray _ => false
  end.

(** The changes for which [asSql] returns a statement. *)
Definition emitsSql (item : SchemaDiff) : bool :=
  match item with
  | ColumnUpdate source target => negb (Bool.eqb (col_nullable source) (col_nullable target))
  | _ => true
  end.

(** Record updates used in the statements. *)
Definition withColumnDefault (d : option string) (c : DatabaseColumn) : DatabaseColumn :=
  mkColumn (col_name c) (col_tableName c) (col_type c) (col_nullable c) (col_isArray c)
    (col_primary c) d (col_values c) (col_numericPrecision c) (col_numericScale c).

Definition withIndexColumns (cols : option (list string)) (i : DatabaseIndex) : DatabaseIndex :=
  mkIndex (idx_name i) (idx_tableName i) cols (idx_expression i) (idx_unique i)
    (idx_using i) (idx_where i).

(** [Object.values(o)]: the property values in the order of [Object.keys]. *)
Definition obj_values {V : Type} (o : JsObject V) : list V :=
  flat_map (fun k => match obj_get o k with Some v => [v] | None => [] end) (keys o).

(** Further sample data: a table that only the desired schema has, and a
    column declared with an empty default. *)
Definition newTable : DatabaseTable :=
  mkTable "Table2"
    [mkColumn "Id" "Table2" "uuid" false false (Some true) None None None None]
    [mkIndex "IDX_2" "Table2" (Some ["Id"]) None (Some false) None None]
    [PrimaryKeyConstraint "PK_2" "Table2" ["Id"]].

Definition desiredSchemaWithNewTable : DatabaseSchema :=
  mkSchema "public" [desiredTable; newTable].

Definition emptyDefaultColumn : DatabaseColumn :=
  mkColumn "password" "users" "character varying" false false (Some false)
    (Some EmptyString) None None None.

(* ================================================================== *)
(** ** Catalog introspector ([loadSchema]) *)
(* ================================================================== *)

Definition asDatabaseAction (action : string) : DatabaseActionType :=
  if action =? "a" then NO_ACTION
  else if action =? "c" then CASCADE
  else if action =? "r" then RESTRICT
  else if action =? "n" then SET_NULL
  else if action =? "d" then SET_DEFAULT
  else NO_ACTION.

(** *** String operations used on constraint definitions *)

(** The characters before the first [)] of [s], when there is one: what
    [[^)]+] followed by [\)] can consume from the start of [s]. *)
Fixpoint upToClosing (s : string) : option string :=
  match s with
  | EmptyString => None
  | String c r =>
      if (c =? ")")%char then Some EmptyString
      else match upToClosing r with
           | Some e => Some (String c e)
           | None => None
           end
  end.

(** [s.match(/\((?<expression>[^)]+)\)/)?.groups?.expression]: the group
    of the leftmost match. *)
Fixpoint matchParenthesized (s : string) : option string :=
  match s with
  | EmptyString => None
  | String c r =>
      if (c =? "(")%char then
        match upToClosing r with
        | Some (String a e) => Some (String a e)
        | _ => matchParenthesized r
        end
      else matchParenthesized r
  end.

(** [s.split(sep)] for a one-character separator. *)
Fixpoint split (sep : ascii) (s : string) : list string :=
  match s with
  | EmptyString => [EmptyString]
  | String c r =>
      if (c =? sep)%char then EmptyString :: split sep r
      else match split sep r with
           | piece :: pieces => String c piece :: pieces
           | [] => [String c EmptyString]
           end
  end.

(** [s.replaceAll(c, '')] for a one-character pattern. *)
Fixpoint removeAll (c : ascii) (s : string) : string :=
  match s with
  | EmptyString => EmptyString
  | String a r => if (a =? c)%char then removeAll c r else String a (removeAll c r)
  end.

(** White space and line terminators among the code units below 256. *)
Definition isWhiteSpace (c : ascii) : bool :=
  let n := N_of_ascii c in
  (((9 <=? n) && (n <=? 13)) || (n =? 32) || (n =? 160))%N.

Fixpoint trimStart (s : string) : string :=
  match s with
  | EmptyString => EmptyString
  | String c r => if isWhiteSpace c then trimStart r else s
  end.

Fixpoint trimEnd (s : string) : string :=
  match s with
  | EmptyString => EmptyString
  | String c r =>
      match trimEnd r with
      | EmptyString => if isWhiteSpace c then EmptyString else String c EmptyString
      | kept => String c kept
      end
  end.

(** [s.trim()] *)
Definition trim (s : string) : string := trimEnd (trimStart s).

(** The column names of a unique constraint, read from its definition. *)
Definition uniqueColumnNames (expression : string) : option (list string) :=
  match matchParenthesized expression with
  | Some e => Some (map (fun column => trim (removeAll "034"%char column)) (split "," e))
  | None => None
  end.

Fixpoint dropPrefix (p s : string) : option string :=
  match p, s with
  | EmptyString, _ => Some s
  | String a p', String b s' => if (a =? b)%char then dropPrefix p' s' else None
  | String _ _, EmptyString => None
  end.

(** [s.replace(pattern, replacement)] for a string pattern and a
    replacement without [$]: the first occurrence is replaced. *)
Fixpoint replaceFirst (pattern replacement s : string) : string :=
  match dropPrefix pattern s with
  | Some rest => replacement ++ rest
  | None =>
      match s with
      | EmptyString => EmptyString
      | String c r => String c (replaceFirst pattern replacement r)
      end
  end.

(** *** Rows of the catalog queries *)

Record TableRow : Type := mkTableRow {
  trow_table_name : string
}.

Record IndexRow : Type := mkIndexRow {
  irow_index_name : string;
  irow_table_name : string;
  irow_unique : bool;
  irow_expression : option string;
  irow_where : option string;
  irow_column_names : option (list string)
}.

Record ConstraintRow : Type := mkConstraintRow {
  crow_constraint_type : string;
  crow_constraint_name : string;
  crow_table_name : string;
  crow_reference_table_name : option string;
  crow_update_action : string;
  crow_delete_action : string;
  crow_column_names : option (list string);
  crow_reference_column_names : option (list string);
  crow_expression : string
}.

Record EnumRow : Type := mkEnumRow {
  erow_name : string;
  erow_values : list string
}.

Record LoadSchemaOptions : Type := mkLoadSchemaOptions {
  schemaName : option string
}.

(** The index pushed for a row of the index query. *)
Definition catalogIndex (index : IndexRow) : DatabaseIndex :=
  {| idx_name := irow_index_name index;
     idx_tableName := irow_table_name index;
     idx_columnNames := irow_column_names index;
     idx_expression := irow_expression index;
     idx_where := irow_where index;
     idx_unique := Some (irow_unique index);
     idx_using := None |}.

(** The constraint pushed for a row of the constraint query ([None] when
    the row is skipped). *)
Definition catalogConstraint (constraint : ConstraintRow) : option DatabaseConstraint :=
  let constraintName := crow_constraint_name constraint in
  let type := crow_constraint_type constraint in
  if type =? "p" then
    match crow_column_names constraint with
    | Some columnNames =>
        Some (PrimaryKeyConstraint constraintName (crow_table_name constraint) columnNames)
    | None => None
    end
  else if type =? "f" then
    match crow_column_names constraint,
          crow_reference_table_name constraint,
          crow_reference_column_names constraint with
    | Some columnNames, Some (String c r), Some referenceColumnNames =>
        Some (ForeignKeyConstraint constraintName (crow_table_name constraint) columnNames
                (String c r) referenceColumnNames
                (Some (asDatabaseAction (crow_update_action constraint)))
                (Some (asDatabaseAction (crow_delete_action constraint))))
    | _, _, _ => None
    end
  else if type =? "u" then
    match uniqueColumnNames (crow_expression constraint) with
    | Some columnNames =>
        Some (UniqueConstraint constraintName (crow_table_name constraint) columnNames)
    | None => None
    end
  else if type =? "c" then
    Some (CheckConstraint constraintName (crow_table_name constraint)
            (replaceFirst "CHECK " "" (crow_expression constraint)))
  else None.

(** *** The passes of [loadSchema] over [tablesMap] *)

(** [tablesMap] starts as the literal [{}]: a read under the name of a
    member of [Object.prototype] is truthy from the start. *)
Definition addTable (tablesMap : JsObject DatabaseTable) (table : TableRow)
  : JsObject DatabaseTable :=
  let tableName := trow_table_name table in
  if truthy_read (obj_read tablesMap tableName) then tablesMap
  else obj_set tableName (mkTable tableName [] [] []) tablesMap.

Definition pushColumn (item : DatabaseColumn) (table : DatabaseTable) : DatabaseTable :=
  mkTable (tbl_name table) (tbl_columns table ++ [item]) (tbl_indexes table)
    (tbl_constraints table).

Definition pushIndex (item : DatabaseIndex) (table : DatabaseTable) : DatabaseTable :=
  mkTable (tbl_name table) (tbl_columns table) (tbl_indexes table ++ [item])
    (tbl_constraints table).

Definition pushConstraint (item : DatabaseConstraint) (table : DatabaseTable)
  : DatabaseTable :=
  mkTable (tbl_name table) (tbl_columns table) (tbl_indexes table)
    (tbl_constraints table ++ [item]).

(** One pass of a loop of the shape
    [const table = tablesMap[key]; if (!table) continue; ... table.xs.push(item)],
    where building the item may itself [continue].  When the read yields a
    member of [Object.prototype], [table.xs] is [undefined] and the [push]
    throws, unless the pass has left the loop body before. *)
Definition pushInto {R X : Type} (key : R -> string) (item : R -> option X)
           (push : X -> DatabaseTable -> DatabaseTable)
           (tablesMap : JsObject DatabaseTable) (row : R)
  : Outcome (JsObject DatabaseTable) :=
  match obj_read tablesMap (key row) with
  | Absent => Returns tablesMap
  | Own table =>
      match item row with
      | None => Returns tablesMap
      | Some x => Returns (obj_set (key row) (push x table) tablesMap)
      end
  | Inherited _ =>
      match item row with
      | None => Returns tablesMap
      | Some _ => Throws
      end
  end.

Definition loadSchema (options : option LoadSchemaOptions)
           (tables : list TableRow) (columns : list ColumnRow) (indexes : list IndexRow)
           (constraints : list ConstraintRow) (enums : list EnumRow)
  : Outcome DatabaseSchema :=
  let schemaName :=
    match options with
    | Some {| schemaName := Some (String c r) |} => String c r
    | _ => "public"
    end in
  let enumMap := fromEntries (map (fun e => (erow_name e, erow_values e)) enums) in
  let tablesMap := fold_left addTable tables [] in
  whenReturned
    (forRows (pushInto row_table_name (catalogColumn enumMap) pushColumn) columns tablesMap)
    (fun tablesMap =>
       whenReturned
         (forRows
            (pushInto irow_table_name (fun index => Some (catalogIndex index)) pushIndex)
            indexes tablesMap)
         (fun tablesMap =>
            whenReturned
              (forRows (pushInto crow_table_name catalogConstraint pushConstraint)
                 constraints tablesMap)
              (fun tablesMap => Returns (mkSchema schemaName (obj_values tablesMap))))).

(** The map after a pass of such a loop that completes: the item is
    attached to the table that the map has as own property, if any. *)
Definition attach {R X : Type} (key : R -> string) (item : R -> option X)
           (push : X -> DatabaseTable -> DatabaseTable)
           (tablesMap : JsObject DatabaseTable) (row : R) : JsObject DatabaseTable :=
  match obj_get tablesMap (key row) with
  | None => tablesMap
  | Some table =>
      match item row with
      | None => tablesMap
      | Some x => obj_set (key row) (push x table) tablesMap
      end
  end.

(** The rows at which a pass throws: they name a table called like a member
    of [Object.prototype] and are not skipped. *)
Definition throwingRow {R X : Type} (key : R -> string) (item : R -> option X) (row : R)
  : bool :=
  isPrototypeMember (key row) && truthy_obj (item row).

(** The items built from the rows that name a given table, in row order. *)
Definition collect {R X : Type} (key : R -> string) (item : R -> option X)
           (tableName : string) (rows : list R) : list X :=
  flat_map (fun row => match item row with Some x => [x] | None => [] end)
    (filter (fun row => key row =? tableName) rows).

(** The map that [loadSchema] has built when its loops are done. *)
Definition loadedTablesMap (tables : list TableRow) (columns : list ColumnRow)
           (indexes : list IndexRow) (constraints : list ConstraintRow)
           (enums : list EnumRow) : JsObject DatabaseTable :=
  fold_left (attach crow_table_name catalogConstraint pushConstraint) constraints
    (fold_left (attach irow_table_name (fun index => Some (catalogIndex index)) pushIndex)
       indexes
       (fold_left
          (attach row_table_name
             (catalogColumn (fromEntries (map (fun e => (erow_name e, erow_values e)) enums)))
             pushColumn)
          columns (fold_left addTable tables []))).

(** An invariant of [tablesMap]: no own property is called like a member of
    [Object.prototype]. *)
Definition noMemberKeys (m : JsObject DatabaseTable) : Prop :=
  forall k, isPrototypeMember k = true -> obj_get m k = None.

(** Whether some pass of [loadSchema] throws, and the name of the schema
    that it returns otherwise. *)
Definition loadSchemaThrows (columns : list ColumnRow) (indexes : list IndexRow)
           (constraints : list ConstraintRow) (enums : list EnumRow) : bool :=
  existsb
    (throwingRow row_table_name
       (catalogColumn (fromEntries (map (fun e => (erow_name e, erow_values e)) enums))))
    columns
  || existsb (throwingRow irow_table_name (fun index => Some (catalogIndex index))) indexes
  || existsb (throwingRow crow_table_name catalogConstraint) constraints.

Definition loadedSchemaName (options : option LoadSchemaOptions) : string :=
  match options with
  | Some {| schemaName := Some (String c r) |} => String c r
  | _ => "public"
  end.

(** The table that [loadSchema] returns under a name. *)
Definition loadedTable (tableName : string) (columns : list ColumnRow)
           (indexes : list IndexRow) (constraints : list ConstraintRow)
           (enums : list EnumRow) : DatabaseTable :=
  mkTable tableName
    (collect row_table_name
       (catalogColumn (fromEntries (map (fun e => (erow_name e, erow_values e)) enums)))
       tableName columns)
    (collect irow_table_name (fun index => Some (catalogIndex index)) tableName indexes)
    (collect crow_table_name catalogConstraint tableName constraints).

(** Names that survive the reading of a unique-constraint definition
    unchanged: not empty, free of double quotes, commas and closing
    parentheses, and without white space at either end. *)
Fixpoint noChar (c : ascii) (s : string) : bool :=
  match s with
  | EmptyString => true
  | String a r => negb (a =? c)%char && noChar c r
  end.

Definition plainName (n : string) : bool :=
  negb (n =? "") && noChar "034"%char n && noChar "," n && noChar ")" n
  && (trim n =? n).

(** A name as a definition may show it: bare or double-quoted. *)
Definition shownName (item : bool * string) : string :=
  if fst item then quoted (snd item) else snd item.

(** Sample catalog rows. *)
Definition checkRow : ConstraintRow :=
  mkConstraintRow "c" "CHK_1" "Table1" None " " " " None None "CHECK (size > 0)".

Definition foreignKeyRow : ConstraintRow :=
  mkConstraintRow "f" "FK_1" "Table1" (Some "Table2") "c" " " (Some ["Column1"])
    (Some ["Id"]) "FOREIGN KEY (Column1) REFERENCES Table2(Id) ON UPDATE CASCADE".

Definition sampleColumnRow : ColumnRow :=
  mkColumnRow "Table1" "Column2" "character varying" "NO" None None None None "varchar".

(* ================================================================== *)
(** ** Metadata compiler: registries and [getDynamicSchema] *)
(* ================================================================== *)

(** [name.replaceAll(/([a-z])([A-Z])/g, '$1_$2')]: scanning from the left,
    a lower-case letter followed by an upper-case letter is rewritten with
    an underscore between them and both are consumed. *)
Definition isLowerLetter (c : ascii) : bool :=
  let n := N_of_ascii c in ((97 <=? n) && (n <=? 122))%N.

Definition isUpperLetter (c : ascii) : bool :=
  let n := N_of_ascii c in ((65 <=? n) && (n <=? 90))%N.

Fixpoint insertUnderscores (s : string) : string :=
  match s with
  | EmptyString => EmptyString
  | String a r =>
      match r with
      | String b r' =>
          if isLowerLetter a && isUpperLetter b
          then String a (String "_" (String b (insertUnderscores r')))
          else String a (insertUnderscores r)
      | EmptyString => String a EmptyString
      end
  end.

(** [toLowerCase()] on code units below 256: the letters A-Z and the
    upper-case letters of Latin-1 move up by 32. *)
Definition toLowerChar (c : ascii) : ascii :=
  let n := N_of_ascii c in
  if (((65 <=? n) && (n <=? 90)) || ((192 <=? n) && (n <=? 214))
      || ((216 <=? n) && (n <=? 222)))%N
  then ascii_of_N (n + 32) else c.

Fixpoint toLowerCase (s : string) : string :=
  match s with
  | EmptyString => EmptyString
  | String c r => String (toLowerChar c) (toLowerCase r)
  end.

Definition asSnakeCase (name : string) : string := toLowerCase (insertUnderscores name).

(** A class: its identity, its [name] and the identities of its
    superclasses, nearest first (the prototype chain).  A property
    decorator receives the prototype of the class, whose [constructor] is
    the class; both are represented by the class. *)
Record JsClass : Type := mkClass {
  cls_id : nat;
  cls_name : string;
  cls_ancestors : list nat
}.

Record TableOptions : Type := mkTableOptions {
  topt_name : option string
}.

Record IndexOptions : Type := mkIndexOptions {
  iopt_name : option string;
  iopt_columns : option (list string);
  iopt_unique : option bool;
  iopt_expression : option string;
  iopt_using : option string;
  iopt_where : option string
}.

Record ColumnIndexOptions : Type := mkColumnIndexOptions {
  ciopt_name : option string;
  ciopt_unique : option bool;
  ciopt_expression : option string;
  ciopt_using : option string;
  ciopt_where : option string
}.

Inductive DatabaseRelationType : Type :=
| MANY_TO_ONE
| ONE_TO_ONE.

Record RelationOptions : Type := mkRelationOptions {
  ropt_onUpdate : option DatabaseActionType;
  ropt_onDelete : option DatabaseActionType;
  ropt_nullable : option bool
}.

Record RegisterTable : Type := mkRegisterTable {
  rt_target : JsClass;
  rt_options : TableOptions
}.

Record RegisterColumn : Type := mkRegisterColumn {
  rc_object : JsClass;
  rc_propertyName : string;
  rc_options : ColumnOptions
}.

Record RegisterIndex : Type := mkRegisterIndex {
  ri_object : JsClass;
  ri_options : IndexOptions
}.

Record RegisterColumnIndex : Type := mkRegisterColumnIndex {
  rci_object : JsClass;
  rci_propertyName : string;
  rci_options : ColumnIndexOptions
}.

Record RegisterRelation : Type := mkRegisterRelation {
  rr_object : JsClass;
  rr_propertyName : string;
  rr_options : RelationOptions;
  rr_type : DatabaseRelationType;
  rr_target : JsClass
}.

(** [Reflect] metadata under the keys [TableName] (on classes) and
    [ColumnName] (on a prototype and a property); the latest definition
    comes first. *)
Fixpoint lookupClass {V : Type} (id : nat) (store : list (nat * V)) : option V :=
  match store with
  | [] => None
  | (id', v) :: r => if Nat.eqb id' id then Some v else lookupClass id r
  end.

Fixpoint lookupProperty (id : nat) (property : string)
         (store : list (nat * string * string)) : option string :=
  match store with
  | [] => None
  | (id', p, v) :: r =>
      if Nat.eqb id' id && (p =? property) then Some v else lookupProperty id property r
  end.

(** The first result along a chain of lookups. *)
Fixpoint firstSome {A V : Type} (lookup : A -> option V) (chain : list A) : option V :=
  match chain with
  | [] => None
  | x :: r => match lookup x with Some v => Some v | None => firstSome lookup r end
  end.

(** [Reflect.getMetadata(key, target)]: own metadata first, then along the
    prototype chain. *)
Definition getTableName (store : list (nat * string)) (c : JsClass) : option string :=
  firstSome (fun id => lookupClass id store) (cls_id c :: cls_ancestors c).

Definition getColumnName (store : list (nat * string * string)) (c : JsClass)
           (property : string) : option string :=
  firstSome (fun id => lookupProperty id property store) (cls_id c :: cls_ancestors c).

(** [name ? items.find((item) => item.name === name) : undefined] *)
Definition findByName {T : Type} (nameOf : T -> string) (items : list T)
           (name : option string) : option T :=
  match name with
  | Some (String c r) => find (fun item => nameOf item =? String c r) items
  | _ => None
  end.

(** A mutation of the first table of a given name, which is the table that
    [findByName] returns for that name. *)
Fixpoint updateFirst (name : string) (f : DatabaseTable -> DatabaseTable)
         (tables : list DatabaseTable) : list DatabaseTable :=
  match tables with
  | [] => []
  | t :: r => if tbl_name t =? name then f t :: r else t :: updateFirst name f r
  end.

(** What the passes of [getDynamicSchema] work on. *)
Record CompileState : Type := mkCompileState {
  cs_tables : list DatabaseTable;
  cs_tableNames : list (nat * string);
  cs_columnNames : list (nat * string * string)
}.

Definition primaryColumnNames (columns : list DatabaseColumn) : list string :=
  map col_name (filter (fun column => truthy_bool (col_primary column)) columns).

Section Compiler.

Variable sha1 : string -> string.

Definition compileTable (st : CompileState) (reg : RegisterTable) : CompileState :=
  let tableName :=
    match topt_name (rt_options reg) with
    | Some (String c r) => String c r
    | _ => asSnakeCase (cls_name (rt_target reg))
    end in
  {| cs_tables := cs_tables st ++ [mkTable tableName [] [] []];
     cs_tableNames := (cls_id (rt_target reg), tableName) :: cs_tableNames st;
     cs_columnNames := cs_columnNames st |}.

Definition compileColumn (st : CompileState) (reg : RegisterColumn) : CompileState :=
  match findByName tbl_name (cs_tables st) (getTableName (cs_tableNames st) (rc_object reg)) with
  | None => st
  | Some table =>
      let options := rc_options reg in
      let column := dynamicColumn (tbl_name table) (rc_propertyName reg) options in
      let columnName := col_name column in
      let tables := updateFirst (tbl_name table) (pushColumn column) (cs_tables st) in
      let tables :=
        if negb (truthy_bool (opt_primary options)) && truthy_bool (opt_unique options)
        then updateFirst (tbl_name table)
               (pushConstraint
                  (UniqueConstraint (asUniqueConstraintName sha1 (tbl_name table) [columnName])
                     (tbl_name table) [columnName]))
               tables
        else tables in
      {| cs_tables := tables;
         cs_tableNames := cs_tableNames st;
         cs_columnNames :=
           (cls_id (rc_object reg), rc_propertyName reg, columnName) :: cs_columnNames st |}
  end.

Definition addPrimaryKey (table : DatabaseTable) : DatabaseTable :=
  let columnNames := primaryColumnNames (tbl_columns table) in
  match columnNames with
  | [] => table
  | _ :: _ =>
      pushConstraint
        (PrimaryKeyConstraint (asPrimaryKeyConstraintName sha1 (tbl_name table) columnNames)
           (tbl_name table) columnNames)
        table
  end.

Definition compileIndex (st : CompileState) (reg : RegisterIndex) : CompileState :=
  match findByName tbl_name (cs_tables st) (getTableName (cs_tableNames st) (ri_object reg)) with
  | None => st
  | Some table =>
      let options := ri_options reg in
      let index :=
        {| idx_name := match iopt_name options with
                       | Some (String c r) => String c r
                       | _ => EmptyString
                       end;
           idx_tableName := tbl_name table;
           idx_unique := Some (match iopt_unique options with Some b => b | None => false end);
           idx_expression := iopt_expression options;
           idx_using := iopt_using options;
           idx_where := iopt_where options;
           idx_columnNames := iopt_columns options |} in
      {| cs_tables := updateFirst (tbl_name table) (pushIndex index) (cs_tables st);
         cs_tableNames := cs_tableNames st;
         cs_columnNames := cs_columnNames st |}
  end.

Definition compileColumnIndex (st : CompileState) (reg : RegisterColumnIndex)
  : CompileState :=
  match findByName tbl_name (cs_tables st) (getTableName (cs_tableNames st) (rci_object reg)) with
  | None => st
  | Some table =>
      match findByName col_name (tbl_columns table)
              (getColumnName (cs_columnNames st) (rci_object reg) (rci_propertyName reg)) with
      | None => st
      | Some column =>
          let options := rci_options reg in
          let index :=
            {| idx_name := match ciopt_name options with
                           | Some (String c r) => String c r
                           | _ => EmptyString
                           end;
               idx_tableName := tbl_name table;
               idx_unique :=
                 Some (match ciopt_unique options with Some b => b | None => false end);
               idx_expression := ciopt_expression options;
               idx_using := ciopt_using options;
               idx_where := ciopt_where options;
               idx_columnNames := Some [col_name column] |} in
          {| cs_tables := updateFirst (tbl_name table) (pushIndex index) (cs_tables st);
             cs_tableNames := cs_tableNames st;
             cs_columnNames := cs_columnNames st |}
      end
  end.

Definition compileRelation (st : CompileState) (reg : RegisterRelation) : CompileState :=
  match findByName tbl_name (cs_tables st) (getTableName (cs_tableNames st) (rr_object reg)) with
  | None => st
  | Some childTable =>
      match findByName tbl_name (cs_tables st)
              (getTableName (cs_tableNames st) (rr_target reg)) with
      | None => st
      | Some parentTable =>
          match rr_type reg with
          | MANY_TO_ONE =>
              let columnName := rr_propertyName reg ++ "Id" in
              let found :=
                find (fun column => col_name column =? columnName) (tbl_columns childTable) in
              let column :=
                match found with
                | Some column => column
                | None =>
                    {| col_name := columnName;
                       col_tableName := tbl_name childTable;
                       col_type := "uuid";
                       col_nullable := match ropt_nullable (rr_options reg) with
                                       | Some b => b
                                       | None => false
                                       end;
                       col_isArray := false;
                       col_primary := None;
                       col_default := None;
                       col_values := None;
                       col_numericPrecision := None;
                       col_numericScale := None |}
                end in
              let tables :=
                match found with
                | Some _ => cs_tables st
                | None => updateFirst (tbl_name childTable) (pushColumn column) (cs_tables st)
                end in
              let columnNames := [col_name column] in
              (* [parentTable.columns] is read after the push above *)
              let parentColumns :=
                match find (fun t => tbl_name t =? tbl_name parentTable) tables with
                | Some t => tbl_columns t
                | None => tbl_columns parentTable
                end in
              let referenceColumnNames := primaryColumnNames parentColumns in
              let constraint :=
                ForeignKeyConstraint
                  (asForeignKeyConstraintName sha1 (tbl_name childTable) columnNames)
                  (tbl_name childTable) columnNames
                  (tbl_name parentTable) referenceColumnNames
                  (ropt_onUpdate (rr_options reg)) (ropt_onDelete (rr_options reg)) in
              {| cs_tables := updateFirst (tbl_name childTable) (pushConstraint constraint) tables;
                 cs_tableNames := cs_tableNames st;
                 cs_columnNames := cs_columnNames st |}
          | ONE_TO_ONE => st
          end
      end
  end.

(** The module state of [schema.decorator.ts]: the [initialized] flag, the
    cached schema, the five registries and the metadata. *)
Record SchemaModule : Type := mkSchemaModule {
  mod_initialized : bool;
  mod_dynamicSchema : DatabaseSchema;
  mod_tables : list RegisterTable;
  mod_columns : list RegisterColumn;
  mod_indexes : list RegisterIndex;
  mod_columnIndexes : list RegisterColumnIndex;
  mod_relationOptions : list RegisterRelation;
  mod_tableNames : list (nat * string);
  mod_columnNames : list (nat * string * string)
}.

(** The state in which the module is loaded. *)
Definition initialModule : SchemaModule :=
  mkSchemaModule false (mkSchema "public" []) [] [] [] [] [] [] [].

(** The passes, in order. *)
Definition compile (m : SchemaModule) : CompileState :=
  let st := mkCompileState (sch_tables (mod_dynamicSchema m)) (mod_tableNames m)
              (mod_columnNames m) in
  let st := fold_left compileTable (mod_tables m) st in
  let st := fold_left compileColumn (mod_columns m) st in
  let st := mkCompileState (map addPrimaryKey (cs_tables st)) (cs_tableNames st)
              (cs_columnNames st) in
  let st := fold_left compileIndex (mod_indexes m) st in
  let st := fold_left compileColumnIndex (mod_columnIndexes m) st in
  fold_left compileRelation (mod_relationOptions m) st.

Definition getDynamicSchema (m : SchemaModule) : SchemaModule * DatabaseSchema :=
  if mod_initialized m then (m, mod_dynamicSchema m)
  else
    let st := compile m in
    let schema := mkSchema (sch_name (mod_dynamicSchema m)) (cs_tables st) in
    (mkSchemaModule true schema (mod_tables m) (mod_columns m) (mod_indexes m)
       (mod_columnIndexes m) (mod_relationOptions m) (cs_tableNames st) (cs_columnNames st),
     schema).

End Compiler.

(** The decorators push onto the registries. *)
Inductive Registration : Type :=
| RegTable (r : RegisterTable)
| RegColumn (r : RegisterColumn)
| RegIndex (r : RegisterIndex)
| RegColumnIndex (r : RegisterColumnIndex)
| RegRelation (r : RegisterRelation).

Definition register (m : SchemaModule) (r : Registration) : SchemaModule :=
  match r with
  | RegTable x =>
      mkSchemaModule (mod_initialized m) (mod_dynamicSchema m) (mod_tables m ++ [x])
        (mod_columns m) (mod_indexes m) (mod_columnIndexes m) (mod_relationOptions m)
        (mod_tableNames m) (mod_columnNames m)
  | RegColumn x =>
      mkSchemaModule (mod_initialized m) (mod_dynamicSchema m) (mod_tables m)
        (mod_columns m ++ [x]) (mod_indexes m) (mod_columnIndexes m) (mod_relationOptions m)
        (mod_tableNames m) (mod_columnNames m)
  | RegIndex x =>
      mkSchemaModule (mod_initialized m) (mod_dynamicSchema m) (mod_tables m)
        (mod_columns m) (mod_indexes m ++ [x]) (mod_columnIndexes m) (mod_relationOptions m)
        (mod_tableNames m) (mod_columnNames m)
  | RegColumnIndex x =>
      mkSchemaModule (mod_initialized m) (mod_dynamicSchema m) (mod_tables m)
        (mod_columns m) (mod_indexes m) (mod_columnIndexes m ++ [x]) (mod_relationOptions m)
        (mod_tableNames m) (mod_columnNames m)
  | RegRelation x =>
      mkSchemaModule (mod_initialized m) (mod_dynamicSchema m) (mod_tables m)
        (mod_columns m) (mod_indexes m) (mod_columnIndexes m) (mod_relationOptions m ++ [x])
        (mod_tableNames m) (mod_columnNames m)
  end.

(** The table name that the tables pass gives to a registration. *)
Definition registeredTableName (reg : RegisterTable) : string :=
  match topt_name (rt_options reg) with
  | Some (String c r) => String c r
  | _ => asSnakeCase (cls_name (rt_target reg))
  end.

(** Everything in the table carries the table's name. *)
Definition tableConsistent (table : DatabaseTable) : Prop :=
  Forall (fun column => col_tableName column = tbl_name table) (tbl_columns table)
  /\ Forall (fun index => idx_tableName index = tbl_name table) (tbl_indexes table)
  /\ Forall (fun constraint => con_tableName constraint = tbl_name table)
       (tbl_constraints table).

(** The primary-key constraint of the table is the one built from its
    primary columns, and there is none when no column is primary. *)
Definition primaryKeyMatches (sha1 : string -> string) (table : DatabaseTable) : Prop :=
  filter (fun c => constraintType_eqb (con_type c) PRIMARY_KEY) (tbl_constraints table)
  = match primaryColumnNames (tbl_columns table) with
    | [] => []
    | names =>
        [PrimaryKeyConstraint (asPrimaryKeyConstraintName sha1 (tbl_name table) names)
           (tbl_name table) names]
    end.

Fixpoint noUpperLetters (s : string) : bool :=
  match s with
  | EmptyString => true
  | String c r => negb (isUpperLetter c) && noUpperLetters r
  end.

(** The module after the decorators [registrations] have run, in order,
    since it was loaded. *)
Definition decorated (registrations : list Registration) : SchemaModule :=
  fold_left register registrations initialModule.

(** Sample classes and registrations. *)
Definition UserEntity : JsClass := mkClass 1 "UserEntity" [].
Definition APIKeyEntity : JsClass := mkClass 2 "APIKeyEntity" [].

Definition plainOptions : ColumnOptions :=
  mkColumnOptions None None None None None None None None.

Definition sampleRegistrations : list Registration :=
  [RegTable (mkRegisterTable UserEntity (mkTableOptions (Some "users")));
   RegTable (mkRegisterTable APIKeyEntity (mkTableOptions None));
   RegColumn (mkRegisterColumn UserEntity "id"
                (mkColumnOptions None (Some "uuid") (Some true) None None None
                   (Some (DefaultOther "uuid_generate_v4()")) None));
   RegColumn (mkRegisterColumn UserEntity "email"
                (mkColumnOptions None None None None (Some true) None None None));
   RegColumn (mkRegisterColumn APIKeyEntity "name" plainOptions);
   RegRelation (mkRegisterRelation APIKeyEntity "user"
                  (mkRelationOptions (Some CASCADE) (Some CASCADE) None)
                  MANY_TO_ONE UserEntity)].

(** The [@Table] registrations among [registrations], in order. *)
Definition tableRegistrations (registrations : list Registration) : list RegisterTable :=
  flat_map (fun r => match r with RegTable x => [x] | _ => [] end) registrations.

Definition hasNoPrimaryKey (table : DatabaseTable) : Prop :=
  filter (fun c => constraintType_eqb (con_type c) PRIMARY_KEY) (tbl_constraints table) = [].

(* ================================================================== *)
(** ** Facts about the JavaScript layer *)
(* ================================================================== *)

Section ListFacts.
Context {A B : Type}.

Lemma flat_map_all_nil (f : A -> list B) (l : list A) :
  (forall x, f x = []) -> flat_map f l = [].
Proof.
  intros Hf. induction l as [|x l IH]; simpl; [reflexivity|].
  now rewrite Hf, IH.
Qed.

End ListFacts.

Lemma set_has_In (s : list string) (x : string) : set_has s x = true <-> In x s.
Proof.
  unfold set_has. rewrite existsb_exists. split.
  - intros (y & Hy & Heq). apply String.eqb_eq in Heq. now subst.
  - intros Hin. exists x. split; [assumption | apply String.eqb_refl].
Qed.

Lemma set_add_In (s : list string) (x y : string) :
  In y (set_add s x) <-> In y s \/ y = x.
Proof.
  unfold set_add. destruct (set_has s x) eqn:E.
  - apply set_has_In in E. split; [tauto | intros [H | ->]; assumption].
  - rewrite in_app_iff. simpl. intuition.
Qed.

Lemma fold_set_add_In (l acc : list string) (x : string) :
  In x (fold_left set_add l acc) <-> In x acc \/ In x l.
Proof.
  revert acc. induction l as [|y l IH]; intros acc; simpl.
  - tauto.
  - rewrite IH, set_add_In. split; intros H; [ | ]; intuition (subst; auto).
Qed.

Lemma newSet_In (l : list string) (x : string) : In x (newSet l) <-> In x l.
Proof.
  unfold newSet. rewrite fold_set_add_In. simpl. tauto.
Qed.

(** Every own property that can be read is listed by [Object.keys]. *)
Lemma insert_index_In (x y : N * string) (l : list (N * string)) :
  In y (insert_index x l) <-> y = x \/ In y l.
Proof.
  induction l as [|z l IH]; simpl.
  - intuition.
  - destruct (fst z <=? fst x)%N; simpl; rewrite ?IH; intuition.
Qed.

Lemma index_keys_In_acc (ks : list string) (acc : list (N * string)) (n : N) (k : string) :
  In (n, k) acc \/ (In k ks /\ array_index k = Some n) ->
  In (n, k)
     (fold_left (fun acc k => match array_index k with
                              | Some n => insert_index (n, k) acc
                              | None => acc
                              end) ks acc).
Proof.
  revert acc. induction ks as [|k' ks IH]; intros acc H; simpl.
  - destruct H as [H | [[] _]]. exact H.
  - apply IH. destruct H as [H | [[-> | Hin] Hk]].
    + left. destruct (array_index k'); [apply insert_index_In; now right | exact H].
    + left. rewrite Hk. apply insert_index_In. now left.
    + right. now split.
Qed.

Lemma keys_In {V : Type} (o : JsObject V) (k : string) :
  In k (map fst o) -> In k (keys o).
Proof.
  intros Hin. unfold keys. apply in_or_app.
  destruct (array_index k) as [n|] eqn:E.
  - left. apply in_map_iff. exists (n, k). split; [reflexivity|].
    apply index_keys_In_acc. right. now split.
  - right. apply filter_In. split; [assumption|].
    unfold is_array_index. now rewrite E.
Qed.

Lemma obj_get_In {V : Type} (o : JsObject V) (k : string) (v : V) :
  obj_get o k = Some v -> In k (map fst o).
Proof.
  induction o as [|[k' v'] o IH]; simpl; [discriminate|].
  destruct (k' =? k) eqn:E.
  - intros _. left. now apply String.eqb_eq.
  - intros H. right. now apply IH.
Qed.

Lemma obj_get_keys {V : Type} (o : JsObject V) (k : string) (v : V) :
  obj_get o k = Some v -> In k (keys o).
Proof.
  intros H. eapply keys_In, obj_get_In, H.
Qed.

Lemma obj_get_set_same {V : Type} (o : JsObject V) (k : string) (v : V) :
  obj_get (obj_set k v o) k = Some v.
Proof.
  induction o as [|[k' v'] o IH]; simpl.
  - now rewrite String.eqb_refl.
  - destruct (k' =? k) eqn:E; simpl.
    + now rewrite String.eqb_refl.
    + now rewrite E.
Qed.

Lemma obj_get_set_other {V : Type} (o : JsObject V) (k k' : string) (v : V) :
  (k =? k') = false -> obj_get (obj_set k v o) k' = obj_get o k'.
Proof.
  intros Hne. induction o as [|[k0 v0] o IH]; simpl.
  - now rewrite Hne.
  - destruct (k0 =? k) eqn:E; simpl.
    + apply String.eqb_eq in E. subst k0. now rewrite Hne.
    + destruct (k0 =? k'); [reflexivity | exact IH].
Qed.

Lemma obj_get_fold_set {V : Type} (entries : list (string * V)) (o : JsObject V)
      (k : string) :
  obj_get (fold_left (fun o e => obj_set (fst e) (snd e) o) entries o) k
  = match lastEntry entries k with
    | Some v => Some v
    | None => obj_get o k
    end.
Proof.
  revert o. induction entries as [|[k' v] r IH]; intros o; simpl; [reflexivity|].
  rewrite IH. destruct (lastEntry r k); [reflexivity|].
  destruct (k' =? k) eqn:E.
  - apply String.eqb_eq in E. subst. apply obj_get_set_same.
  - now apply obj_get_set_other.
Qed.

Lemma obj_get_fromEntries {V : Type} (entries : list (string * V)) (k : string) :
  obj_get (fromEntries entries) k = lastEntry entries k.
Proof.
  unfold fromEntries. rewrite obj_get_fold_set. now destruct (lastEntry entries k).
Qed.

Lemma lastEntry_absent {V : Type} (entries : list (string * V)) (k : string) :
  ~ In k (map fst entries) -> lastEntry entries k = None.
Proof.
  induction entries as [|[k' v] r IH]; simpl; [reflexivity|].
  intros H. rewrite IH by tauto.
  destruct (k' =? k) eqn:E; [|reflexivity].
  apply String.eqb_eq in E. tauto.
Qed.

(** When the keys are pairwise distinct, every entry can be read back. *)
Lemma obj_get_fromEntries_unique {V : Type} (entries : list (string * V))
      (k : string) (v : V) :
  NoDup (map fst entries) -> In (k, v) entries ->
  obj_get (fromEntries entries) k = Some v.
Proof.
  rewrite obj_get_fromEntries.
  induction entries as [|[k' v'] r IH]; simpl; [tauto|].
  intros Hnd [Heq | Hin].
  - inversion Heq; subst. inversion Hnd; subst.
    rewrite lastEntry_absent by assumption. now rewrite String.eqb_refl.
  - inversion Hnd; subst. now rewrite IH.
Qed.

(** The keys visited by a diff loop contain every key readable on the
    source side. *)
Lemma union_keys_source {V : Type} (sm tm : JsObject V) (k : string) (v : V) :
  obj_get sm k = Some v -> In k (newSet (keys sm ++ keys tm)).
Proof.
  intros H. apply newSet_In, in_or_app. left. eapply obj_get_keys, H.
Qed.

(** *** Strings *)

Lemma length_append (a b : string) :
  String.length (a ++ b) = String.length a + String.length b.
Proof.
  induction a as [|c a IH]; simpl; [reflexivity | now rewrite IH].
Qed.

Lemma append_assoc (a b c : string) : (a ++ b) ++ c = a ++ (b ++ c).
Proof.
  induction a as [|x a IH]; simpl; [reflexivity | now rewrite IH].
Qed.

Lemma append_empty_r (s : string) : s ++ "" = s.
Proof. induction s as [|c s IH]; simpl; [reflexivity | now rewrite IH]. Qed.



Lemma substring_0_length (n : nat) (s : string) :
  n <= String.length s -> String.length (substring 0 n s) = n.
Proof.
  revert s. induction n as [|n IH]; intros s H.
  - destruct s; reflexivity.
  - destruct s as [|c s]; simpl in *; [lia|].
    rewrite IH; [reflexivity | lia].
Qed.

(** *** The default sort order *)

Lemma ascii_compare_refl (a : ascii) : Ascii.compare a a = Eq.
Proof. unfold Ascii.compare. apply N.compare_refl. Qed.

Lemma ascii_compare_lt_trans (a b c : ascii) :
  Ascii.compare a b = Lt -> Ascii.compare b c = Lt -> Ascii.compare a c = Lt.
Proof.
  unfold Ascii.compare. rewrite !N.compare_lt_iff. apply N.lt_trans.
Qed.

Lemma str_le_trans (a b c : string) : str_le a b -> str_le b c -> str_le a c.
Proof.
  unfold str_le, String.leb. revert b c.
  induction a as [|x a IH]; intros b c Hab Hbc.
  - destruct c; reflexivity.
  - destruct b as [|y b]; [discriminate|].
    destruct c as [|z c]; [discriminate|].
    simpl in *.
    destruct (Ascii.compare x y) eqn:Exy; try discriminate;
      destruct (Ascii.compare y z) eqn:Eyz; try discriminate.
    + apply Ascii.compare_eq_iff in Exy, Eyz. subst.
      rewrite ascii_compare_refl. now apply (IH b c).
    + apply Ascii.compare_eq_iff in Exy. subst. now rewrite Eyz.
    + apply Ascii.compare_eq_iff in Eyz. subst. now rewrite Exy.
    + now rewrite (ascii_compare_lt_trans _ _ _ Exy Eyz).
Qed.

Lemma insert_sorted_perm (x : string) (l : list string) :
  Permutation (x :: l) (insert_sorted x l).
Proof.
  induction l as [|y l IH]; simpl; [reflexivity|].
  destruct (y <=? x); [|reflexivity].
  rewrite perm_swap. now apply perm_skip.
Qed.

Lemma insert_sorted_sorted (x : string) (l : list string) :
  StronglySorted str_le l -> StronglySorted str_le (insert_sorted x l).
Proof.
  induction l as [|y l IH]; intros Hs; simpl.
  - constructor; constructor.
  - inversion Hs as [|? ? Hl Hy]; subst.
    destruct (y <=? x) eqn:E.
    + constructor; [now apply IH|].
      apply (Permutation_Forall (insert_sorted_perm x l)).
      constructor; assumption.
    + assert (Hxy : str_le x y).
      { destruct (String.leb_total x y) as [H | H]; [exact H | congruence]. }
      constructor; [assumption|].
      constructor; [assumption|].
      eapply Forall_impl; [|exact Hy].
      intros z Hz. eapply str_le_trans; eassumption.
Qed.

Lemma fold_insert_perm (l acc : list string) :
  Permutation (acc ++ l)%list (fold_left (fun acc x => insert_sorted x acc) l acc).
Proof.
  revert acc. induction l as [|x l IH]; intros acc; simpl.
  - now rewrite app_nil_r.
  - rewrite <- IH. rewrite <- insert_sorted_perm.
    symmetry. apply Permutation_middle.
Qed.

Lemma fold_insert_sorted (l acc : list string) :
  StronglySorted str_le acc ->
  StronglySorted str_le (fold_left (fun acc x => insert_sorted x acc) l acc).
Proof.
  revert acc. induction l as [|x l IH]; intros acc H; simpl; [assumption|].
  apply IH. now apply insert_sorted_sorted.
Qed.

Lemma toSorted_perm (l : list string) : Permutation l (toSorted l).
Proof. apply (fold_insert_perm l []). Qed.

Lemma toSorted_sorted (l : list string) : StronglySorted str_le (toSorted l).
Proof. apply fold_insert_sorted. constructor. Qed.

Lemma sorted_perm_unique (l1 l2 : list string) :
  StronglySorted str_le l1 -> StronglySorted str_le l2 ->
  Permutation l1 l2 -> l1 = l2.
Proof.
  revert l2. induction l1 as [|a l1 IH]; intros l2 H1 H2 Hp.
  - now apply Permutation_nil in Hp.
  - destruct l2 as [|b l2].
    { symmetry in Hp. now apply Permutation_nil in Hp. }
    inversion H1 as [|? ? Hs1 Ha]; subst.
    inversion H2 as [|? ? Hs2 Hb]; subst.
    assert (Eab : a = b).
    { assert (Hin1 : In a (b :: l2)) by (eapply Permutation_in; [exact Hp | now left]).
      assert (Hin2 : In b (a :: l1)).
      { eapply Permutation_in; [symmetry; exact Hp | now left]. }
      destruct Hin1 as [-> | Hin1]; [reflexivity|].
      destruct Hin2 as [-> | Hin2]; [reflexivity|].
      rewrite Forall_forall in Ha, Hb.
      apply String.leb_antisym; [apply Ha | apply Hb]; assumption. }
    subst b. f_equal. apply IH; try assumption.
    eapply Permutation_cons_inv; eassumption.
Qed.

(** Sorting forgets the order of its input. *)
Lemma toSorted_permutation (l1 l2 : list string) :
  Permutation l1 l2 -> toSorted l1 = toSorted l2.
Proof.
  intros Hp. apply sorted_perm_unique; try apply toSorted_sorted.
  rewrite <- (toSorted_perm l1), <- (toSorted_perm l2). exact Hp.
Qed.

(* ================================================================== *)
(** ** Further facts about objects and sets *)
(* ================================================================== *)

Lemma flat_map_ext_on {A B : Type} (l : list A) (f g : A -> list B) :
  (forall x, In x l -> f x = g x) -> flat_map f l = flat_map g l.
Proof.
  induction l as [|x l IH]; intros H; simpl; [reflexivity|].
  rewrite (H x) by now left. f_equal. apply IH. intros y Hy. apply H. now right.
Qed.

Lemma lastEntry_In {V : Type} (entries : list (string * V)) (k : string) (v : V) :
  lastEntry entries k = Some v -> In (k, v) entries.
Proof.
  induction entries as [|[k' v'] r IH]; simpl; [discriminate|].
  destruct (lastEntry r k) as [w|].
  - intros H. right. apply IH. exact H.
  - destruct (k' =? k) eqn:E; [|discriminate].
    intros H. inversion H; subst. apply String.eqb_eq in E. subst. now left.
Qed.

Lemma obj_get_keyed_In {A : Type} (f : A -> string) (l : list A) (k : string) (v : A) :
  obj_get (fromEntries (map (fun x => (f x, x)) l)) k = Some v ->
  In v l /\ f v = k.
Proof.
  rewrite obj_get_fromEntries. intros H. apply lastEntry_In in H.
  apply in_map_iff in H as (x & E & Hin). inversion E; subst. now split.
Qed.

Lemma own_key_readable {V : Type} (o : JsObject V) (k : string) :
  In k (map fst o) -> exists v, obj_get o k = Some v.
Proof.
  induction o as [|[k' v'] o IH]; simpl; [tauto|].
  intros [-> | Hin].
  - exists v'. now rewrite String.eqb_refl.
  - destruct (k' =? k); [now exists v' | now apply IH].
Qed.

Lemma insert_index_perm (x : N * string) (l : list (N * string)) :
  Permutation (insert_index x l) (x :: l).
Proof.
  induction l as [|y l IH]; simpl; [reflexivity|].
  destruct (fst y <=? fst x)%N; [|reflexivity].
  rewrite IH. apply perm_swap.
Qed.

Lemma index_keys_perm_acc (ks : list string) (acc : list (N * string)) :
  Permutation
    (map snd (fold_left (fun acc k => match array_index k with
                                      | Some n => insert_index (n, k) acc
                                      | None => acc
                                      end) ks acc))
    (map snd acc ++ filter is_array_index ks).
Proof.
  revert acc. induction ks as [|k ks IH]; intros acc; simpl.
  - now rewrite app_nil_r.
  - rewrite IH. unfold is_array_index at 2. destruct (array_index k) as [n|].
    + rewrite (Permutation_map snd (insert_index_perm (n, k) acc)). simpl.
      apply Permutation_middle.
    + reflexivity.
Qed.

Lemma filter_partition_perm {A : Type} (p : A -> bool) (l : list A) :
  Permutation (filter p l ++ filter (fun x => negb (p x)) l) l.
Proof.
  induction l as [|x l IH]; simpl; [reflexivity|].
  destruct (p x); simpl.
  - now apply perm_skip.
  - rewrite <- Permutation_middle. now apply perm_skip.
Qed.

(** [Object.keys] lists every own property exactly once. *)
Lemma keys_perm {V : Type} (o : JsObject V) : Permutation (keys o) (map fst o).
Proof.
  unfold keys, index_keys.
  rewrite (index_keys_perm_acc (map fst o) []). simpl.
  apply filter_partition_perm.
Qed.

Lemma keys_own {V : Type} (o : JsObject V) (k : string) :
  In k (keys o) -> exists v, obj_get o k = Some v.
Proof.
  intros H. apply own_key_readable. eapply Permutation_in; [apply keys_perm | exact H].
Qed.

Lemma fold_set_add_extends (b acc : list string) :
  exists extra,
    fold_left set_add b acc = (acc ++ extra)%list
    /\ forall x, In x extra -> In x b /\ ~ In x acc.
Proof.
  revert acc. induction b as [|y b IH]; intros acc; simpl.
  - exists []. rewrite app_nil_r. split; [reflexivity | intros x []].
  - destruct (IH (set_add acc y)) as (extra & E & Hx).
    unfold set_add in *. destruct (set_has acc y) eqn:Ey.
    + exists extra. split; [exact E|]. intros x Hin.
      destruct (Hx x Hin). split; [now right | assumption].
    + exists (y :: extra). rewrite E, <- app_assoc. split; [reflexivity|].
      intros x [<- | Hin].
      * split; [now left|]. intros Hin. apply set_has_In in Hin. congruence.
      * destruct (Hx x Hin) as [Hb Hn]. split; [now right|].
        intros Ha. apply Hn, in_or_app. now left.
Qed.

Lemma newSet_app_extends (a b : list string) :
  exists extra,
    newSet (a ++ b) = (newSet a ++ extra)%list
    /\ forall x, In x extra -> In x b /\ ~ In x a.
Proof.
  unfold newSet. rewrite fold_left_app.
  destruct (fold_set_add_extends b (fold_left set_add a [])) as (extra & E & Hx).
  exists extra. split; [exact E|].
  intros x Hin. destruct (Hx x Hin) as [Hb Hn]. split; [assumption|].
  intros Ha. apply Hn. now apply (newSet_In a x).
Qed.

(* ================================================================== *)
(** ** Comparisons used by the diff engine *)
(* ================================================================== *)

Lemma neq_ostr_refl (a : option string) : neq_ostr a a = false.
Proof. destruct a; simpl; [now rewrite String.eqb_refl | reflexivity]. Qed.

Lemma neq_obool_refl (a : option bool) : neq_obool a a = false.
Proof. destruct a as [[|]|]; reflexivity. Qed.

Lemma neq_oaction_refl (a : option DatabaseActionType) : neq_oaction a a = false.
Proof. destruct a as [[]|]; reflexivity. Qed.

Lemma setIsEqual_same_members (a b : list string) :
  (forall x, In x a <-> In x b) -> setIsEqual a b = true.
Proof.
  intros H. unfold setIsEqual. apply andb_true_intro.
  split; apply forallb_forall; intros x Hx; apply set_has_In; now apply H.
Qed.

Lemma haveEqualColumns_same_members (a b : option (list string)) :
  (forall x, In x (orEmpty a) <-> In x (orEmpty b)) -> haveEqualColumns a b = true.
Proof.
  intros H. apply setIsEqual_same_members. intros x. now rewrite !newSet_In.
Qed.

Lemma haveEqualColumns_refl (a : option (list string)) : haveEqualColumns a a = true.
Proof. apply haveEqualColumns_same_members. tauto. Qed.

Lemma haveEqualColumns_permutation (a b : list string) :
  Permutation a b -> haveEqualColumns (Some a) (Some b) = true.
Proof.
  intros Hp. apply haveEqualColumns_same_members. intros x; simpl. split.
  - now apply Permutation_in.
  - apply Permutation_in. now symmetry.
Qed.

Create Rewrite HintDb self_diff.
#[local] Hint Rewrite String.eqb_refl Bool.eqb_reflx neq_ostr_refl neq_obool_refl
  neq_oaction_refl haveEqualColumns_refl : self_diff.

Lemma diffColumn_self (c : DatabaseColumn) : diffColumn (Some c) (Some c) = [].
Proof. unfold diffColumn. now autorewrite with self_diff. Qed.

Lemma diffConstraint_self (c : DatabaseConstraint) : diffConstraint (Some c) (Some c) = [].
Proof.
  destruct c; simpl;
    unfold diffPrimaryKeyConstraint, diffForeignKeyConstraint, diffUniqueConstraint,
      diffCheckConstraint;
    now autorewrite with self_diff.
Qed.

Lemma diffIndex_self (i : DatabaseIndex) : diffIndex (Some i) (Some i) = [].
Proof. unfold diffIndex. now autorewrite with self_diff. Qed.

(* ================================================================== *)
(** ** How calls complete *)
(* ================================================================== *)

Lemma Returns_inj {A : Type} (a b : A) : Returns a = Returns b -> a = b.
Proof. intros H. now inversion H. Qed.

Ltac returned H := first [discriminate H | apply Returns_inj in H; subst].

Lemma andThen_returns {A : Type} (first second : Outcome (list A)) (l : list A) :
  andThen first second = Returns l <->
  exists a b, first = Returns a /\ second = Returns b /\ l = (a ++ b)%list.
Proof.
  split.
  - destruct first as [a|], second as [b|]; simpl; try discriminate.
    intros H. apply Returns_inj in H. now exists a, b.
  - intros (a & b & -> & -> & ->). reflexivity.
Qed.

Lemma andThen_nil_r {A : Type} (first : Outcome (list A)) :
  andThen first (Returns []) = first.
Proof. destruct first; simpl; [now rewrite app_nil_r | reflexivity]. Qed.

Lemma andThen_throws_r {A : Type} (first : Outcome (list A)) : andThen first Throws = Throws.
Proof. now destruct first. Qed.

Lemma andThen_assoc {A : Type} (a b c : Outcome (list A)) :
  andThen (andThen a b) c = andThen a (andThen b c).
Proof.
  destruct a, b, c; simpl; try reflexivity. now rewrite app_assoc.
Qed.

Lemma forEach_cons {K A : Type} (body : K -> Outcome (list A)) (key : K) (keys : list K) :
  forEach body (key :: keys) = andThen (body key) (forEach body keys).
Proof. reflexivity. Qed.

Lemma forEach_app {K A : Type} (body : K -> Outcome (list A)) (a b : list K) :
  forEach body (a ++ b) = andThen (forEach body a) (forEach body b).
Proof.
  induction a as [|k a IH].
  - simpl. now destruct (forEach body b).
  - rewrite <- app_comm_cons, !forEach_cons, IH. now rewrite andThen_assoc.
Qed.

Lemma forEach_ext_on {K A : Type} (f g : K -> Outcome (list A)) (keys : list K) :
  (forall key, In key keys -> f key = g key) -> forEach f keys = forEach g keys.
Proof.
  induction keys as [|k keys IH]; intros H; [reflexivity|].
  rewrite !forEach_cons, (H k) by now left.
  rewrite IH; [reflexivity|]. intros key Hk. apply H. now right.
Qed.

(** A loop all of whose passes return returns the concatenation. *)
Lemma forEach_returns {K A : Type} (body : K -> Outcome (list A)) (g : K -> list A)
      (keys : list K) :
  (forall key, In key keys -> body key = Returns (g key)) ->
  forEach body keys = Returns (flat_map g keys).
Proof.
  induction keys as [|k keys IH]; intros H; [reflexivity|].
  rewrite forEach_cons, (H k) by now left.
  rewrite IH by (intros key Hk; apply H; now right).
  reflexivity.
Qed.

Lemma forEach_nothing {K A : Type} (body : K -> Outcome (list A)) (keys : list K) :
  (forall key, In key keys -> body key = Returns []) ->
  forEach body keys = Returns [].
Proof.
  intros H. rewrite (forEach_returns body (fun _ => [])) by assumption.
  f_equal. now apply flat_map_all_nil.
Qed.

Lemma forEach_skips_or_throws {K A : Type} (body : K -> Outcome (list A)) (keys : list K) :
  (forall key, In key keys -> body key = Returns [] \/ body key = Throws) ->
  forEach body keys = Returns [] \/ forEach body keys = Throws.
Proof.
  induction keys as [|k keys IH]; intros H; [now left|].
  rewrite forEach_cons.
  destruct (H k (or_introl eq_refl)) as [-> | ->]; [|now right].
  destruct (IH (fun key Hk => H key (or_intror Hk))) as [-> | ->]; [now left | now right].
Qed.

(** A loop that returns has returned from every pass, and what a pass has
    pushed stands in the result. *)
Lemma forEach_returned_In {K A : Type} (body : K -> Outcome (list A)) (keys : list K)
      (l : list A) (key : K) :
  forEach body keys = Returns l -> In key keys ->
  exists pre part post, body key = Returns part /\ l = (pre ++ part ++ post)%list.
Proof.
  revert l. induction keys as [|k keys IH]; intros l H Hin; [destruct Hin|].
  rewrite forEach_cons in H. apply andThen_returns in H as (a & b & Ha & Hb & ->).
  destruct Hin as [-> | Hin].
  - exists [], a, b. now split.
  - destruct (IH b Hb Hin) as (pre & part & post & Hp & ->).
    exists (a ++ pre)%list, part, post. split; [assumption|]. now rewrite <- app_assoc.
Qed.

Lemma forEach_returned_Forall {K A : Type} (P : A -> Prop)
      (body : K -> Outcome (list A)) (keys : list K) (l : list A) :
  (forall key part, In key keys -> body key = Returns part -> Forall P part) ->
  forEach body keys = Returns l -> Forall P l.
Proof.
  revert l. induction keys as [|k keys IH]; intros l HP H.
  - inversion H. constructor.
  - rewrite forEach_cons in H. apply andThen_returns in H as (a & b & Ha & Hb & ->).
    apply Forall_app. split.
    + eapply HP; [now left | exact Ha].
    + apply IH; [|exact Hb]. intros key part Hk. apply HP. now right.
Qed.

(** *** Reads *)

Lemma obj_read_own {V : Type} (o : JsObject V) (k : string) (v : V) :
  obj_get o k = Some v -> obj_read o k = Own v.
Proof. unfold obj_read. now intros ->. Qed.

Lemma obj_read_ordinary {V : Type} (o : JsObject V) (k : string) :
  isPrototypeMember k = false ->
  obj_read o k = match obj_get o k with Some v => Own v | None => Absent end.
Proof. unfold obj_read. intros ->. reflexivity. Qed.

Lemma ordinaryNames_In (names : list string) (name : string) :
  ordinaryNames names = true -> In name names -> isPrototypeMember name = false.
Proof.
  unfold ordinaryNames. rewrite forallb_forall. intros H Hin.
  apply H in Hin. now apply negb_true_iff.
Qed.

Lemma ordinaryNames_filter {A : Type} (f : A -> string) (p : A -> bool) (l : list A) :
  ordinaryNames (map f l) = true -> ordinaryNames (map f (filter p l)) = true.
Proof.
  unfold ordinaryNames. rewrite !forallb_forall. intros H name Hin.
  apply H. apply in_map_iff in Hin as (x & <- & Hx).
  apply filter_In in Hx as [Hx _]. now apply in_map.
Qed.

(** A key of the union of two maps built from lists with ordinary names is
    an ordinary name. *)
Lemma union_key_ordinary {A : Type} (f : A -> string) (sources targets : list A)
      (key : string) :
  ordinaryNames (map f sources) = true ->
  ordinaryNames (map f targets) = true ->
  In key (newSet (keys (fromEntries (map (fun x => (f x, x)) sources))
                  ++ keys (fromEntries (map (fun x => (f x, x)) targets)))) ->
  isPrototypeMember key = false.
Proof.
  intros Hs Ht Hin. apply newSet_In, in_app_or in Hin.
  destruct Hin as [Hin | Hin]; apply keys_own in Hin as (v & Hv);
    apply obj_get_keyed_In in Hv as [Hv <-].
  - eapply ordinaryNames_In; [exact Hs | now apply in_map].
  - eapply ordinaryNames_In; [exact Ht | now apply in_map].
Qed.

Lemma union_key_shared {V : Type} (o : JsObject V) (key : string) :
  In key (newSet (keys o ++ keys o)) -> exists v, obj_read o key = Own v.
Proof.
  intros Hin. apply newSet_In, in_app_or in Hin.
  assert (H : In key (keys o)) by tauto.
  apply keys_own in H as (v & Hv). exists v. now apply obj_read_own.
Qed.

Section ListFacts2.
Context {A B : Type}.

Lemma flat_map_infix (f : A -> list B) (l : list A) (k : A) :
  In k l -> exists pre post, flat_map f l = (pre ++ f k ++ post)%list.
Proof.
  intros Hin. apply in_split in Hin as (l1 & l2 & ->).
  exists (flat_map f l1), (flat_map f l2).
  now rewrite flat_map_app.
Qed.


Lemma flat_map_all_nil_on (l : list A) (f : A -> list B) :
  (forall x, In x l -> f x = []) -> flat_map f l = [].
Proof.
  induction l as [|x l IH]; intros H; simpl; [reflexivity|].
  rewrite (H x) by now left. apply IH. intros y Hy. apply H. now right.
Qed.

Lemma map_flat_map {C : Type} (h : B -> C) (f : A -> list B) (l : list A) :
  map h (flat_map f l) = flat_map (fun x => map h (f x)) l.
Proof.
  induction l as [|x l IH]; simpl; [reflexivity|]. now rewrite map_app, IH.
Qed.

End ListFacts2.

(* ================================================================== *)
(** ** The loops of the diff engine *)
(* ================================================================== *)

(** *** Schemas with ordinary names: every read is an own property or
        nothing *)

Lemma diffColumns_ordinary (sources targets : list DatabaseColumn) :
  ordinaryNames (map col_name sources) = true ->
  ordinaryNames (map col_name targets) = true ->
  diffColumns sources targets = map Change (columnChanges sources targets).
Proof.
  intros Hs Ht. unfold diffColumns, columnChanges. rewrite map_flat_map.
  apply flat_map_ext_on. intros key Hin.
  apply (union_key_ordinary col_name) in Hin; [|assumption..].
  rewrite !obj_read_ordinary by assumption.
  destruct (obj_get (columnMap sources) key), (obj_get (columnMap targets) key); reflexivity.
Qed.

Lemma diffIndexes_ordinary (sources targets : list DatabaseIndex) :
  ordinaryNames (map idx_name sources) = true ->
  ordinaryNames (map idx_name targets) = true ->
  diffIndexes sources targets = map Change (indexChanges sources targets).
Proof.
  intros Hs Ht. unfold diffIndexes, indexChanges. rewrite map_flat_map.
  apply flat_map_ext_on. intros key Hin.
  apply (union_key_ordinary idx_name) in Hin; [|assumption..].
  rewrite !obj_read_ordinary by assumption.
  destruct (obj_get (indexMap sources) key), (obj_get (indexMap targets) key); reflexivity.
Qed.

Lemma diffConstraints_ordinary (sources targets : list DatabaseConstraint) :
  ordinaryNames (map con_name sources) = true ->
  ordinaryNames (map con_name targets) = true ->
  diffConstraints sources targets = map Change (constraintChanges sources targets).
Proof.
  intros Hs Ht. unfold diffConstraints, constraintChanges. rewrite map_flat_map.
  apply flat_map_ext_on. intros type _. rewrite map_flat_map.
  apply flat_map_ext_on. intros key Hin. unfold constraintMap in Hin.
  apply (union_key_ordinary con_name) in Hin; [|now apply ordinaryNames_filter..].
  rewrite !obj_read_ordinary by assumption.
  destruct (obj_get (constraintMap type sources) key),
    (obj_get (constraintMap type targets) key); reflexivity.
Qed.

Lemma ordinaryTable_names (table : DatabaseTable) :
  ordinaryTable table = true ->
  isPrototypeMember (tbl_name table) = false
  /\ ordinaryNames (map col_name (tbl_columns table)) = true
  /\ ordinaryNames (map idx_name (tbl_indexes table)) = true
  /\ ordinaryNames (map con_name (tbl_constraints table)) = true.
Proof.
  unfold ordinaryTable. rewrite !andb_true_iff, negb_true_iff. tauto.
Qed.

Lemma diffTable_ordinary (source target : option DatabaseTable) :
  (forall s, source = Some s -> ordinaryTable s = true) ->
  (forall t, target = Some t -> ordinaryTable t = true) ->
  diffTable source target = map Change (tableChanges source target).
Proof.
  intros Hs Ht.
  destruct source as [s|], target as [t|]; cbn [diffTable tableChanges];
    try reflexivity.
  - destruct (ordinaryTable_names s (Hs s eq_refl)) as (_ & Hc & Hi & Hk).
    destruct (ordinaryTable_names t (Ht t eq_refl)) as (_ & Hc' & Hi' & Hk').
    rewrite diffColumns_ordinary, diffConstraints_ordinary, diffIndexes_ordinary
      by assumption.
    now rewrite !map_app.
  - destruct (ordinaryTable_names s (Hs s eq_refl)) as (_ & Hc & Hi & Hk).
    rewrite diffIndexes_ordinary, diffConstraints_ordinary by (assumption || reflexivity).
    cbn [map]. now rewrite map_app.
Qed.

Lemma ordinary_tableMap (tables : list DatabaseTable) (key : string) (table : DatabaseTable) :
  forallb ordinaryTable tables = true ->
  obj_get (tableMap tables) key = Some table -> ordinaryTable table = true.
Proof.
  intros H Hget. apply obj_get_keyed_In in Hget as [Hin _].
  rewrite forallb_forall in H. now apply H.
Qed.

Lemma ordinaryTables_names (tables : list DatabaseTable) :
  forallb ordinaryTable tables = true -> ordinaryNames (map tbl_name tables) = true.
Proof.
  unfold ordinaryNames. rewrite !forallb_forall. intros H name Hin.
  apply in_map_iff in Hin as (t & <- & Ht).
  apply negb_true_iff. now apply ordinaryTable_names, H.
Qed.

Lemma diffTables_ordinary (sources targets : list DatabaseTable) (ignoreExtra : bool) :
  forallb ordinaryTable sources = true ->
  forallb ordinaryTable targets = true ->
  diffTables sources targets ignoreExtra
  = Returns (map Change (tablesChanges sources targets ignoreExtra)).
Proof.
  intros Hs Ht. unfold diffTables, tablesChanges. rewrite map_flat_map.
  apply forEach_returns.
  intros key Hin. unfold tableMap in Hin.
  apply (union_key_ordinary tbl_name) in Hin; [|now apply ordinaryTables_names..].
  rewrite !obj_read_ordinary by assumption.
  destruct (obj_get (tableMap sources) key) as [s|] eqn:Es;
    destruct (obj_get (tableMap targets) key) as [t|] eqn:Et;
    cbn [truthy_read truthy_obj negb andb diffTableRead own];
    rewrite ?andb_false_r, ?andb_true_r.
  - f_equal. apply diffTable_ordinary; intros x Hx; inversion Hx; subst;
      [apply (ordinary_tableMap sources key) | apply (ordinary_tableMap targets key)];
      assumption.
  - f_equal. apply diffTable_ordinary; intros x Hx; inversion Hx; subst.
    now apply (ordinary_tableMap sources key).
  - destruct ignoreExtra; reflexivity.
  - destruct ignoreExtra; reflexivity.
Qed.

(** For schemas with ordinary names, [diff] returns the changes between the
    own properties. *)
Lemma diff_ordinary (source target : DatabaseSchema) (options : option DiffOptions) :
  ordinarySchema source = true -> ordinarySchema target = true ->
  diff source target options
  = Returns (map Change (schemaChanges source target options)).
Proof. intros Hs Ht. unfold diff, schemaChanges. now apply diffTables_ordinary. Qed.

(** *** A list compared with itself *)

Lemma diffColumns_self (l : list DatabaseColumn) : diffColumns l l = [].
Proof.
  unfold diffColumns. apply flat_map_all_nil_on. intros key Hin.
  apply union_key_shared in Hin as (v & ->).
  cbn [diffColumnRead own]. now rewrite diffColumn_self.
Qed.

Lemma diffConstraints_self (l : list DatabaseConstraint) : diffConstraints l l = [].
Proof.
  unfold diffConstraints. apply flat_map_all_nil. intros type.
  apply flat_map_all_nil_on. intros key Hin.
  apply union_key_shared in Hin as (v & ->).
  cbn [diffConstraintRead own]. now rewrite diffConstraint_self.
Qed.

Lemma diffIndexes_self (l : list DatabaseIndex) : diffIndexes l l = [].
Proof.
  unfold diffIndexes. apply flat_map_all_nil_on. intros key Hin.
  apply union_key_shared in Hin as (v & ->).
  cbn [diffIndexRead own]. now rewrite diffIndex_self.
Qed.

Lemma diffTable_self (t : DatabaseTable) : diffTable (Some t) (Some t) = [].
Proof.
  cbn [diffTable]. now rewrite diffColumns_self, diffConstraints_self, diffIndexes_self.
Qed.

Lemma diffTables_self (l : list DatabaseTable) (ignoreExtra : bool) :
  diffTables l l ignoreExtra = Returns [].
Proof.
  unfold diffTables. apply forEach_nothing. intros key Hin.
  apply union_key_shared in Hin as (v & ->).
  cbn [truthy_read negb diffTableRead own]. rewrite andb_false_r.
  now rewrite diffTable_self.
Qed.

(** *** What stands in a returned list *)


Lemma diffColumns_contains (sources targets : list DatabaseColumn)
      (key : string) (s t : DatabaseColumn) :
  obj_get (columnMap sources) key = Some s ->
  obj_get (columnMap targets) key = Some t ->
  exists pre post,
    diffColumns sources targets
    = (pre ++ map Change (diffColumn (Some s) (Some t)) ++ post)%list.
Proof.
  intros Hs Ht. unfold diffColumns.
  match goal with
  | |- context [flat_map ?f ?l] => destruct (flat_map_infix f l key) as (pre & post & E)
  end.
  - eapply union_keys_source, Hs.
  - rewrite (obj_read_own _ _ _ Hs), (obj_read_own _ _ _ Ht) in E.
    now exists pre, post.
Qed.



(** The part of a returned list that belongs to a table present on both
    sides. *)
Lemma diff_returned_table (source target : DatabaseSchema) (options : option DiffOptions)
      (tableName : string) (S T : DatabaseTable) (emitted : list Emitted) :
  diff source target options = Returns emitted ->
  tableInBoth source target tableName S T ->
  exists pre post,
    emitted
    = (pre ++ (diffColumns (tbl_columns S) (tbl_columns T)
               ++ diffConstraints (tbl_constraints S) (tbl_constraints T)
               ++ diffIndexes (tbl_indexes S) (tbl_indexes T)) ++ post)%list.
Proof.
  intros H [HS HT]. unfold diff, diffTables in H.
  eapply forEach_returned_In in H as (pre & part & post & Hp & ->);
    [|eapply union_keys_source, HS].
  rewrite (obj_read_own _ _ _ HS), (obj_read_own _ _ _ HT) in Hp.
  cbn [truthy_read negb diffTableRead own diffTable] in Hp.
  rewrite andb_false_r in Hp. apply Returns_inj in Hp. subst part.
  now exists pre, post.
Qed.

Lemma diff_returned_column (source target : DatabaseSchema) (options : option DiffOptions)
      (tableName : string) (S T : DatabaseTable) (key : string) (s t : DatabaseColumn)
      (emitted : list Emitted) :
  diff source target options = Returns emitted ->
  tableInBoth source target tableName S T ->
  obj_get (columnMap (tbl_columns S)) key = Some s ->
  obj_get (columnMap (tbl_columns T)) key = Some t ->
  exists pre post,
    emitted = (pre ++ map Change (diffColumn (Some s) (Some t)) ++ post)%list.
Proof.
  intros H HST Hs Ht.
  destruct (diff_returned_table _ _ _ _ _ _ _ H HST) as (pre & post & ->).
  destruct (diffColumns_contains _ (tbl_columns T) _ _ _ Hs Ht) as (p & q & ->).
  exists (pre ++ p)%list,
    (q ++ diffConstraints (tbl_constraints S) (tbl_constraints T)
       ++ diffIndexes (tbl_indexes S) (tbl_indexes T) ++ post)%list.
  now rewrite <- !app_assoc.
Qed.



(** *** What can occur in a returned list at all *)

Section ReturnedForall.
Variable P : Emitted -> Prop.
Variable ignoreExtra : bool.
Hypothesis P_column : forall s t, Forall P (map Change (diffColumn s t)).
Hypothesis P_constraint : forall s t, Forall P (map Change (diffConstraint s t)).
Hypothesis P_index : forall s t, Forall P (map Change (diffIndex s t)).
Hypothesis P_column_delete : forall tn cn, P (Change (ColumnDelete tn cn)).
Hypothesis P_index_delete : forall n, P (Change (IndexDelete n)).
Hypothesis P_table_create : forall n cols, P (Change (TableCreate n cols)).
Hypothesis P_table_delete : ignoreExtra = false -> forall n, P (Change (TableDelete n)).
Hypothesis P_stray :
  forall record, (forall member, record <> StrayTableDelete member) -> P (Stray record).
Hypothesis P_stray_table_delete :
  ignoreExtra = false -> forall member, P (Stray (StrayTableDelete member)).

Lemma P_create_column s : P (Change (ColumnCreate s)).
Proof. pose proof (P_column (Some s) None) as H. now inversion H. Qed.

Lemma P_create_constraint s : P (Change (ConstraintCreate s)).
Proof. pose proof (P_constraint (Some s) None) as H. now inversion H. Qed.

Lemma P_delete_constraint t : P (Change (ConstraintDelete (con_tableName t) (con_name t))).
Proof. pose proof (P_constraint None (Some t)) as H. now inversion H. Qed.

Lemma P_create_index s : P (Change (IndexCreate s)).
Proof. pose proof (P_index (Some s) None) as H. now inversion H. Qed.

Lemma P_deleteIndexOfMember member : P (deleteIndexOfMember member).
Proof.
  unfold deleteIndexOfMember. destruct (memberName member); [apply P_index_delete|].
  apply P_stray. discriminate.
Qed.

Ltac stray := apply P_stray; discriminate.

Lemma diffColumns_Forall sources targets : Forall P (diffColumns sources targets).
Proof.
  unfold diffColumns. apply Forall_flat_map, Forall_forall. intros key _.
  destruct (obj_read (columnMap sources) key), (obj_read (columnMap targets) key);
    cbn [diffColumnRead]; try apply P_column;
    repeat constructor; solve [stray | apply P_create_column | apply P_column_delete].
Qed.

Lemma diffConstraints_Forall sources targets : Forall P (diffConstraints sources targets).
Proof.
  unfold diffConstraints. apply Forall_flat_map, Forall_forall. intros type _.
  apply Forall_flat_map, Forall_forall. intros key _.
  destruct (obj_read (constraintMap type sources) key) as [s|inherited|],
    (obj_read (constraintMap type targets) key) as [t|member|];
    cbn [diffConstraintRead]; try apply P_constraint;
    try (repeat constructor;
         solve [stray | apply P_create_constraint | apply P_delete_constraint]).
  destruct (con_type s); try destruct (haveEqualColumns _ _);
    repeat constructor; solve [stray | apply P_create_constraint].
Qed.

Lemma diffIndexes_Forall sources targets : Forall P (diffIndexes sources targets).
Proof.
  unfold diffIndexes. apply Forall_flat_map, Forall_forall. intros key _.
  destruct (obj_read (indexMap sources) key) as [s|inherited|],
    (obj_read (indexMap targets) key) as [t|member|];
    cbn [diffIndexRead]; try apply P_index;
    try match goal with |- context [if ?b then _ else _] => destruct b end;
    repeat constructor;
    solve [stray | apply P_create_index | apply P_index_delete
           | apply P_deleteIndexOfMember].
Qed.

Lemma diffTables_returned_Forall sources targets emitted :
  diffTables sources targets ignoreExtra = Returns emitted -> Forall P emitted.
Proof.
  unfold diffTables. apply forEach_returned_Forall. intros key part _.
  destruct (obj_read (tableMap sources) key) as [s|inherited|],
    (obj_read (tableMap targets) key) as [t|member|];
    cbn [truthy_read negb diffTableRead own diffTable];
    rewrite ?andb_false_r; intros H; try discriminate H.
  - returned H.
    apply Forall_app; split; [apply diffColumns_Forall|].
    apply Forall_app; split; [apply diffConstraints_Forall | apply diffIndexes_Forall].
  - returned H. constructor; [apply P_table_create|].
    apply Forall_app; split; [apply diffIndexes_Forall | apply diffConstraints_Forall].
  - destruct ignoreExtra; cbn [andb] in H; returned H; constructor;
      [now apply P_table_delete | constructor].
  - destruct ignoreExtra; cbn [andb] in H; [returned H; constructor|].
    destruct (memberName member); returned H;
      (constructor; [|constructor]);
      [now apply P_table_delete | now apply P_stray_table_delete].
  - destruct ignoreExtra; cbn [andb] in H; returned H; constructor.
Qed.

End ReturnedForall.

(** A [column.update] is only ever emitted between columns of one type. *)
Lemma diffColumn_updateKeepsType s t : Forall updateKeepsType (diffColumn s t).
Proof.
  destruct s as [s|], t as [t|]; simpl; repeat constructor.
  destruct (col_type s =? col_type t) eqn:E; simpl.
  - match goal with |- context [if ?b then _ else _] => destruct b end;
      repeat constructor. now apply String.eqb_eq.
  - repeat constructor.
Qed.

Lemma diff_returned_no_update source target options emitted (s t : DatabaseColumn) :
  col_type s <> col_type t ->
  diff source target options = Returns emitted ->
  ~ In (Change (ColumnUpdate s t)) emitted.
Proof.
  intros Hty H Hin.
  assert (HF : Forall (fun record => record <> Change (ColumnUpdate s t)) emitted).
  { revert H. unfold diff. apply diffTables_returned_Forall;
      try (intros; discriminate).
    - intros a b. apply Forall_forall. intros record Hr.
      apply in_map_iff in Hr as (change & <- & Hc).
      pose proof (diffColumn_updateKeepsType a b) as Hk.
      rewrite Forall_forall in Hk. apply Hk in Hc.
      intros E. inversion E; subst. simpl in Hc. contradiction.
    - intros [a|] [b|]; simpl; repeat constructor; try discriminate.
      destruct (con_type a);
        unfold diffPrimaryKeyConstraint, diffForeignKeyConstraint, diffUniqueConstraint,
          diffCheckConstraint;
        match goal with |- context [if ?b then _ else _] => destruct b end;
        repeat constructor; discriminate.
    - intros [a|] [b|]; simpl; repeat constructor; try discriminate.
      match goal with |- context [if ?b then _ else _] => destruct b end;
        repeat constructor; discriminate. }
  rewrite Forall_forall in HF. now apply (HF _ Hin).
Qed.

(* ================================================================== *)
(** ** Properties of the diff engine *)
(* ================================================================== *)

(** C1 -- Stability under self-diff: for every schema [S],
    [diff(S, S, {ignoreExtraTables: false})] returns the empty change list;
    no table, column, constraint or index change is emitted.  (The same
    holds for every other choice of options.  Every key that the loops read
    is an own property of both maps, so no read reaches [Object.prototype],
    whatever the names are.) *)
Theorem diff_self_empty (S : DatabaseSchema) :
  diff S S (Some (mkDiffOptions (Some false))) = Returns []
  /\ forall options, diff S S options = Returns [].
Proof.
  split; [|intros options]; unfold diff; apply diffTables_self.
Qed.

(** Keys of an object with a single property. *)
Lemma keys_singleton {V : Type} (k : string) (v : V) : keys [(k, v)] = [k].
Proof.
  unfold keys, index_keys, is_array_index. simpl.
  destruct (array_index k); reflexivity.
Qed.

Lemma diffTables_empty_source (T1 : DatabaseTable) (ignoreExtra : bool) :
  diffTables [] [T1] ignoreExtra
  = if isPrototypeMember (tbl_name T1) then Throws
    else if ignoreExtra then Returns [] else Returns [Change (TableDelete (tbl_name T1))].
Proof.
  unfold diffTables, tableMap. cbn [map fromEntries fold_left obj_set fst snd].
  rewrite keys_singleton.
  cbn [keys map index_keys fold_left filter app newSet set_add set_has existsb
         forEach fold_right].
  unfold obj_read. cbn [obj_get]. rewrite String.eqb_refl.
  destruct (isPrototypeMember (tbl_name T1)); cbn [truthy_read negb];
    rewrite ?andb_false_r, ?andb_true_r.
  - reflexivity.
  - destruct ignoreExtra; reflexivity.
Qed.

(** C5 -- [ignoreExtraTables]: for a table [T1] whose name is not the name of
    a member of [Object.prototype], the diff of an empty source schema
    against a target schema containing [T1] is empty when the option is
    [true] and exactly [table.delete T1] when it is [false].  For a table
    named like such a member ([constructor], [toString], ...) the read
    [sourceMap[key]] on the empty map finds the member, the key is not
    skipped, and [diff] throws under either setting; the last part
    evaluates [diff] for an extra table called [constructor].  When the
    option (or the whole options argument) is omitted, [diff] behaves as
    with [true]. *)
Theorem diff_ignoreExtraTables :
  (forall (sourceName targetName : string) (T1 : DatabaseTable),
      diff (mkSchema sourceName []) (mkSchema targetName [T1])
        (Some (mkDiffOptions (Some true)))
      = (if isPrototypeMember (tbl_name T1) then Throws else Returns [])
      /\ diff (mkSchema sourceName []) (mkSchema targetName [T1])
           (Some (mkDiffOptions (Some false)))
         = (if isPrototypeMember (tbl_name T1) then Throws
            else Returns [Change (TableDelete (tbl_name T1))]))
  /\ (forall source target : DatabaseSchema,
         diff source target None = diff source target (Some (mkDiffOptions (Some true)))
         /\ diff source target (Some (mkDiffOptions None))
            = diff source target (Some (mkDiffOptions (Some true))))
  /\ diff (mkSchema "public" []) (mkSchema "public" [mkTable "constructor" [] [] []])
       (Some (mkDiffOptions (Some true))) = Throws
  /\ diff (mkSchema "public" []) (mkSchema "public" [mkTable "constructor" [] [] []])
       (Some (mkDiffOptions (Some false))) = Throws.
Proof.
  split; [|split; [|split]].
  - intros sourceName targetName T1.
    unfold diff; cbn [sch_tables ignoreExtraTables].
    rewrite !diffTables_empty_source. split; reflexivity.
  - intros; split; reflexivity.
  - reflexivity.
  - reflexivity.
Qed.

(** In a table whose column names are pairwise distinct, the column that
    the diff reads under a name is the column of that name. *)
Lemma columnMap_lookup (columns : list DatabaseColumn) (column : DatabaseColumn) :
  NoDup (map col_name columns) -> In column columns ->
  obj_get (columnMap columns) (col_name column) = Some column.
Proof.
  intros Hnd Hin. unfold columnMap. apply obj_get_fromEntries_unique.
  - now rewrite map_map.
  - apply in_map_iff. now exists column.
Qed.

Lemma tableMap_lookup (tables : list DatabaseTable) (table : DatabaseTable) :
  NoDup (map tbl_name tables) -> In table tables ->
  obj_get (tableMap tables) (tbl_name table) = Some table.
Proof.
  intros Hnd Hin. unfold tableMap. apply obj_get_fromEntries_unique.
  - now rewrite map_map.
  - apply in_map_iff. now exists table.
Qed.

Lemma diffColumn_type_changed (s t : DatabaseColumn) :
  col_type s <> col_type t ->
  diffColumn (Some s) (Some t)
  = [ColumnDelete (col_tableName t) (col_name t); ColumnCreate s].
Proof.
  intros H. unfold diffColumn. apply String.eqb_neq in H. now rewrite H.
Qed.

(** C6 -- Column type change forces drop-and-recreate: when a table present
    in both schemas holds under one name a source column and a target
    column of different types, the changes for that column are exactly
    [column.delete] of the target column followed by [column.create] of the
    source column, whatever the other fields are; that pair is part of
    every list that [diff] returns for the two schemas, and such a list
    holds no [column.update] for the two columns.  For schemas with ordinary
    names [diff] does return a list. *)
Theorem diff_type_change_drop_and_recreate
        (source target : DatabaseSchema) (options : option DiffOptions)
        (tableName : string) (S T : DatabaseTable)
        (columnName : string) (s t : DatabaseColumn) :
  tableInBoth source target tableName S T ->
  obj_get (columnMap (tbl_columns S)) columnName = Some s ->
  obj_get (columnMap (tbl_columns T)) columnName = Some t ->
  col_type s <> col_type t ->
  diffColumn (Some s) (Some t)
  = [ColumnDelete (col_tableName t) (col_name t); ColumnCreate s]
  /\ (forall emitted,
         diff source target options = Returns emitted ->
         (exists pre post,
             emitted
             = (pre ++ map Change [ColumnDelete (col_tableName t) (col_name t);
                                   ColumnCreate s] ++ post)%list)
         /\ ~ In (Change (ColumnUpdate s t)) emitted)
  /\ (ordinarySchema source = true -> ordinarySchema target = true ->
      exists emitted, diff source target options = Returns emitted).
Proof.
  intros HST Hs Ht Hty. split; [now apply diffColumn_type_changed|]. split.
  - intros emitted H. split.
    + destruct (diff_returned_column _ _ _ _ _ _ _ _ _ _ H HST Hs Ht) as (pre & post & E).
      exists pre, post. now rewrite E, diffColumn_type_changed.
    + now apply (diff_returned_no_update source target options).
  - intros Hos Hot. eexists. now apply diff_ordinary.
Qed.


Lemma diff_type_change_drop_and_recreate_witness :
  diffColumn (Some (sampleColumn "Column1" "uuid" (Some true)))
             (Some (sampleColumn "Column1" "text" None))
  = [ColumnDelete "Table1" "Column1"; ColumnCreate (sampleColumn "Column1" "uuid" (Some true))]
  /\ exists emitted pre post,
      diff desiredSchema observedSchema None = Returns emitted
      /\ emitted
         = (pre ++ map Change [ColumnDelete "Table1" "Column1";
                               ColumnCreate (sampleColumn "Column1" "uuid" (Some true))]
                ++ post)%list
      /\ ~ In (Change (ColumnUpdate (sampleColumn "Column1" "uuid" (Some true))
                                    (sampleColumn "Column1" "text" None)))
              emitted.
Proof.
  destruct (diff_type_change_drop_and_recreate desiredSchema observedSchema None
              "Table1" desiredTable observedTable "Column1"
              (sampleColumn "Column1" "uuid" (Some true))
              (sampleColumn "Column1" "text" None))
    as (Hitem & Hlist & Hreturns).
  - split; reflexivity.
  - reflexivity.
  - reflexivity.
  - simpl. discriminate.
  - split; [exact Hitem|].
    destruct (Hreturns eq_refl eq_refl) as (emitted & E).
    destruct (Hlist emitted E) as ((pre & post & Hc) & Hn).
    exists emitted, pre, post. repeat split; assumption.
Defined.






Example sample_diff :
  diff desiredSchema observedSchema None
  = Returns
      (map Change
      [ColumnDelete "Table1" "Column1";
       ColumnCreate (sampleColumn "Column1" "uuid" (Some true));
       ColumnUpdate (sampleColumn "Column2" "character varying" (Some false))
                    (sampleColumn "Column2" "character varying" None);
       ConstraintDelete "Table1" "PK_1";
       ConstraintCreate (PrimaryKeyConstraint "PK_1" "Table1" ["Column1"]);
       IndexDelete "IDX_1";
       IndexCreate (mkIndex "IDX_1" "Table1" (Some ["Column2"]) None (Some true) None None)]).
Proof. reflexivity. Qed.

Lemma diffColumn_primary_false_unset (s t : DatabaseColumn) :
  col_type s = col_type t ->
  col_primary s = Some false ->
  col_primary t = None ->
  diffColumn (Some s) (Some t) = [ColumnUpdate s t].
Proof.
  intros Hty Hs Ht. unfold diffColumn.
  rewrite Hty, String.eqb_refl, Hs, Ht. simpl.
  now rewrite orb_true_r.
Qed.

(** C10 -- Optional [primary] mismatch: for a source and a target column of
    one name that agree on type, nullability, default and array flag, where
    the source column carries [primary = false] and the target column
    carries no [primary] at all, the comparison still yields a
    [column.update], which is part of every list that [diff] returns for the
    two schemas: [false !== undefined].  For schemas with ordinary names
    [diff] does return a list. *)
Theorem diff_primary_false_vs_unset
        (source target : DatabaseSchema) (options : option DiffOptions)
        (tableName : string) (S T : DatabaseTable)
        (columnName : string) (s t : DatabaseColumn) :
  tableInBoth source target tableName S T ->
  obj_get (columnMap (tbl_columns S)) columnName = Some s ->
  obj_get (columnMap (tbl_columns T)) columnName = Some t ->
  col_type s = col_type t ->
  col_nullable s = col_nullable t ->
  col_default s = col_default t ->
  col_isArray s = col_isArray t ->
  col_primary s = Some false ->
  col_primary t = None ->
  diffColumn (Some s) (Some t) = [ColumnUpdate s t]
  /\ (forall emitted,
         diff source target options = Returns emitted ->
         exists pre post, emitted = (pre ++ [Change (ColumnUpdate s t)] ++ post)%list)
  /\ (ordinarySchema source = true -> ordinarySchema target = true ->
      exists emitted, diff source target options = Returns emitted).
Proof.
  intros HST Hs Ht Hty _ _ _ Hps Hpt.
  split; [now apply diffColumn_primary_false_unset|]. split.
  - intros emitted H.
    destruct (diff_returned_column _ _ _ _ _ _ _ _ _ _ H HST Hs Ht) as (pre & post & E).
    exists pre, post. now rewrite E, diffColumn_primary_false_unset.
  - intros Hos Hot. eexists. now apply diff_ordinary.
Qed.

Lemma diff_primary_false_vs_unset_witness :
  diffColumn (Some (sampleColumn "Column2" "character varying" (Some false)))
             (Some (sampleColumn "Column2" "character varying" None))
  = [ColumnUpdate (sampleColumn "Column2" "character varying" (Some false))
                  (sampleColumn "Column2" "character varying" None)]
  /\ exists emitted pre post,
      diff desiredSchema observedSchema None = Returns emitted
      /\ emitted
         = (pre ++ [Change (ColumnUpdate
                              (sampleColumn "Column2" "character varying" (Some false))
                              (sampleColumn "Column2" "character varying" None))]
                ++ post)%list.
Proof.
  destruct (diff_primary_false_vs_unset desiredSchema observedSchema None
              "Table1" desiredTable observedTable "Column2"
              (sampleColumn "Column2" "character varying" (Some false))
              (sampleColumn "Column2" "character varying" None))
    as (Hitem & Hlist & Hreturns);
    try solve [reflexivity | split; reflexivity].
  split; [exact Hitem|].
  destruct (Hreturns eq_refl eq_refl) as (emitted & E).
  destruct (Hlist emitted E) as (pre & post & Hc).
  now exists emitted, pre, post.
Defined.

(** The two producers of columns that are compared: the columns pass of the
    metadata compiler always sets [primary], the catalog introspector never
    does.  (The relations pass of the compiler adds columns without
    [primary].) *)
Lemma dynamicColumn_primary (tableName propertyName : string) (options : ColumnOptions) :
  col_primary (dynamicColumn tableName propertyName options)
  = Some (match opt_primary options with Some b => b | None => false end).
Proof. reflexivity. Qed.

Lemma catalogColumn_primary (enumMap : JsObject (list string)) (row : ColumnRow)
      (column : DatabaseColumn) :
  catalogColumn enumMap row = Some column -> col_primary column = None.
Proof.
  unfold catalogColumn. intros H.
  repeat match type of H with
         | (if ?b then _ else _) = _ => destruct b
         | match ?x with _ => _ end = _ => destruct x
         end;
    inversion H; reflexivity.
Qed.

Lemma diffColumn_declared_vs_introspected
      (tableName propertyName : string) (options : ColumnOptions)
      (enumMap : JsObject (list string)) (row : ColumnRow) (t : DatabaseColumn) :
  opt_primary options = None \/ opt_primary options = Some false ->
  catalogColumn enumMap row = Some t ->
  col_type (dynamicColumn tableName propertyName options) = col_type t ->
  diffColumn (Some (dynamicColumn tableName propertyName options)) (Some t)
  = [ColumnUpdate (dynamicColumn tableName propertyName options) t].
Proof.
  intros Hp Ht Hty. apply diffColumn_primary_false_unset; [assumption| |].
  - rewrite dynamicColumn_primary. now destruct Hp as [-> | ->].
  - eapply catalogColumn_primary, Ht.
Qed.

(** C4 -- Set-equality for column lists: two PRIMARY_KEY, UNIQUE or
    FOREIGN_KEY constraints, or two indexes, that are alike except that
    their [columnNames] (and, for a foreign key, their
    [referenceColumnNames]) are permutations of each other compare as
    unchanged: no change is emitted for the pair. *)
Theorem diff_permuted_columns_no_change
        (name tableName : string) (cols cols' refCols refCols' : list string) :
  Permutation cols cols' ->
  Permutation refCols refCols' ->
  diffConstraint (Some (PrimaryKeyConstraint name tableName cols))
                 (Some (PrimaryKeyConstraint name tableName cols')) = []
  /\ diffConstraint (Some (UniqueConstraint name tableName cols))
                    (Some (UniqueConstraint name tableName cols')) = []
  /\ (forall referenceTableName onUpdate onDelete,
         diffConstraint
           (Some (ForeignKeyConstraint name tableName cols referenceTableName refCols
                    onUpdate onDelete))
           (Some (ForeignKeyConstraint name tableName cols' referenceTableName refCols'
                    onUpdate onDelete)) = [])
  /\ (forall expression unique method predicate,
         diffIndex
           (Some (mkIndex name tableName (Some cols) expression unique method predicate))
           (Some (mkIndex name tableName (Some cols') expression unique method predicate))
         = []).
Proof.
  intros Hc Hr.
  pose proof (haveEqualColumns_permutation _ _ Hc) as Ec.
  pose proof (haveEqualColumns_permutation _ _ Hr) as Er.
  repeat split; intros; simpl;
    unfold diffPrimaryKeyConstraint, diffForeignKeyConstraint, diffUniqueConstraint,
      diffIndex; simpl;
    rewrite ?Ec, ?Er; now autorewrite with self_diff.
Qed.

Lemma diff_permuted_columns_no_change_witness :
  diffConstraint (Some (PrimaryKeyConstraint "PK_1" "Table1" ["Column1"; "Column2"]))
                 (Some (PrimaryKeyConstraint "PK_1" "Table1" ["Column2"; "Column1"])) = []
  /\ diffConstraint (Some (UniqueConstraint "PK_1" "Table1" ["Column1"; "Column2"]))
                    (Some (UniqueConstraint "PK_1" "Table1" ["Column2"; "Column1"])) = []
  /\ (forall referenceTableName onUpdate onDelete,
         diffConstraint
           (Some (ForeignKeyConstraint "PK_1" "Table1" ["Column1"; "Column2"]
                    referenceTableName ["Id1"; "Id2"] onUpdate onDelete))
           (Some (ForeignKeyConstraint "PK_1" "Table1" ["Column2"; "Column1"]
                    referenceTableName ["Id2"; "Id1"] onUpdate onDelete)) = [])
  /\ (forall expression unique method predicate,
         diffIndex
           (Some (mkIndex "PK_1" "Table1" (Some ["Column1"; "Column2"])
                    expression unique method predicate))
           (Some (mkIndex "PK_1" "Table1" (Some ["Column2"; "Column1"])
                    expression unique method predicate))
         = []).
Proof.
  apply (diff_permuted_columns_no_change "PK_1" "Table1"
           ["Column1"; "Column2"] ["Column2"; "Column1"] ["Id1"; "Id2"] ["Id2"; "Id1"]);
    apply perm_swap.
Defined.

(* ================================================================== *)
(** ** Properties of the DDL emitter *)
(* ================================================================== *)

Lemma diffToSql_app (a b : list SchemaDiff) :
  diffToSql (a ++ b) = (diffToSql a ++ diffToSql b)%list.
Proof. unfold diffToSql. apply flat_map_app. Qed.

(** C2 -- SQL for [column.update] is emitted only on a nullability
    transition: source nullable and target not nullable gives exactly the
    one statement [ALTER TABLE "T" ALTER COLUMN "C" DROP NOT NULL;], source
    not nullable and target nullable gives [... SET NOT NULL;], and with
    equal nullability (whatever else differs) the change adds nothing to
    the output of [diffToSql]. *)
Theorem diffToSql_column_update (source target : DatabaseColumn) :
  (col_nullable source = true -> col_nullable target = false ->
   diffToSql [ColumnUpdate source target]
   = ["ALTER TABLE " ++ quoted (col_tableName source)
        ++ " ALTER COLUMN " ++ quoted (col_name source) ++ " DROP NOT NULL;"])
  /\ (col_nullable source = false -> col_nullable target = true ->
      diffToSql [ColumnUpdate source target]
      = ["ALTER TABLE " ++ quoted (col_tableName source)
           ++ " ALTER COLUMN " ++ quoted (col_name source) ++ " SET NOT NULL;"])
  /\ (col_nullable source = col_nullable target ->
      diffToSql [ColumnUpdate source target] = []
      /\ forall before after,
          diffToSql (before ++ ColumnUpdate source target :: after)
          = (diffToSql before ++ diffToSql after)%list).
Proof.
  split; [|split].
  - intros Hs Ht. unfold diffToSql; simpl. now rewrite Hs, Ht.
  - intros Hs Ht. unfold diffToSql; simpl. now rewrite Hs, Ht.
  - intros E.
    assert (H : diffToSql [ColumnUpdate source target] = []).
    { unfold diffToSql; simpl. now rewrite E, Bool.eqb_reflx. }
    split; [exact H|]. intros before after.
    change (ColumnUpdate source target :: after)
      with ([ColumnUpdate source target] ++ after)%list.
    now rewrite !diffToSql_app, H.
Qed.

Lemma diffToSql_column_update_witness :
  diffToSql [ColumnUpdate (nullableColumn true "character varying" None)
                          (nullableColumn false "character varying" None)]
  = ["ALTER TABLE " ++ quoted "Table1" ++ " ALTER COLUMN " ++ quoted "Column1"
       ++ " DROP NOT NULL;"]
  /\ diffToSql [ColumnUpdate (nullableColumn false "character varying" None)
                             (nullableColumn true "character varying" None)]
     = ["ALTER TABLE " ++ quoted "Table1" ++ " ALTER COLUMN " ++ quoted "Column1"
          ++ " SET NOT NULL;"]
  /\ diffToSql [ColumnUpdate (nullableColumn true "uuid" (Some "uuid_generate_v4()"))
                             (nullableColumn true "uuid" None)] = [].
Proof.
  split; [|split].
  - apply (proj1 (diffToSql_column_update
                    (nullableColumn true "character varying" None)
                    (nullableColumn false "character varying" None)));
      reflexivity.
  - apply (proj1 (proj2 (diffToSql_column_update
                           (nullableColumn false "character varying" None)
                           (nullableColumn true "character varying" None))));
      reflexivity.
  - apply (proj2 (proj2 (diffToSql_column_update
                           (nullableColumn true "uuid" (Some "uuid_generate_v4()"))
                           (nullableColumn true "uuid" None)))).
    reflexivity.
Defined.

(** C8 -- Foreign-key emission form: a [constraint.create] of a FOREIGN_KEY
    constraint yields exactly the one statement
    [ALTER TABLE "T" ADD CONSTRAINT "N" FOREIGN KEY (cols) REFERENCES "RT" (refCols)[ ON DELETE a][ ON UPDATE a];]
    where each of the two lists holds the given names in ascending
    (code-unit) order, each double-quoted, joined with [", "]; an action
    clause appears only when that action is present, and [ON DELETE] comes
    before [ON UPDATE]. *)
Theorem diffToSql_foreign_key
        (name tableName : string) (cols : list string)
        (referenceTableName : string) (refCols : list string)
        (onUpdate onDelete : option DatabaseActionType) :
  exists sortedCols sortedRefCols,
    Permutation cols sortedCols /\ StronglySorted str_le sortedCols
    /\ Permutation refCols sortedRefCols /\ StronglySorted str_le sortedRefCols
    /\ diffToSql [ConstraintCreate
                    (ForeignKeyConstraint name tableName cols referenceTableName refCols
                       onUpdate onDelete)]
       = ["ALTER TABLE " ++ quoted tableName ++ " ADD CONSTRAINT " ++ quoted name
            ++ " FOREIGN KEY (" ++ quotedList sortedCols
            ++ ") REFERENCES " ++ quoted referenceTableName
            ++ " (" ++ quotedList sortedRefCols ++ ")"
            ++ actionClause "DELETE" onDelete
            ++ actionClause "UPDATE" onUpdate
            ++ ";"].
Proof.
  exists (toSorted cols), (toSorted refCols).
  repeat split; try apply toSorted_perm; try apply toSorted_sorted.
  cbv [diffToSql flat_map asSql asConstraintSql con_tableName con_name con_onDelete
         con_onUpdate app withAction actionClause quotedList asColumnsNames].
  destruct onDelete, onUpdate; rewrite !append_assoc; reflexivity.
Qed.

Example foreign_key_with_actions :
  diffToSql [ConstraintCreate
               (ForeignKeyConstraint "FK_1" "Table1" ["Column1"] "Table2" ["Column2"]
                  (Some CASCADE) (Some NO_ACTION))]
  = ["ALTER TABLE " ++ quoted "Table1" ++ " ADD CONSTRAINT " ++ quoted "FK_1"
       ++ " FOREIGN KEY (" ++ quoted "Column1" ++ ") REFERENCES " ++ quoted "Table2"
       ++ " (" ++ quoted "Column2" ++ ") ON DELETE NO ACTION ON UPDATE CASCADE;"].
Proof. reflexivity. Qed.

(** *** Statement terminators *)








(** Two statements for [index.create]: that of the service's own test,
    which expects it with a closing [;] that the emitter does not write,
    and one whose predicate text ends with [;]. *)
Example index_create_statements :
  diffToSql [IndexCreate (mkIndex "IDX_1" "Table1" (Some ["Column1"]) None None None None)]
  = ["CREATE INDEX " ++ quoted "IDX_1" ++ " ON " ++ quoted "Table1"
       ++ " (" ++ quoted "Column1" ++ ")"]
  /\ diffToSql [IndexCreate indexWithTerminatedPredicate]
     = ["CREATE INDEX " ++ quoted "IDX_1" ++ " ON " ++ quoted "Table1"
          ++ " (" ++ quoted "Column1" ++ ") WHERE (1 = 1);"].
Proof. split; reflexivity. Qed.

(* ================================================================== *)
(** ** Constraint-name hashing *)
(* ================================================================== *)

Lemma isHexString_substring (n : nat) (s : string) :
  isHexString s -> isHexString (substring 0 n s).
Proof.
  unfold isHexString. revert s. induction n as [|n IH]; intros s H.
  - destruct s; constructor.
  - destruct s as [|c s]; [constructor|].
    simpl. inversion H; subst. constructor; [assumption | now apply IH].
Qed.

Lemma asKey_slice (sha1 : string -> string) (prefix tableName : string)
      (columnNames : list string) :
  String.length prefix = 3 ->
  asKey sha1 prefix tableName columnNames
  = prefix ++ substring 0 27 (sha1 (tableName ++ "_" ++ join "_" (toSorted columnNames))).
Proof.
  intros H. unfold asKey, slice0.
  destruct prefix as [|a [|b [|c [|d r]]]]; try discriminate. reflexivity.
Qed.

Section ConstraintNameFacts.

Variable sha1 : string -> string.
Hypothesis sha1_length : forall value, String.length (sha1 value) = 40.
Hypothesis sha1_hex : forall value, isHexString (sha1 value).

(** C3 -- Constraint-name hashing: for every table name and list of column
    names, the synthesized PK/UQ/FK name is the prefix followed by the
    first 27 hex characters of
    [sha1(tableName + '_' + sortedColumnNames.join('_'))], where the
    sorted list is the ascending arrangement of the given names; the name
    is exactly 30 characters long, and it does not depend on the order in
    which the column names are given. *)
Theorem asKey_recipe (prefix tableName : string) (columnNames : list string) :
  In prefix ["PK_"; "UQ_"; "FK_"] ->
  asKey sha1 prefix tableName columnNames
  = prefix ++ substring 0 27 (sha1 (tableName ++ "_" ++ join "_" (toSorted columnNames)))
  /\ (Permutation columnNames (toSorted columnNames)
      /\ StronglySorted str_le (toSorted columnNames))
  /\ isHexString (substring 0 27 (sha1 (tableName ++ "_" ++ join "_" (toSorted columnNames))))
  /\ String.length (asKey sha1 prefix tableName columnNames) = 30
  /\ (forall columnNames',
         Permutation columnNames columnNames' ->
         asKey sha1 prefix tableName columnNames'
         = asKey sha1 prefix tableName columnNames)
  /\ asPrimaryKeyConstraintName sha1 tableName columnNames
     = asKey sha1 "PK_" tableName columnNames
  /\ asUniqueConstraintName sha1 tableName columnNames
     = asKey sha1 "UQ_" tableName columnNames
  /\ asForeignKeyConstraintName sha1 tableName columnNames
     = asKey sha1 "FK_" tableName columnNames.
Proof.
  intros Hprefix.
  assert (Hlen : String.length prefix = 3).
  { simpl in Hprefix. destruct Hprefix as [<- | [<- | [<- | []]]]; reflexivity. }
  split; [now apply asKey_slice|].
  split; [split; [apply toSorted_perm | apply toSorted_sorted]|].
  split; [apply isHexString_substring, sha1_hex|].
  split.
  - rewrite asKey_slice by assumption.
    rewrite length_append, Hlen, substring_0_length; [reflexivity|].
    rewrite sha1_length. lia.
  - split; [|repeat split].
    intros columnNames' Hp. unfold asKey.
    now rewrite (toSorted_permutation _ _ Hp).
Qed.

End ConstraintNameFacts.

(** The reference digest has the shape assumed above. *)
Lemma hexdigit_hex (x : Z) : isHexDigit (Sha1.hexdigit x) = true.
Proof.
  unfold Sha1.hexdigit.
  assert (E : Z.land x 15 = (x mod 16)%Z) by (apply (Z.land_ones x 4); lia).
  rewrite E.
  pose proof (Z.mod_pos_bound x 16 ltac:(lia)) as Hb.
  assert (Hcases : In (x mod 16)%Z
                      [0; 1; 2; 3; 4; 5; 6; 7; 8; 9; 10; 11; 12; 13; 14; 15]%Z).
  { simpl. lia. }
  simpl in Hcases.
  repeat (destruct Hcases as [<- | Hcases]; [reflexivity|]).
  contradiction.
Qed.

Lemma sha1_reference_length (value : string) : String.length (Sha1.sha1 value) = 40.
Proof.
  unfold Sha1.sha1, Sha1.hex_of_state.
  destruct (Sha1.digest _) as [[[[h0 h1] h2] h3] h4]. reflexivity.
Qed.

Lemma sha1_reference_hex (value : string) : isHexString (Sha1.sha1 value).
Proof.
  unfold Sha1.sha1, Sha1.hex_of_state, isHexString.
  destruct (Sha1.digest _) as [[[[h0 h1] h2] h3] h4].
  unfold Sha1.hex8. cbn [list_ascii_of_string].
  repeat (constructor; [apply hexdigit_hex|]). constructor.
Qed.

Example sha1_reference_abc :
  Sha1.sha1 "abc" = "a9993e364706816aba3e25717850c26c9cd0d89d".
Proof. vm_compute. reflexivity. Qed.

Example sha1_reference_two_blocks :
  Sha1.sha1 "abcdbcdecdefdefgefghfghighijhijkijkljklmklmnlmnomnopnopq"
  = "84983e441c3bd26ebaae4aa1f95129e5e54670f1".
Proof. vm_compute. reflexivity. Qed.

(** The primary key and the unique e-mail constraint of the [users] entity. *)
Example users_constraint_names :
  asPrimaryKeyConstraintName Sha1.sha1 "users" ["id"] = "PK_a3ffb1c0c8416b9fc6f907b7433"
  /\ asUniqueConstraintName Sha1.sha1 "users" ["email"] = "UQ_97672ac88f789774dd47f7c8be3".
Proof. split; vm_compute; reflexivity. Qed.

Lemma asKey_recipe_witness :
  asKey Sha1.sha1 "FK_" "assets" ["ownerId"; "libraryId"]
  = "FK_" ++ substring 0 27 (Sha1.sha1 "assets_libraryId_ownerId")
  /\ String.length (asKey Sha1.sha1 "FK_" "assets" ["ownerId"; "libraryId"]) = 30
  /\ asKey Sha1.sha1 "FK_" "assets" ["libraryId"; "ownerId"]
     = asKey Sha1.sha1 "FK_" "assets" ["ownerId"; "libraryId"].
Proof.
  destruct (asKey_recipe Sha1.sha1 sha1_reference_length sha1_reference_hex
              "FK_" "assets" ["ownerId"; "libraryId"])
    as (Hname & _ & _ & Hlen & Hperm & _).
  { simpl. tauto. }
  split; [exact Hname|]. split; [exact Hlen|].
  apply Hperm. apply perm_swap.
Defined.

(* ================================================================== *)
(** ** The service's test cases, replayed on the embedding *)
(* ================================================================== *)

Example test_diff_missing_table :
  diff (mkSchema "public" [mkTable "Table1" [nullableColumn false "character varying" None] [] []])
       (mkSchema "public" []) None
  = Returns [Change (TableCreate "Table1" [nullableColumn false "character varying" None])].
Proof. reflexivity. Qed.

Example test_diff_extra_table :
  diff (mkSchema "public" [])
       (mkSchema "public" [mkTable "Table1" [nullableColumn false "character varying" None] [] []])
       (Some (mkDiffOptions (Some false)))
  = Returns [Change (TableDelete "Table1")].
Proof. reflexivity. Qed.

Example test_table_create_default :
  diffToSql [TableCreate "Table1"
               [nullableColumn false "character varying" (Some "uuid_generate_v4()")]]
  = ["CREATE TABLE " ++ quoted "Table1" ++ " (" ++ quoted "Column1"
       ++ " character varying NOT NULL DEFAULT uuid_generate_v4());"].
Proof. reflexivity. Qed.

Example test_column_create :
  diffToSql [ColumnCreate (nullableColumn true "character varying" None)]
  = ["ALTER TABLE " ++ quoted "Table1" ++ " ADD " ++ quoted "Column1"
       ++ " character varying;"].
Proof. reflexivity. Qed.

Example test_unique_sorted_columns :
  diffToSql [ConstraintCreate (UniqueConstraint "UQ_1" "Table1" ["Column2"; "Column1"])]
  = ["ALTER TABLE " ++ quoted "Table1" ++ " ADD CONSTRAINT " ++ quoted "UQ_1"
       ++ " UNIQUE (" ++ quoted "Column1" ++ ", " ++ quoted "Column2" ++ ");"].
Proof. reflexivity. Qed.

Example test_index_delete :
  diffToSql [IndexDelete "IDX_1"] = ["DROP INDEX " ++ quoted "IDX_1" ++ ";"].
Proof. reflexivity. Qed.

(** Property names that look like array indices come first in
    [Object.keys], in numeric order; the others keep creation order. *)
Example keys_order :
  keys (fromEntries [("b", 1); ("10", 2); ("a", 3); ("2", 4); ("b", 5); ("01", 6)])
  = ["2"; "10"; "b"; "a"; "01"].
Proof. reflexivity. Qed.

(* ================================================================== *)
(** ** More about the diff engine *)
(* ================================================================== *)

(** *** The driver's filter *)

Lemma lastEntry_present {V : Type} (entries : list (string * V)) (k : string) :
  In k (map fst entries) -> exists v, lastEntry entries k = Some v.
Proof.
  induction entries as [|[k' v'] r IH]; simpl; [tauto|].
  intros [-> | Hin].
  - destruct (lastEntry r k) as [w|]; [now exists w|].
    exists v'. now rewrite String.eqb_refl.
  - destruct (IH Hin) as (w & ->). now exists w.
Qed.

Lemma lastEntry_filter {A : Type} (g : A -> string) (p : A -> bool) (l : list A)
      (k : string) :
  (forall x, In x l -> g x = k -> p x = true) ->
  lastEntry (map (fun x => (g x, x)) (filter p l)) k
  = lastEntry (map (fun x => (g x, x)) l) k.
Proof.
  induction l as [|x l IH]; intros H; simpl; [reflexivity|].
  assert (IH' := IH (fun y Hy => H y (or_intror Hy))).
  destruct (p x) eqn:Ep; simpl; rewrite IH'; [reflexivity|].
  destruct (lastEntry (map (fun y => (g y, y)) l) k); [reflexivity|].
  destruct (g x =? k) eqn:E; [|reflexivity].
  apply String.eqb_eq in E. rewrite (H x (or_introl eq_refl) E) in Ep. discriminate.
Qed.

Lemma tableMap_key_In (tables : list DatabaseTable) (table : DatabaseTable) :
  In table tables -> In (tbl_name table) (keys (tableMap tables)).
Proof.
  intros Hin.
  destruct (lastEntry_present (map (fun t => (tbl_name t, t)) tables) (tbl_name table))
    as (v & Hv).
  { rewrite map_map. simpl. apply in_map_iff. now exists table. }
  eapply obj_get_keys. unfold tableMap. rewrite obj_get_fromEntries. exact Hv.
Qed.

Lemma isIncluded_by_name (dynamicSchema : DatabaseSchema) (S T : DatabaseTable) :
  In S (sch_tables dynamicSchema) -> tbl_name T = tbl_name S ->
  isIncluded dynamicSchema T = true.
Proof.
  intros Hin E. unfold isIncluded. apply existsb_exists.
  exists S. split; [assumption|]. now apply String.eqb_eq.
Qed.

Lemma isIncluded_key (dynamicSchema : DatabaseSchema) (T : DatabaseTable) :
  isIncluded dynamicSchema T = true ->
  In (tbl_name T) (keys (tableMap (sch_tables dynamicSchema))).
Proof.
  unfold isIncluded. intros H. apply existsb_exists in H as (S & HS & E).
  apply String.eqb_eq in E. rewrite E. now apply tableMap_key_In.
Qed.

(** After the filter, the keys of the target map add nothing to those of
    the source map, and under a key of the source map the filtered target
    map reads like the unfiltered one. *)
Lemma filtered_keys (dynamicSchema schema : DatabaseSchema) :
  newSet (keys (tableMap (sch_tables dynamicSchema))
          ++ keys (tableMap (filter (isIncluded dynamicSchema) (sch_tables schema))))
  = newSet (keys (tableMap (sch_tables dynamicSchema))).
Proof.
  destruct (newSet_app_extends (keys (tableMap (sch_tables dynamicSchema)))
              (keys (tableMap (filter (isIncluded dynamicSchema) (sch_tables schema)))))
    as (extra & -> & Hx).
  destruct extra as [|x extra]; [apply app_nil_r|]. exfalso.
  destruct (Hx x (or_introl eq_refl)) as [Ht Hn]. apply Hn.
  apply keys_own in Ht as (T & HT).
  apply obj_get_keyed_In in HT as [HT <-].
  apply filter_In in HT as [_ HT]. now apply isIncluded_key.
Qed.

Lemma filtered_read (dynamicSchema schema : DatabaseSchema) (key : string) :
  In key (keys (tableMap (sch_tables dynamicSchema))) ->
  obj_read (tableMap (filter (isIncluded dynamicSchema) (sch_tables schema))) key
  = obj_read (tableMap (sch_tables schema)) key.
Proof.
  intros Hin. unfold obj_read, tableMap. rewrite !obj_get_fromEntries.
  rewrite lastEntry_filter; [reflexivity|].
  intros T _ HT. apply keys_own in Hin as (S & HS).
  apply obj_get_keyed_In in HS as [HS E].
  eapply isIncluded_by_name; [exact HS | congruence].
Qed.

Lemma syncDiff_keys (dynamicSchema schema : DatabaseSchema) (ignoreExtra : bool) :
  diffTables (sch_tables dynamicSchema)
    (filter (isIncluded dynamicSchema) (sch_tables schema)) ignoreExtra
  = forEach
      (fun key =>
         diffTableRead (obj_read (tableMap (sch_tables dynamicSchema)) key)
           (obj_read (tableMap (sch_tables schema)) key))
      (newSet (keys (tableMap (sch_tables dynamicSchema)))).
Proof.
  unfold diffTables. rewrite filtered_keys. apply forEach_ext_on. intros key Hin.
  rewrite newSet_In in Hin. rewrite filtered_read by assumption.
  apply keys_own in Hin as (S & HS). rewrite (obj_read_own _ _ _ HS).
  cbn [truthy_read negb]. now rewrite andb_false_r.
Qed.

Lemma diffTables_ignore_keys (sources targets : list DatabaseTable) :
  exists extra,
    diffTables sources targets true
    = andThen
        (forEach
           (fun key =>
              diffTableRead (obj_read (tableMap sources) key)
                (obj_read (tableMap targets) key))
           (newSet (keys (tableMap sources))))
        (forEach
           (fun key =>
              if isPrototypeMember key then Throws else Returns [])
           extra)
    /\ forall key, In key extra ->
                   In key (keys (tableMap targets)) /\ ~ In key (keys (tableMap sources)).
Proof.
  unfold diffTables.
  destruct (newSet_app_extends (keys (tableMap sources)) (keys (tableMap targets)))
    as (extra & -> & Hx).
  exists extra. split; [|exact Hx].
  rewrite forEach_app. f_equal; apply forEach_ext_on; intros key Hin.
  - apply newSet_In, keys_own in Hin as (S & HS). rewrite (obj_read_own _ _ _ HS).
    cbn [truthy_read negb]. now rewrite andb_false_r.
  - destruct (Hx key Hin) as [_ Hn]. unfold obj_read at 1 2.
    destruct (obj_get (tableMap sources) key) as [S|] eqn:ES.
    + exfalso. apply Hn. eapply obj_get_keys, ES.
    + destruct (isPrototypeMember key); reflexivity.
Qed.

(** The driver filters the observed schema down to the declared tables
    before it asks for the diff with [ignoreExtraTables: true].  The filter
    changes the outcome only where the unfiltered call throws: when the
    unfiltered call completes, the filtered call completes alike, and the
    two calls agree whenever no table that the filter removes is called like
    a member of [Object.prototype].  Once the filter is applied, the option
    does not matter. *)
Theorem syncDiff_filter_redundant (dynamicSchema schema : DatabaseSchema) :
  (diff dynamicSchema schema (Some (mkDiffOptions (Some true))) = Throws
   \/ syncDiff dynamicSchema schema
      = diff dynamicSchema schema (Some (mkDiffOptions (Some true))))
  /\ ((forall T, In T (sch_tables schema) ->
                 isIncluded dynamicSchema T = false ->
                 isPrototypeMember (tbl_name T) = false) ->
      syncDiff dynamicSchema schema
      = diff dynamicSchema schema (Some (mkDiffOptions (Some true))))
  /\ diff dynamicSchema (includedOnly dynamicSchema schema)
       (Some (mkDiffOptions (Some false)))
     = syncDiff dynamicSchema schema.
Proof.
  unfold syncDiff, diff, includedOnly; cbn [sch_tables ignoreExtraTables].
  rewrite !syncDiff_keys.
  destruct (diffTables_ignore_keys (sch_tables dynamicSchema) (sch_tables schema))
    as (extra & -> & Hx).
  split; [|split; [|reflexivity]].
  - destruct (forEach_skips_or_throws
                (fun key => if isPrototypeMember key then @Throws (list Emitted)
                            else Returns []) extra) as [-> | ->].
    + intros key _. destruct (isPrototypeMember key); [now right | now left].
    + right. now rewrite andThen_nil_r.
    + left. apply andThen_throws_r.
  - intros Hplain. rewrite (forEach_nothing _ extra); [now rewrite andThen_nil_r|].
    intros key Hin. destruct (Hx key Hin) as [Ht Hn].
    apply keys_own in Ht as (T & HT). apply obj_get_keyed_In in HT as [HT <-].
    rewrite (Hplain T HT); [reflexivity|].
    destruct (isIncluded dynamicSchema T) eqn:E; [|reflexivity].
    exfalso. apply Hn. now apply isIncluded_key.
Qed.

Lemma syncDiff_filter_redundant_witness :
  syncDiff desiredSchema observedSchema
  = diff desiredSchema observedSchema (Some (mkDiffOptions (Some true)))
  /\ diff desiredSchema (includedOnly desiredSchema observedSchema)
       (Some (mkDiffOptions (Some false)))
     = syncDiff desiredSchema observedSchema.
Proof.
  destruct (syncDiff_filter_redundant desiredSchema observedSchema) as (_ & Hsame & Hoption).
  split; [|exact Hoption].
  apply Hsame. intros T [<- | []] _. reflexivity.
Defined.

(** Where the filter matters: with an observed table called [constructor]
    that is not declared, the filtered call returns and the unfiltered call
    throws. *)
Example syncDiff_filter_prevents_throw :
  syncDiff (mkSchema "public" []) (mkSchema "public" [mkTable "constructor" [] [] []])
  = Returns []
  /\ diff (mkSchema "public" []) (mkSchema "public" [mkTable "constructor" [] [] []])
       (Some (mkDiffOptions (Some true)))
     = Throws.
Proof. split; reflexivity. Qed.

(** *** No table is dropped unless asked for *)

Lemma diffColumn_no_table_delete s t :
  Forall (fun c => isTableDelete c = false) (diffColumn s t).
Proof.
  destruct s as [s|], t as [t|]; simpl; repeat constructor.
  destruct (negb (col_type s =? col_type t)); [repeat constructor|].
  match goal with |- context [if ?b then _ else _] => destruct b end; repeat constructor.
Qed.

Lemma diffConstraint_no_table_delete s t :
  Forall (fun c => isTableDelete c = false) (diffConstraint s t).
Proof.
  destruct s as [s|], t as [t|]; simpl; repeat constructor.
  destruct (con_type s);
    unfold diffPrimaryKeyConstraint, diffForeignKeyConstraint, diffUniqueConstraint,
      diffCheckConstraint;
    match goal with |- context [if ?b then _ else _] => destruct b end;
    repeat constructor.
Qed.

Lemma diffIndex_no_table_delete s t :
  Forall (fun c => isTableDelete c = false) (diffIndex s t).
Proof.
  destruct s as [s|], t as [t|]; simpl; repeat constructor.
  match goal with |- context [if ?b then _ else _] => destruct b end; repeat constructor.
Qed.

Lemma changes_drop_no_table (changes : list SchemaDiff) :
  Forall (fun c => isTableDelete c = false) changes ->
  Forall (fun record => dropsTable record = false) (map Change changes).
Proof. intros H. apply Forall_map. exact H. Qed.

Lemma diffTables_ignore_no_table_delete sources targets emitted :
  diffTables sources targets true = Returns emitted ->
  Forall (fun record => dropsTable record = false) emitted.
Proof.
  apply diffTables_returned_Forall.
  - intros s t. apply changes_drop_no_table, diffColumn_no_table_delete.
  - intros s t. apply changes_drop_no_table, diffConstraint_no_table_delete.
  - intros s t. apply changes_drop_no_table, diffIndex_no_table_delete.
  - reflexivity.
  - reflexivity.
  - reflexivity.
  - discriminate.
  - intros [] H; try reflexivity. now elim (H member).
  - discriminate.
Qed.

(** With [ignoreExtraTables] set, or left at its default, no list that
    [diff] returns holds a [table.delete], whatever the two schemas are:
    neither a well-formed one nor one built from a member of
    [Object.prototype]. *)
Theorem diff_ignoreExtraTables_never_drops_table (source target : DatabaseSchema) :
  (forall emitted,
      diff source target (Some (mkDiffOptions (Some true))) = Returns emitted ->
      Forall (fun record => dropsTable record = false) emitted)
  /\ (forall emitted,
         diff source target None = Returns emitted ->
         Forall (fun record => dropsTable record = false) emitted).
Proof.
  split; intros emitted; unfold diff; cbn [ignoreExtraTables];
    apply diffTables_ignore_no_table_delete.
Qed.

Lemma diff_ignoreExtraTables_never_drops_table_witness :
  exists emitted,
    diff desiredSchemaWithNewTable observedSchema None = Returns emitted
    /\ Forall (fun record => dropsTable record = false) emitted.
Proof.
  eexists. split; [reflexivity|].
  apply (proj2 (diff_ignoreExtraTables_never_drops_table
                  desiredSchemaWithNewTable observedSchema)).
  reflexivity.
Defined.

(** *** Where changes come from *)

Lemma columnChanges_from (sources targets : list DatabaseColumn) (change : SchemaDiff) :
  In change (columnChanges sources targets) ->
  match change with
  | ColumnCreate c => In c sources
  | ColumnDelete tn cn =>
      exists c, In c targets /\ tn = col_tableName c /\ cn = col_name c
  | ColumnUpdate s t => In s sources /\ In t targets /\ col_name s = col_name t
  | _ => False
  end.
Proof.
  unfold columnChanges. intros H. apply in_flat_map in H as (key & _ & H).
  destruct (obj_get (columnMap sources) key) as [s|] eqn:Es;
    destruct (obj_get (columnMap targets) key) as [t|] eqn:Et;
    try (apply obj_get_keyed_In in Es as [Hs Ks]);
    try (apply obj_get_keyed_In in Et as [Ht Kt]);
    unfold diffColumn, dropAndRecreateColumn in H.
  - destruct (negb (col_type s =? col_type t)).
    + destruct H as [<- | [<- | []]]; [now exists t | assumption].
    + match type of H with In _ (if ?b then _ else _) => destruct b end;
        [|destruct H].
      destruct H as [<- | []]. repeat split; try assumption. congruence.
  - destruct H as [<- | []]. assumption.
  - destruct H as [<- | []]. now exists t.
  - destruct H.
Qed.

Lemma constraintChanges_from (sources targets : list DatabaseConstraint)
      (change : SchemaDiff) :
  In change (constraintChanges sources targets) ->
  match change with
  | ConstraintCreate c => In c sources
  | ConstraintDelete tn cn =>
      exists c, In c targets /\ tn = con_tableName c /\ cn = con_name c
  | _ => False
  end.
Proof.
  unfold constraintChanges. intros H.
  apply in_flat_map in H as (type & _ & H).
  apply in_flat_map in H as (key & _ & H).
  unfold constraintMap in H.
  destruct (obj_get _ key) as [s|] eqn:Es in H;
    destruct (obj_get _ key) as [t|] eqn:Et in H;
    try (apply obj_get_keyed_In in Es as [Hs Ks]; apply filter_In in Hs as [Hs _]);
    try (apply obj_get_keyed_In in Et as [Ht Kt]; apply filter_In in Ht as [Ht _]);
    unfold diffConstraint, diffPrimaryKeyConstraint, diffForeignKeyConstraint,
      diffUniqueConstraint, diffCheckConstraint, dropAndRecreateConstraint in H.
  - destruct (con_type s);
      match type of H with In _ (if ?b then _ else _) => destruct b end;
      try destruct H as [<- | [<- | []]]; try destruct H;
      solve [now exists t | assumption].
  - destruct H as [<- | []]. assumption.
  - destruct H as [<- | []]. now exists t.
  - destruct H.
Qed.

Lemma indexChanges_from (sources targets : list DatabaseIndex) (change : SchemaDiff) :
  In change (indexChanges sources targets) ->
  match change with
  | IndexCreate i => In i sources
  | IndexDelete n => exists i, In i targets /\ n = idx_name i
  | _ => False
  end.
Proof.
  unfold indexChanges. intros H. apply in_flat_map in H as (key & _ & H).
  destruct (obj_get (indexMap sources) key) as [s|] eqn:Es;
    destruct (obj_get (indexMap targets) key) as [t|] eqn:Et;
    try (apply obj_get_keyed_In in Es as [Hs Ks]);
    try (apply obj_get_keyed_In in Et as [Ht Kt]);
    unfold diffIndex, dropAndRecreateIndex in H.
  - match type of H with In _ (if ?b then _ else _) => destruct b end;
      [|destruct H].
    destruct H as [<- | [<- | []]]; [now exists t | assumption].
  - destruct H as [<- | []]. assumption.
  - destruct H as [<- | []]. now exists t.
  - destruct H.
Qed.

Lemma schemaChanges_from
      (source target : DatabaseSchema) (options : option DiffOptions) :
  Forall (changeFrom source target) (schemaChanges source target options).
Proof.
  apply Forall_forall. intros change H.
  unfold schemaChanges, tablesChanges in H. apply in_flat_map in H as (key & _ & H).
  match type of H with In _ (if ?b then _ else _) => destruct b end; [destruct H|].
  destruct (obj_get (tableMap (sch_tables source)) key) as [S|] eqn:ES;
    destruct (obj_get (tableMap (sch_tables target)) key) as [T|] eqn:ET;
    try (apply obj_get_keyed_In in ES as [HS KS]);
    try (apply obj_get_keyed_In in ET as [HT KT]);
    cbn [tableChanges] in H.
  - apply in_app_or in H as [H | H]; [|apply in_app_or in H as [H | H]].
    + apply columnChanges_from in H. destruct change; try contradiction; simpl.
      * now exists S.
      * destruct H as (Hs & Ht & E). exists S, T. repeat split; try assumption. congruence.
      * destruct H as (c & Hc & -> & ->). now exists T, c.
    + apply constraintChanges_from in H. destruct change; try contradiction; simpl.
      * now exists S.
      * destruct H as (c & Hc & -> & ->). now exists T, c.
    + apply indexChanges_from in H. destruct change; try contradiction; simpl.
      * now exists S.
      * destruct H as (i & Hi & ->). now exists T, i.
  - destruct H as [<- | H]; [simpl; now exists S|].
    apply in_app_or in H as [H | H].
    + apply indexChanges_from in H. destruct change; try contradiction; simpl.
      * now exists S.
      * destruct H as (i & [] & _).
    + apply constraintChanges_from in H. destruct change; try contradiction; simpl.
      * now exists S.
      * destruct H as (c & [] & _).
  - destruct H as [<- | []]. simpl. now exists T.
  - destruct H.
Qed.

(** For schemas with ordinary names and whatever the options, [diff]
    returns a list of well-formed changes that creates only what the source
    schema holds and deletes only what the target schema holds: the columns
    of a [table.create] are those of a source table, a [column.create],
    [constraint.create] or [index.create] carries an item of a source
    table, every delete names an item (or table) of the target schema, and a
    [column.update] pairs two columns of one name from tables of one name. *)
Theorem diff_changes_come_from_schemas
        (source target : DatabaseSchema) (options : option DiffOptions) :
  ordinarySchema source = true -> ordinarySchema target = true ->
  exists changes,
    diff source target options = Returns (map Change changes)
    /\ Forall (changeFrom source target) changes.
Proof.
  intros Hs Ht. exists (schemaChanges source target options).
  split; [now apply diff_ordinary | apply schemaChanges_from].
Qed.

Lemma diff_changes_come_from_schemas_witness :
  exists changes,
    diff desiredSchemaWithNewTable observedSchema None = Returns (map Change changes)
    /\ Forall (changeFrom desiredSchemaWithNewTable observedSchema) changes.
Proof.
  apply (diff_changes_come_from_schemas desiredSchemaWithNewTable observedSchema None);
    reflexivity.
Defined.

(** With an index called [toString] that only the source table has, the read
    of the target map finds the member of [Object.prototype]: the list
    deletes an index that the target does not hold. *)
Example diff_index_named_toString :
  diff (mkSchema "public"
          [mkTable "Table1" []
             [mkIndex "toString" "Table1" (Some ["Column1"]) None (Some false) None None] []])
       (mkSchema "public" [mkTable "Table1" [] [] []]) None
  = Returns
      [Change (IndexDelete "toString");
       Change (IndexCreate (mkIndex "toString" "Table1" (Some ["Column1"]) None
                              (Some false) None None))].
Proof. reflexivity. Qed.

(** *** What the comparisons look at *)

Lemma neq_ostr_false (a b : option string) : neq_ostr a b = false <-> a = b.
Proof.
  destruct a as [x|], b as [y|]; simpl; split; intros H;
    try discriminate; try reflexivity.
  - apply negb_false_iff, String.eqb_eq in H. now subst.
  - inversion H; subst. now rewrite String.eqb_refl.
Qed.

Lemma neq_obool_false (a b : option bool) : neq_obool a b = false <-> a = b.
Proof.
  destruct a as [[|]|], b as [[|]|]; simpl; split; intros H;
    try discriminate; reflexivity.
Qed.

Lemma eqb_negb_false (a b : bool) : negb (Bool.eqb a b) = false <-> a = b.
Proof. destruct a, b; simpl; split; intros H; try discriminate; reflexivity. Qed.

Lemma string_neqb_false (a b : string) : negb (a =? b) = false <-> a = b.
Proof. rewrite negb_false_iff. apply String.eqb_eq. Qed.

(** Two columns of one name compare as unchanged exactly when they agree on
    [type], [nullable], [primary], [default] and [isArray].  The enum
    [values], [numericPrecision], [numericScale] and [tableName] are never
    looked at: a column that differs from another only in those yields no
    change. *)
Theorem diffColumn_unchanged_iff (s t : DatabaseColumn) :
  (diffColumn (Some s) (Some t) = []
   <-> col_type s = col_type t
       /\ col_nullable s = col_nullable t
       /\ col_primary s = col_primary t
       /\ col_default s = col_default t
       /\ col_isArray s = col_isArray t)
  /\ forall tableName values precision scale,
      diffColumn (Some s)
        (Some (mkColumn (col_name s) tableName (col_type s) (col_nullable s)
                 (col_isArray s) (col_primary s) (col_default s)
                 values precision scale)) = [].
Proof.
  assert (Hiff : diffColumn (Some s) (Some t) = []
                 <-> col_type s = col_type t
                     /\ col_nullable s = col_nullable t
                     /\ col_primary s = col_primary t
                     /\ col_default s = col_default t
                     /\ col_isArray s = col_isArray t).
  { unfold diffColumn, dropAndRecreateColumn.
    rewrite <- (string_neqb_false (col_type s) (col_type t)),
      <- (eqb_negb_false (col_nullable s) (col_nullable t)),
      <- (neq_obool_false (col_primary s) (col_primary t)),
      <- (neq_ostr_false (col_default s) (col_default t)),
      <- (eqb_negb_false (col_isArray s) (col_isArray t)).
    destruct (negb (col_type s =? col_type t)),
      (negb (Bool.eqb (col_nullable s) (col_nullable t))),
      (neq_obool (col_primary s) (col_primary t)),
      (neq_ostr (col_default s) (col_default t)),
      (negb (Bool.eqb (col_isArray s) (col_isArray t)));
      simpl; split; intros H; try discriminate H; try reflexivity;
      try (repeat split; reflexivity);
      destruct H as (? & ? & ? & ? & ?); discriminate. }
  split; [exact Hiff|].
  intros. unfold diffColumn. simpl. now autorewrite with self_diff.
Qed.

(** Two indexes of one name compare as unchanged exactly when
    [haveEqualColumns] accepts their column lists and they agree on
    [expression], [unique] and [where].  The access method [using] and the
    [tableName] are never looked at. *)
Theorem diffIndex_unchanged_iff (s t : DatabaseIndex) :
  (diffIndex (Some s) (Some t) = []
   <-> haveEqualColumns (idx_columnNames s) (idx_columnNames t) = true
       /\ idx_expression s = idx_expression t
       /\ idx_unique s = idx_unique t
       /\ idx_where s = idx_where t)
  /\ forall tableName method,
      diffIndex (Some s)
        (Some (mkIndex (idx_name s) tableName (idx_columnNames s) (idx_expression s)
                 (idx_unique s) method (idx_where s))) = [].
Proof.
  split.
  - unfold diffIndex, dropAndRecreateIndex.
    rewrite <- (neq_ostr_false (idx_expression s) (idx_expression t)),
      <- (neq_obool_false (idx_unique s) (idx_unique t)),
      <- (neq_ostr_false (idx_where s) (idx_where t)).
    destruct (haveEqualColumns (idx_columnNames s) (idx_columnNames t)),
      (neq_ostr (idx_expression s) (idx_expression t)),
      (neq_obool (idx_unique s) (idx_unique t)),
      (neq_ostr (idx_where s) (idx_where t));
      simpl; split; intros H; try discriminate H; try reflexivity;
      try (repeat split; reflexivity);
      destruct H as (? & ? & ? & ?); discriminate.
  - intros. unfold diffIndex. simpl. now autorewrite with self_diff.
Qed.

(** *** Objects whose entries have pairwise distinct keys *)






Lemma keys_NoDup {V : Type} (o : JsObject V) : NoDup (map fst o) -> NoDup (keys o).
Proof.
  intros H. eapply Permutation_NoDup; [symmetry; apply keys_perm | exact H].
Qed.




(** *** A table that only the source schema has *)

Lemma obj_set_keys {V : Type} (o : JsObject V) (k : string) (v : V) :
  map fst (obj_set k v o)
  = if set_has (map fst o) k then map fst o else (map fst o ++ [k])%list.
Proof.
  induction o as [|[k' v'] o IH]; simpl; [reflexivity|].
  destruct (k' =? k) eqn:E; simpl.
  - apply String.eqb_eq in E. now subst.
  - rewrite IH. unfold set_has.
    now destruct (existsb (fun y => y =? k) (map fst o)).
Qed.

Lemma obj_set_NoDup {V : Type} (o : JsObject V) (k : string) (v : V) :
  NoDup (map fst o) -> NoDup (map fst (obj_set k v o)).
Proof.
  intros H. rewrite obj_set_keys. destruct (set_has (map fst o) k) eqn:E; [exact H|].
  apply NoDup_app; [exact H | repeat constructor; intros [] |].
  intros x Hx [<- | []]. apply set_has_In in Hx. congruence.
Qed.












(** The records that are no well-formed changes.  A column called
    [toString] that only the source table has is compared with the member
    of [Object.prototype] that the read of the target map finds: the list
    holds a [column.delete] without a table name before the [column.create].
    A column called [valueOf] that only the target table has is deleted, and
    a [column.create] is emitted whose column is the member. *)
Example diff_column_named_like_member :
  diff (mkSchema "public" [mkTable "Table1" [sampleColumn "toString" "uuid" None] [] []])
       (mkSchema "public" [mkTable "Table1" [] [] []]) None
  = Returns [Stray (StrayColumnDelete "toString");
             Change (ColumnCreate (sampleColumn "toString" "uuid" None))]
  /\ diff (mkSchema "public" [mkTable "Table1" [] [] []])
          (mkSchema "public" [mkTable "Table1" [sampleColumn "valueOf" "uuid" None] [] []])
          None
     = Returns [Change (ColumnDelete "Table1" "valueOf");
                Stray (StrayColumnCreate "valueOf")].
Proof. split; reflexivity. Qed.

(* ================================================================== *)
(** ** More about the DDL emitter *)
(* ================================================================== *)

Lemma asSql_shape (item : SchemaDiff) :
  if emitsSql item
  then exists statement, asSql item = Sql statement
  else asSql item = SqlList [].
Proof.
  destruct item; simpl; try (eexists; reflexivity).
  - destruct (negb (Bool.eqb (col_nullable source) (col_nullable target)));
      [destruct (col_nullable source); eexists; reflexivity | reflexivity].
  - destruct constraint; eexists; reflexivity.
Qed.

(** [diffToSql] yields at most one statement per change, in the order of
    the changes: exactly one for every change except a [column.update] whose
    two columns have the same nullability, which yields none. *)
Theorem diffToSql_one_statement_per_change (items : list SchemaDiff) :
  List.length (diffToSql items) = List.length (filter emitsSql items)
  /\ List.length (diffToSql items) <= List.length items
  /\ forall before after,
      diffToSql (before ++ after) = (diffToSql before ++ diffToSql after)%list.
Proof.
  assert (H : List.length (diffToSql items) = List.length (filter emitsSql items)).
  { induction items as [|item items IH]; [reflexivity|].
    unfold diffToSql in *. cbn [flat_map filter]. rewrite length_app, IH.
    pose proof (asSql_shape item) as Hs. destruct (emitsSql item).
    - destruct Hs as (statement & ->). reflexivity.
    - rewrite Hs. reflexivity. }
  split; [exact H|]. split.
  - rewrite H. apply filter_length_le.
  - apply diffToSql_app.
Qed.

Lemma asColumnsNames_permutation (a b : list string) :
  Permutation a b -> asColumnsNames a = asColumnsNames b.
Proof.
  intros H. unfold asColumnsNames. now rewrite (toSorted_permutation a b H).
Qed.

(** The statements for PRIMARY_KEY, UNIQUE and FOREIGN_KEY constraints and
    for indexes do not depend on the order in which the column names are
    listed. *)
Theorem sql_ignores_column_order
        (cols cols' refCols refCols' : list string) :
  Permutation cols cols' ->
  Permutation refCols refCols' ->
  (forall name tableName,
      asConstraintSql (PrimaryKeyConstraint name tableName cols)
      = asConstraintSql (PrimaryKeyConstraint name tableName cols')
      /\ asConstraintSql (UniqueConstraint name tableName cols)
         = asConstraintSql (UniqueConstraint name tableName cols'))
  /\ (forall name tableName referenceTableName onUpdate onDelete,
         asConstraintSql (ForeignKeyConstraint name tableName cols referenceTableName
                            refCols onUpdate onDelete)
         = asConstraintSql (ForeignKeyConstraint name tableName cols' referenceTableName
                              refCols' onUpdate onDelete))
  /\ (forall index,
         asSql (IndexCreate (withIndexColumns (Some cols) index))
         = asSql (IndexCreate (withIndexColumns (Some cols') index))).
Proof.
  intros Hc Hr.
  pose proof (asColumnsNames_permutation _ _ Hc) as Ec.
  pose proof (asColumnsNames_permutation _ _ Hr) as Er.
  split; [|split].
  - intros. unfold asConstraintSql. cbn [con_tableName con_name]. now rewrite Ec.
  - intros. unfold asConstraintSql, withAction.
    cbn [con_tableName con_name con_onDelete con_onUpdate]. now rewrite Ec, Er.
  - intros. unfold asSql, indexCreateSql, withIndexColumns.
    cbn [idx_name idx_tableName idx_columnNames idx_expression idx_unique idx_using
           idx_where]. now rewrite Ec.
Qed.

Lemma sql_ignores_column_order_witness :
  asConstraintSql (UniqueConstraint "UQ_1" "Table1" ["Column2"; "Column1"])
  = asConstraintSql (UniqueConstraint "UQ_1" "Table1" ["Column1"; "Column2"])
  /\ asSql (IndexCreate (withIndexColumns (Some ["Column2"; "Column1"]) uniqueIndex))
     = asSql (IndexCreate (withIndexColumns (Some ["Column1"; "Column2"]) uniqueIndex)).
Proof.
  destruct (sql_ignores_column_order ["Column2"; "Column1"] ["Column1"; "Column2"]
              ["Id"] ["Id"] (perm_swap _ _ _) (Permutation_refl _))
    as (Hk & _ & Hi).
  split; [apply (Hk "UQ_1" "Table1") | apply (Hi uniqueIndex)].
Defined.

(** A default that is the empty string counts as no default when SQL is
    written: the column is created without a [DEFAULT] clause, exactly like
    the same column with no default.  The comparison does tell the two
    apart, so their diff is a [column.update], for which no SQL is written. *)
Theorem empty_default_emits_no_clause (column : DatabaseColumn) :
  col_default column = Some EmptyString ->
  asSql (ColumnCreate column) = asSql (ColumnCreate (withColumnDefault None column))
  /\ (forall tableName,
         asSql (TableCreate tableName [column])
         = asSql (TableCreate tableName [withColumnDefault None column]))
  /\ diffColumn (Some column) (Some (withColumnDefault None column))
     = [ColumnUpdate column (withColumnDefault None column)]
  /\ diffToSql (diffColumn (Some column) (Some (withColumnDefault None column))) = [].
Proof.
  intros H.
  assert (Hd : withDefault column = withDefault (withColumnDefault None column)).
  { unfold withDefault. now rewrite H. }
  assert (Hdiff : diffColumn (Some column) (Some (withColumnDefault None column))
                  = [ColumnUpdate column (withColumnDefault None column)]).
  { unfold diffColumn, withColumnDefault. simpl. rewrite H.
    autorewrite with self_diff. reflexivity. }
  split; [|split; [|split]].
  - unfold asSql. now rewrite Hd.
  - intros. unfold asSql, columnSql. cbn [map]. now rewrite Hd.
  - exact Hdiff.
  - rewrite Hdiff. unfold diffToSql. simpl. now rewrite Bool.eqb_reflx.
Qed.

Lemma empty_default_emits_no_clause_witness :
  asSql (ColumnCreate emptyDefaultColumn)
  = Sql ("ALTER TABLE " ++ quoted "users" ++ " ADD " ++ quoted "password"
           ++ " character varying NOT NULL;")
  /\ diffToSql (diffColumn (Some emptyDefaultColumn)
                  (Some (withColumnDefault None emptyDefaultColumn))) = [].
Proof.
  destruct (empty_default_emits_no_clause emptyDefaultColumn eq_refl)
    as (H1 & _ & _ & H4).
  split; [rewrite H1; reflexivity | exact H4].
Defined.

(* ================================================================== *)
(** ** The catalog introspector *)
(* ================================================================== *)

Lemma concat_map_singleton {A : Type} (l : list A) :
  List.concat (map (fun x => [x]) l) = l.
Proof. induction l as [|x l IH]; simpl; [reflexivity | now rewrite IH]. Qed.

Section PushInto.
Context {R X : Type}.
Variable key : R -> string.
Variable item : R -> option X.
Variable push : X -> DatabaseTable -> DatabaseTable.

Lemma attach_keys (m : JsObject DatabaseTable) (row : R) :
  map fst (attach key item push m row) = map fst m.
Proof.
  unfold attach. destruct (obj_get m (key row)) as [t|] eqn:E; [|reflexivity].
  destruct (item row); [|reflexivity].
  rewrite obj_set_keys.
  assert (H : set_has (map fst m) (key row) = true).
  { apply set_has_In. eapply obj_get_In, E. }
  now rewrite H.
Qed.

Lemma fold_attach_keys (rows : list R) (m : JsObject DatabaseTable) :
  map fst (fold_left (attach key item push) rows m) = map fst m.
Proof.
  revert m. induction rows as [|r rows IH]; intros m; simpl; [reflexivity|].
  now rewrite IH, attach_keys.
Qed.

Lemma collect_cons (k : string) (r : R) (rows : list R) :
  collect key item k (r :: rows)
  = ((if key r =? k then match item r with Some x => [x] | None => [] end else [])
       ++ collect key item k rows)%list.
Proof.
  unfold collect. simpl. now destruct (key r =? k).
Qed.

Lemma attach_get_other (m : JsObject DatabaseTable) (r : R) (k : string) :
  (key r =? k) = false -> obj_get (attach key item push m r) k = obj_get m k.
Proof.
  intros E. unfold attach.
  destruct (obj_get m (key r)) as [t|]; [|reflexivity].
  destruct (item r) as [x|]; [|reflexivity].
  now rewrite obj_get_set_other.
Qed.

Lemma fold_attach_get (rows : list R) (m : JsObject DatabaseTable) (k : string) :
  obj_get (fold_left (attach key item push) rows m) k
  = option_map (fun t => fold_left (fun t x => push x t) (collect key item k rows) t)
      (obj_get m k).
Proof.
  revert m. induction rows as [|r rows IH]; intros m.
  - simpl. now destruct (obj_get m k).
  - cbn [fold_left]. rewrite IH.
    destruct (key r =? k) eqn:E.
    + unfold attach. apply String.eqb_eq in E. rewrite E.
      destruct (obj_get m k) as [t|] eqn:Em; rewrite ?Em; [|reflexivity].
      destruct (item r) as [x|] eqn:Ei.
      * rewrite obj_get_set_same. cbn [option_map]. rewrite collect_cons, E, Ei.
        rewrite String.eqb_refl. reflexivity.
      * rewrite Em. cbn [option_map]. rewrite collect_cons, E, Ei.
        rewrite String.eqb_refl. reflexivity.
    + rewrite attach_get_other by assumption.
      destruct (obj_get m k) as [t|]; [|reflexivity].
      cbn [option_map]. now rewrite collect_cons, E.
Qed.

(** Under the invariant [noMemberKeys] a pass throws exactly at the rows
    singled out by [throwingRow], and completes like [attach] otherwise. *)
Lemma attach_noMemberKeys (m : JsObject DatabaseTable) (row : R) :
  noMemberKeys m -> noMemberKeys (attach key item push m row).
Proof.
  intros H k Hk. destruct (key row =? k) eqn:E.
  - apply String.eqb_eq in E. unfold attach. rewrite E, (H k Hk). now apply H.
  - rewrite attach_get_other by assumption. now apply H.
Qed.

Lemma fold_attach_noMemberKeys (rows : list R) (m : JsObject DatabaseTable) :
  noMemberKeys m -> noMemberKeys (fold_left (attach key item push) rows m).
Proof.
  revert m. induction rows as [|r rows IH]; intros m H; simpl; [exact H|].
  now apply IH, attach_noMemberKeys.
Qed.

Lemma pushInto_outcome (m : JsObject DatabaseTable) (row : R) :
  noMemberKeys m ->
  pushInto key item push m row
  = if throwingRow key item row then Throws
    else Returns (attach key item push m row).
Proof.
  intros H. unfold pushInto, attach, throwingRow, obj_read.
  destruct (isPrototypeMember (key row)) eqn:Ek.
  - rewrite (H _ Ek). now destruct (item row).
  - destruct (obj_get m (key row)); [destruct (item row)|]; reflexivity.
Qed.

Lemma forRows_outcome (rows : list R) (m : JsObject DatabaseTable) :
  noMemberKeys m ->
  forRows (pushInto key item push) rows m
  = if existsb (throwingRow key item) rows then Throws
    else Returns (fold_left (attach key item push) rows m).
Proof.
  revert m. induction rows as [|r rows IH]; intros m H; [reflexivity|].
  cbn [forRows existsb fold_left]. rewrite pushInto_outcome by assumption.
  destruct (throwingRow key item r); [reflexivity|].
  cbn [whenReturned orb]. now apply IH, attach_noMemberKeys.
Qed.

End PushInto.

Lemma fold_pushColumn (items : list DatabaseColumn) (t : DatabaseTable) :
  fold_left (fun t x => pushColumn x t) items t
  = mkTable (tbl_name t) (tbl_columns t ++ items) (tbl_indexes t) (tbl_constraints t).
Proof.
  revert t. induction items as [|x items IH]; intros t; simpl.
  - rewrite app_nil_r. now destruct t.
  - rewrite IH. simpl. now rewrite <- app_assoc.
Qed.

Lemma fold_pushIndex (items : list DatabaseIndex) (t : DatabaseTable) :
  fold_left (fun t x => pushIndex x t) items t
  = mkTable (tbl_name t) (tbl_columns t) (tbl_indexes t ++ items) (tbl_constraints t).
Proof.
  revert t. induction items as [|x items IH]; intros t; simpl.
  - rewrite app_nil_r. now destruct t.
  - rewrite IH. simpl. now rewrite <- app_assoc.
Qed.

Lemma fold_pushConstraint (items : list DatabaseConstraint) (t : DatabaseTable) :
  fold_left (fun t x => pushConstraint x t) items t
  = mkTable (tbl_name t) (tbl_columns t) (tbl_indexes t) (tbl_constraints t ++ items).
Proof.
  revert t. induction items as [|x items IH]; intros t; simpl.
  - rewrite app_nil_r. now destruct t.
  - rewrite IH. simpl. now rewrite <- app_assoc.
Qed.

(** The tables loop adds a table for every name that is not yet an own
    property and not the name of a member of [Object.prototype]. *)
Lemma addTable_cases (m : JsObject DatabaseTable) (r : TableRow) :
  addTable m r
  = match obj_get m (trow_table_name r) with
    | Some _ => m
    | None =>
        if isPrototypeMember (trow_table_name r) then m
        else obj_set (trow_table_name r) (mkTable (trow_table_name r) [] [] []) m
    end.
Proof.
  unfold addTable, obj_read. destruct (obj_get m (trow_table_name r)); [reflexivity|].
  now destruct (isPrototypeMember (trow_table_name r)).
Qed.

Lemma fold_addTable_get (rows : list TableRow) (m : JsObject DatabaseTable) (k : string) :
  obj_get (fold_left addTable rows m) k
  = match obj_get m k with
    | Some t => Some t
    | None =>
        if existsb (fun r => trow_table_name r =? k) rows && negb (isPrototypeMember k)
        then Some (mkTable k [] [] [])
        else None
    end.
Proof.
  revert m. induction rows as [|r rows IH]; intros m.
  - simpl. now destruct (obj_get m k).
  - cbn [fold_left existsb]. rewrite IH, addTable_cases.
    destruct (obj_get m (trow_table_name r)) as [t|] eqn:Er.
    + destruct (obj_get m k) as [t'|] eqn:Ek; [reflexivity|].
      destruct (trow_table_name r =? k) eqn:E; [|reflexivity].
      apply String.eqb_eq in E. congruence.
    + destruct (trow_table_name r =? k) eqn:E.
      * apply String.eqb_eq in E. rewrite E in *.
        destruct (isPrototypeMember k) eqn:Ek.
        -- rewrite Er. now rewrite andb_false_r.
        -- now rewrite obj_get_set_same, Er.
      * destruct (isPrototypeMember (trow_table_name r)); [reflexivity|].
        rewrite obj_get_set_other by assumption. reflexivity.
Qed.

Lemma fold_addTable_NoDup (rows : list TableRow) (m : JsObject DatabaseTable) :
  NoDup (map fst m) -> NoDup (map fst (fold_left addTable rows m)).
Proof.
  revert m. induction rows as [|r rows IH]; intros m H; simpl; [exact H|].
  apply IH. rewrite addTable_cases.
  destruct (obj_get m (trow_table_name r)); [exact H|].
  destruct (isPrototypeMember (trow_table_name r)); [exact H|].
  now apply obj_set_NoDup.
Qed.

Lemma fold_addTable_noMemberKeys (rows : list TableRow) :
  noMemberKeys (fold_left addTable rows []).
Proof.
  intros k Hk. rewrite fold_addTable_get. cbn [obj_get].
  now rewrite Hk, andb_false_r.
Qed.

Lemma loadedTablesMap_get tables columns indexes constraints enums (k : string) :
  obj_get (loadedTablesMap tables columns indexes constraints enums) k
  = if existsb (fun r => trow_table_name r =? k) tables && negb (isPrototypeMember k)
    then Some (loadedTable k columns indexes constraints enums)
    else None.
Proof.
  unfold loadedTablesMap. rewrite !fold_attach_get, fold_addTable_get. simpl.
  destruct (existsb _ tables && negb (isPrototypeMember k)); [|reflexivity]. simpl.
  rewrite fold_pushColumn, fold_pushIndex, fold_pushConstraint. reflexivity.
Qed.

Lemma loadedTablesMap_NoDup tables columns indexes constraints enums :
  NoDup (map fst (loadedTablesMap tables columns indexes constraints enums)).
Proof.
  unfold loadedTablesMap. rewrite !fold_attach_keys.
  apply fold_addTable_NoDup. constructor.
Qed.

(** [loadSchema] throws when one of its passes does, and returns the tables
    of the map that the passes have built otherwise. *)
Lemma loadSchema_outcome options tables columns indexes constraints enums :
  loadSchema options tables columns indexes constraints enums
  = if loadSchemaThrows columns indexes constraints enums then Throws
    else Returns (mkSchema (loadedSchemaName options)
                    (obj_values (loadedTablesMap tables columns indexes constraints enums))).
Proof.
  unfold loadSchema, loadSchemaThrows, loadedTablesMap.
  rewrite forRows_outcome by apply fold_addTable_noMemberKeys.
  destruct (existsb _ columns); [reflexivity|]. cbn [whenReturned orb].
  rewrite forRows_outcome
    by apply fold_attach_noMemberKeys, fold_addTable_noMemberKeys.
  destruct (existsb _ indexes); [reflexivity|]. cbn [whenReturned orb].
  rewrite forRows_outcome
    by apply fold_attach_noMemberKeys, fold_attach_noMemberKeys, fold_addTable_noMemberKeys.
  destruct (existsb _ constraints); reflexivity.
Qed.

Lemma loadSchema_returned options tables columns indexes constraints enums schema :
  loadSchema options tables columns indexes constraints enums = Returns schema ->
  sch_tables schema = obj_values (loadedTablesMap tables columns indexes constraints enums).
Proof.
  rewrite loadSchema_outcome. destruct (loadSchemaThrows _ _ _ _); [discriminate|].
  intros H. apply Returns_inj in H. now subst schema.
Qed.

Lemma existsb_name_In (tables : list TableRow) (k : string) :
  existsb (fun r => trow_table_name r =? k) tables = true
  <-> In k (map trow_table_name tables).
Proof.
  rewrite existsb_exists, in_map_iff. split.
  - intros (r & Hr & E). apply String.eqb_eq in E. now exists r.
  - intros (r & E & Hr). exists r. split; [assumption|]. now apply String.eqb_eq.
Qed.

Lemma loaded_values tables columns indexes constraints enums :
  obj_values (loadedTablesMap tables columns indexes constraints enums)
  = map (fun k => loadedTable k columns indexes constraints enums)
      (keys (loadedTablesMap tables columns indexes constraints enums)).
Proof.
  unfold obj_values. rewrite flat_map_concat_map. 
  rewrite <- (concat_map_singleton
                (map (fun k => loadedTable k columns indexes constraints enums)
                   (keys (loadedTablesMap tables columns indexes constraints enums)))).
  rewrite map_map. f_equal. apply map_ext_in. intros k Hk.
  apply keys_own in Hk as (v & Hv). rewrite Hv.
  rewrite loadedTablesMap_get in Hv.
  destruct (existsb _ tables && negb (isPrototypeMember k)); congruence.
Qed.

Lemma loadedTablesMap_key_iff tables columns indexes constraints enums (k : string) :
  In k (keys (loadedTablesMap tables columns indexes constraints enums))
  <-> In k (map trow_table_name tables) /\ isPrototypeMember k = false.
Proof.
  rewrite <- existsb_name_In, <- negb_true_iff, <- andb_true_iff. split.
  - intros H. apply keys_own in H as (v & Hv). rewrite loadedTablesMap_get in Hv.
    destruct (existsb _ tables && negb (isPrototypeMember k)); [reflexivity | discriminate].
  - intros H. apply obj_get_keys with (v := loadedTable k columns indexes constraints enums).
    now rewrite loadedTablesMap_get, H.
Qed.

(** Whenever [loadSchema] returns, it returns exactly one table for every
    distinct name that the tables query reports and that is not the name of
    a member of [Object.prototype], and no other table: the names of the
    returned tables are pairwise distinct, and a name is among them exactly
    when a row of the tables query carries it and no such member does. *)
Theorem loadSchema_one_table_per_name
        (options : option LoadSchemaOptions) (tables : list TableRow)
        (columns : list ColumnRow) (indexes : list IndexRow)
        (constraints : list ConstraintRow) (enums : list EnumRow)
        (schema : DatabaseSchema) :
  loadSchema options tables columns indexes constraints enums = Returns schema ->
  NoDup (map tbl_name (sch_tables schema))
  /\ forall name,
      In name (map tbl_name (sch_tables schema))
      <-> In name (map trow_table_name tables) /\ isPrototypeMember name = false.
Proof.
  intros H. rewrite (loadSchema_returned _ _ _ _ _ _ _ H), loaded_values, map_map.
  cbn [loadedTable tbl_name]. rewrite map_id. split.
  - apply keys_NoDup, loadedTablesMap_NoDup.
  - intros name. apply loadedTablesMap_key_iff.
Qed.

Lemma loadSchema_one_table_per_name_witness :
  exists schema,
    loadSchema None [mkTableRow "Table1"; mkTableRow "toString"; mkTableRow "Table1"]
      [sampleColumnRow] [] [checkRow; foreignKeyRow] []
    = Returns schema
    /\ map tbl_name (sch_tables schema) = ["Table1"]
    /\ forall name,
        In name (map tbl_name (sch_tables schema))
        <-> In name ["Table1"; "toString"; "Table1"] /\ isPrototypeMember name = false.
Proof.
  eexists. split; [reflexivity|]. split; [reflexivity|].
  apply (loadSchema_one_table_per_name None
           [mkTableRow "Table1"; mkTableRow "toString"; mkTableRow "Table1"]
           [sampleColumnRow] [] [checkRow; foreignKeyRow] []).
  reflexivity.
Defined.

Lemma loadSchema_grouping
        (tables : list TableRow)
        (columns : list ColumnRow) (indexes : list IndexRow)
        (constraints : list ConstraintRow) (enums : list EnumRow) :
  Forall
    (fun table =>
       tbl_columns table
       = collect row_table_name
           (catalogColumn (fromEntries (map (fun e => (erow_name e, erow_values e)) enums)))
           (tbl_name table) columns
       /\ tbl_indexes table
          = collect irow_table_name (fun index => Some (catalogIndex index))
              (tbl_name table) indexes
       /\ tbl_constraints table
          = collect crow_table_name catalogConstraint (tbl_name table) constraints)
    (obj_values (loadedTablesMap tables columns indexes constraints enums)).
Proof.
  rewrite loaded_values. apply Forall_forall.
  intros table H. apply in_map_iff in H as (k & <- & _). repeat split.
Qed.

(** [loadSchema] throws exactly when a row that is not skipped names a table
    called like a member of [Object.prototype]: the read of [tablesMap]
    finds the member, which has no array to push to.  Otherwise it returns,
    with the rows grouped by table: the columns of a returned table are the
    columns built from the column rows that name the table, in row order and
    without the rows that are skipped; likewise its indexes and its
    constraints.  Rows that name a table which the tables query did not
    report end up nowhere. *)
Theorem loadSchema_groups_rows
        (options : option LoadSchemaOptions) (tables : list TableRow)
        (columns : list ColumnRow) (indexes : list IndexRow)
        (constraints : list ConstraintRow) (enums : list EnumRow) :
  (loadSchemaThrows columns indexes constraints enums = true ->
   loadSchema options tables columns indexes constraints enums = Throws)
  /\ (loadSchemaThrows columns indexes constraints enums = false ->
      exists schema,
        loadSchema options tables columns indexes constraints enums = Returns schema
        /\ sch_name schema = loadedSchemaName options
        /\ Forall
             (fun table =>
                tbl_columns table
                = collect row_table_name
                    (catalogColumn
                       (fromEntries (map (fun e => (erow_name e, erow_values e)) enums)))
                    (tbl_name table) columns
                /\ tbl_indexes table
                   = collect irow_table_name (fun index => Some (catalogIndex index))
                       (tbl_name table) indexes
                /\ tbl_constraints table
                   = collect crow_table_name catalogConstraint (tbl_name table) constraints)
             (sch_tables schema)).
Proof.
  rewrite loadSchema_outcome. split; intros ->; [reflexivity|].
  eexists. split; [reflexivity|]. split; [reflexivity|].
  apply loadSchema_grouping.
Qed.

Lemma loadSchema_groups_rows_witness :
  loadSchema None [mkTableRow "Table1"] []
    [mkIndexRow "IDX_1" "toString" false None None (Some ["Column1"])] [] []
  = Throws
  /\ exists schema,
      loadSchema None [mkTableRow "Table1"] [sampleColumnRow] []
        [checkRow; foreignKeyRow] []
      = Returns schema
      /\ sch_name schema = "public".
Proof.
  split.
  - apply (proj1 (loadSchema_groups_rows None [mkTableRow "Table1"] []
                    [mkIndexRow "IDX_1" "toString" false None None (Some ["Column1"])]
                    [] [])).
    reflexivity.
  - destruct (proj2 (loadSchema_groups_rows None [mkTableRow "Table1"] [sampleColumnRow]
                       [] [checkRow; foreignKeyRow] []) eq_refl)
      as (schema & E & Hname & _).
    exists schema. split; [exact E | exact Hname].
Defined.

(** An index row for a table called [constructor] makes [loadSchema] throw;
    a column row for it that is skipped does not. *)
Example loadSchema_row_of_member_table :
  loadSchema None [mkTableRow "Table1"] []
    [mkIndexRow "IDX_1" "constructor" false None None (Some ["Column1"])] [] []
  = Throws
  /\ loadSchema None [mkTableRow "Table1"]
       [mkColumnRow "constructor" "Column1" "ARRAY" "NO" None None None None "text"]
       [] [] []
     = Returns (mkSchema "public" [mkTable "Table1" [] [] []]).
Proof. split; reflexivity. Qed.

Lemma collect_In {R X : Type} (key : R -> string) (item : R -> option X)
      (k : string) (rows : list R) (x : X) :
  In x (collect key item k rows)
  <-> exists r, In r rows /\ key r = k /\ item r = Some x.
Proof.
  unfold collect. rewrite in_flat_map. split.
  - intros (r & Hr & Hx). apply filter_In in Hr as [Hr E]. apply String.eqb_eq in E.
    exists r. destruct (item r) as [y|]; [|destruct Hx].
    destruct Hx as [-> | []]. auto.
  - intros (r & Hr & E & Hi). exists r. split.
    + apply filter_In. split; [assumption | now apply String.eqb_eq].
    + rewrite Hi. now left.
Qed.

Lemma catalogColumn_fields (enumMap : JsObject (list string)) (row : ColumnRow)
      (column : DatabaseColumn) :
  catalogColumn enumMap row = Some column ->
  col_tableName column = row_table_name row
  /\ col_name column = row_column_name row
  /\ col_isArray column = false
  /\ col_primary column = None
  /\ col_nullable column = (row_is_nullable row =? "YES")
  /\ col_default column = row_column_default row.
Proof.
  unfold catalogColumn. intros H.
  repeat match type of H with
         | (if ?b then _ else _) = _ => destruct b
         | match ?x with _ => _ end = _ => destruct x
         end;
    inversion H; repeat split.
Qed.

Lemma catalogConstraint_fields (row : ConstraintRow) (c : DatabaseConstraint) :
  catalogConstraint row = Some c ->
  con_tableName c = crow_table_name row /\ con_name c = crow_constraint_name row.
Proof.
  unfold catalogConstraint. intros H.
  repeat match type of H with
         | (if ?b then _ else _) = _ => destruct b
         | match ?x with _ => _ end = _ => destruct x
         end;
    inversion H; split; reflexivity.
Qed.

(** Everything in a table that [loadSchema] returns carries that table's
    name.  No returned column has [isArray] set or a [primary] field, also
    not the columns built from ARRAY rows; every returned index has a
    [unique] flag and no [using]. *)
Theorem loadSchema_items_shape
        (options : option LoadSchemaOptions) (tables : list TableRow)
        (columns : list ColumnRow) (indexes : list IndexRow)
        (constraints : list ConstraintRow) (enums : list EnumRow)
        (schema : DatabaseSchema) :
  loadSchema options tables columns indexes constraints enums = Returns schema ->
  Forall
    (fun table =>
       Forall (fun column => col_tableName column = tbl_name table
                             /\ col_isArray column = false
                             /\ col_primary column = None)
         (tbl_columns table)
       /\ Forall (fun index => idx_tableName index = tbl_name table
                               /\ idx_using index = None
                               /\ idx_unique index <> None)
            (tbl_indexes table)
       /\ Forall (fun constraint => con_tableName constraint = tbl_name table)
            (tbl_constraints table))
    (sch_tables schema).
Proof.
  intros Hr. rewrite (loadSchema_returned _ _ _ _ _ _ _ Hr).
  eapply Forall_impl;
    [|apply (loadSchema_grouping tables columns indexes constraints enums)].
  intros table (-> & -> & ->). repeat split; apply Forall_forall.
  - intros column H. apply collect_In in H as (r & _ & E & H).
    apply catalogColumn_fields in H. intuition congruence.
  - intros index H. apply collect_In in H as (r & _ & E & H).
    inversion H; subst. simpl. repeat split; [assumption | discriminate].
  - intros c H. apply collect_In in H as (r & _ & E & H).
    apply catalogConstraint_fields in H. intuition congruence.
Qed.

Lemma loadSchema_items_shape_witness :
  exists schema,
    loadSchema None [mkTableRow "Table1"]
      [sampleColumnRow;
       mkColumnRow "Table1" "Column3" "USER-DEFINED" "NO" None None None None "toString"]
      [mkIndexRow "IDX_1" "Table1" true None None (Some ["Column2"])]
      [checkRow; foreignKeyRow] []
    = Returns schema
    /\ map (fun table => List.length (tbl_columns table)) (sch_tables schema) = [2]
    /\ Forall
         (fun table =>
            Forall (fun column => col_tableName column = tbl_name table
                                  /\ col_isArray column = false
                                  /\ col_primary column = None)
              (tbl_columns table)
            /\ Forall (fun index => idx_tableName index = tbl_name table
                                    /\ idx_using index = None
                                    /\ idx_unique index <> None)
                 (tbl_indexes table)
            /\ Forall (fun constraint => con_tableName constraint = tbl_name table)
                 (tbl_constraints table))
         (sch_tables schema).
Proof.
  eexists. split; [reflexivity|]. split; [reflexivity|].
  apply (loadSchema_items_shape None [mkTableRow "Table1"]
           [sampleColumnRow;
            mkColumnRow "Table1" "Column3" "USER-DEFINED" "NO" None None None None "toString"]
           [mkIndexRow "IDX_1" "Table1" true None None (Some ["Column2"])]
           [checkRow; foreignKeyRow] []).
  reflexivity.
Defined.

(** *** Reading constraint definitions *)

Lemma noChar_append (c : ascii) (a b : string) :
  noChar c (a ++ b) = noChar c a && noChar c b.
Proof.
  induction a as [|x a IH]; simpl; [reflexivity|].
  rewrite IH. now rewrite andb_assoc.
Qed.

Lemma upToClosing_body (body rest : string) :
  noChar ")" body = true -> upToClosing (body ++ String ")" rest) = Some body.
Proof.
  induction body as [|c body IH]; simpl; [reflexivity|].
  intros H. apply andb_prop in H as [Hc Hb].
  apply negb_true_iff in Hc. rewrite Hc, (IH Hb). reflexivity.
Qed.

Lemma matchParenthesized_skip (prefix s : string) :
  noChar "(" prefix = true -> matchParenthesized (prefix ++ s) = matchParenthesized s.
Proof.
  induction prefix as [|c prefix IH]; simpl; [reflexivity|].
  intros H. apply andb_prop in H as [Hc Hp].
  apply negb_true_iff in Hc. rewrite Hc. now apply IH.
Qed.

Lemma matchParenthesized_group (prefix body rest : string) :
  noChar "(" prefix = true -> noChar ")" body = true -> body <> "" ->
  matchParenthesized (prefix ++ "(" ++ body ++ ")" ++ rest) = Some body.
Proof.
  intros Hp Hb Hne. rewrite matchParenthesized_skip by assumption.
  change ("(" ++ body ++ ")" ++ rest) with (String "(" (body ++ String ")" rest)).
  cbn [matchParenthesized]. rewrite Ascii.eqb_refl, upToClosing_body by assumption.
  destruct body; [contradiction | reflexivity].
Qed.

Lemma split_piece (sep : ascii) (p : string) :
  noChar sep p = true -> split sep p = [p].
Proof.
  induction p as [|c p IH]; simpl; [reflexivity|].
  intros H. apply andb_prop in H as [Hc Hp].
  apply negb_true_iff in Hc. rewrite Hc, (IH Hp). reflexivity.
Qed.

Lemma split_first (sep : ascii) (p rest : string) :
  noChar sep p = true -> split sep (p ++ String sep rest) = p :: split sep rest.
Proof.
  induction p as [|c p IH]; simpl.
  - intros _. now rewrite Ascii.eqb_refl.
  - intros H. apply andb_prop in H as [Hc Hp].
    apply negb_true_iff in Hc. rewrite Hc, (IH Hp). reflexivity.
Qed.

Lemma join_cons_cons (sep x y : string) (l : list string) :
  join sep (x :: y :: l) = x ++ sep ++ join sep (y :: l).
Proof. reflexivity. Qed.

Lemma join_prefix (sep p y : string) (l : list string) :
  p ++ join sep (y :: l) = join sep ((p ++ y) :: l).
Proof.
  destruct l as [|z l]; [reflexivity|].
  rewrite !join_cons_cons. now rewrite append_assoc.
Qed.

Lemma split_join_comma (x : string) (xs : list string) :
  Forall (fun p => noChar "," p = true) (x :: xs) ->
  split "," (join ", " (x :: xs)) = x :: map (fun p => " " ++ p) xs.
Proof.
  revert x. induction xs as [|y ys IH]; intros x H.
  - inversion H; subst. simpl. now apply split_piece.
  - inversion H as [|? ? Hx Hrest]; subst. inversion Hrest as [|? ? Hy Hys]; subst.
    rewrite join_cons_cons.
    change (x ++ ", " ++ join ", " (y :: ys))
      with (x ++ String "," (" " ++ join ", " (y :: ys))).
    rewrite split_first by assumption. rewrite join_prefix.
    rewrite IH; [reflexivity|]. constructor; assumption.
Qed.

Lemma removeAll_append (c : ascii) (a b : string) :
  removeAll c (a ++ b) = removeAll c a ++ removeAll c b.
Proof.
  induction a as [|x a IH]; simpl; [reflexivity|].
  destruct (x =? c)%char; simpl; now rewrite IH.
Qed.

Lemma removeAll_noChar (c : ascii) (s : string) :
  noChar c s = true -> removeAll c s = s.
Proof.
  induction s as [|x s IH]; simpl; [reflexivity|].
  intros H. apply andb_prop in H as [Hc Hs].
  apply negb_true_iff in Hc. rewrite Hc, (IH Hs). reflexivity.
Qed.

Lemma plainName_facts (n : string) :
  plainName n = true ->
  n <> "" /\ noChar "034"%char n = true /\ noChar "," n = true
  /\ noChar ")" n = true /\ trim n = n.
Proof.
  unfold plainName. intros H.
  repeat (apply andb_prop in H as [H ?]).
  apply negb_true_iff, String.eqb_neq in H.
  repeat split; try assumption. now apply String.eqb_eq.
Qed.

Lemma removeAll_shownName (item : bool * string) :
  plainName (snd item) = true -> removeAll "034"%char (shownName item) = snd item.
Proof.
  intros H. apply plainName_facts in H as (_ & Hq & _).
  destruct item as [[|] n]; unfold shownName, quoted, dq; cbn [fst snd] in *.
  - rewrite !removeAll_append, (removeAll_noChar _ n Hq).
    simpl. apply append_empty_r.
  - now apply removeAll_noChar.
Qed.

Lemma shownName_noChar (c : ascii) (item : bool * string) :
  (c =? "034")%char = false -> noChar c (snd item) = true ->
  noChar c (shownName item) = true.
Proof.
  intros Hc H. destruct item as [[|] n]; unfold shownName, quoted, dq; cbn [fst snd] in *.
  - rewrite !noChar_append, H. cbn [noChar].
    rewrite (Ascii.eqb_sym "034"%char c), Hc. reflexivity.
  - exact H.
Qed.

Lemma noChar_join (c : ascii) (l : list string) :
  (c =? ",")%char = false -> (c =? " ")%char = false ->
  Forall (fun p => noChar c p = true) l -> noChar c (join ", " l) = true.
Proof.
  intros Hc Hs H. induction l as [|x l IH]; [reflexivity|].
  inversion H; subst. destruct l as [|y l]; [assumption|].
  rewrite join_cons_cons, !noChar_append, IH by assumption.
  cbn [noChar]. rewrite (Ascii.eqb_sym "," c), (Ascii.eqb_sym " " c), Hc, Hs.
  match goal with Hx : noChar c x = true |- _ => rewrite Hx end. reflexivity.
Qed.

Lemma uniqueColumnNames_of_list
        (prefix suffix : string) (items : list (bool * string)) :
  noChar "(" prefix = true ->
  items <> [] ->
  Forall (fun item => plainName (snd item) = true) items ->
  uniqueColumnNames (prefix ++ "(" ++ join ", " (map shownName items) ++ ")" ++ suffix)
  = Some (map snd items).
Proof.
  intros Hp Hne Hplain. unfold uniqueColumnNames.
  destruct items as [|item items]; [contradiction|].
  assert (Hcomma : Forall (fun p => noChar "," p = true) (map shownName (item :: items))).
  { apply Forall_map. eapply Forall_impl; [|exact Hplain].
    intros i Hi. apply shownName_noChar; [reflexivity|].
    now apply plainName_facts in Hi. }
  assert (Hclose : noChar ")" (join ", " (map shownName (item :: items))) = true).
  { apply noChar_join; try reflexivity.
    apply Forall_map. eapply Forall_impl; [|exact Hplain].
    intros i Hi. apply shownName_noChar; [reflexivity|].
    now apply plainName_facts in Hi. }
  assert (Hbody : join ", " (map shownName (item :: items)) <> "").
  { inversion Hplain as [|? ? Hi _]; subst.
    apply plainName_facts in Hi as (Hn & _).
    cbn [map]. destruct (map shownName items) as [|y l].
    - destruct item as [[|] n]; unfold shownName, quoted, dq; cbn [fst snd] in *;
        [discriminate | exact Hn].
    - rewrite join_cons_cons.
      destruct item as [[|] n]; unfold shownName, quoted, dq; cbn [fst snd] in *;
        [discriminate|].
      destruct n; [contradiction | discriminate]. }
  rewrite matchParenthesized_group by assumption.
  cbn [map] in *. rewrite split_join_comma by assumption.
  f_equal. cbn [map]. f_equal.
  - inversion Hplain as [|? ? Hi _]; subst.
    rewrite removeAll_shownName by assumption.
    now apply plainName_facts in Hi.
  - rewrite map_map, map_map. apply map_ext_in. intros i Hin.
    inversion Hplain as [|? ? _ Hrest]; subst.
    rewrite Forall_forall in Hrest. specialize (Hrest i Hin).
    change (" " ++ shownName i) with (String " " (shownName i)).
    cbn [removeAll]. change (" " =? "034")%char with false. cbv iota.
    rewrite removeAll_shownName by assumption.
    unfold trim. cbn [trimStart]. change (isWhiteSpace " ") with true. cbv iota.
    now apply plainName_facts in Hrest.
Qed.

(** Reading a unique-constraint definition gives back the column names:
    for a text made of anything without [(], then a parenthesized list of
    names separated by [", "], each bare or double-quoted, then anything,
    [uniqueColumnNames] returns the names in the order listed, provided the
    names are plain (not empty, no double quote, comma or closing
    parenthesis inside, no white space at either end). *)
Theorem uniqueColumnNames_reads_back
        (prefix suffix : string) (items : list (bool * string)) :
  noChar "(" prefix = true ->
  items <> [] ->
  Forall (fun item => plainName (snd item) = true) items ->
  uniqueColumnNames (prefix ++ "(" ++ join ", " (map shownName items) ++ ")" ++ suffix)
  = Some (map snd items).
Proof. apply uniqueColumnNames_of_list. Qed.

Lemma uniqueColumnNames_reads_back_witness :
  uniqueColumnNames ("UNIQUE (email, " ++ quoted "storageLabel" ++ ")")
  = Some ["email"; "storageLabel"].
Proof.
  apply (uniqueColumnNames_reads_back "UNIQUE " "" [(false, "email"); (true, "storageLabel")]).
  - reflexivity.
  - discriminate.
  - repeat constructor.
Defined.

(** The statement that the emitter writes for a UNIQUE constraint can be
    read back: [uniqueColumnNames] applied to it returns the constraint's
    column names in sorted order, provided the names are plain and neither
    the table name nor the constraint name contains [(]. *)
Theorem unique_statement_reads_back
        (name tableName : string) (cols : list string) :
  noChar "(" name = true ->
  noChar "(" tableName = true ->
  cols <> [] ->
  Forall (fun n => plainName n = true) cols ->
  exists statement,
    asConstraintSql (UniqueConstraint name tableName cols) = Sql statement
    /\ uniqueColumnNames statement = Some (toSorted cols).
Proof.
  intros Hn Ht Hne Hplain.
  exists (("ALTER TABLE " ++ quoted tableName ++ " ADD CONSTRAINT " ++ quoted name
             ++ " UNIQUE ")
            ++ "(" ++ join ", " (map shownName (map (fun n => (true, n)) (toSorted cols)))
            ++ ")" ++ ";").
  split.
  { unfold asConstraintSql, asColumnsNames. cbn [con_tableName con_name].
    rewrite map_map, !append_assoc. reflexivity. }
  rewrite uniqueColumnNames_of_list.
  - rewrite map_map. cbn [snd]. now rewrite map_id.
  - unfold quoted, dq. rewrite !noChar_append, Hn, Ht. reflexivity.
  - intros E. apply map_eq_nil in E. apply Hne.
    apply Permutation_nil. rewrite <- E. symmetry. apply toSorted_perm.
  - apply Forall_map. cbn [snd].
    eapply Permutation_Forall; [apply toSorted_perm | exact Hplain].
Qed.

Lemma unique_statement_reads_back_witness :
  exists statement,
    asConstraintSql (UniqueConstraint "UQ_1" "Table1" ["Column2"; "Column1"]) = Sql statement
    /\ uniqueColumnNames statement = Some ["Column1"; "Column2"].
Proof.
  apply (unique_statement_reads_back "UQ_1" "Table1" ["Column2"; "Column1"]).
  - reflexivity.
  - reflexivity.
  - discriminate.
  - repeat constructor.
Defined.

Lemma dropPrefix_append (p e : string) : dropPrefix p (p ++ e) = Some e.
Proof.
  induction p as [|c p IH]; simpl; [now destruct e|].
  now rewrite Ascii.eqb_refl.
Qed.

Lemma replaceFirst_leading (p r e : string) : replaceFirst p r (p ++ e) = r ++ e.
Proof.
  destruct (p ++ e) as [|c s] eqn:E; simpl.
  - rewrite <- E, dropPrefix_append. reflexivity.
  - rewrite <- E, dropPrefix_append. reflexivity.
Qed.

Lemma parenthesized_differs (e : string) : (e =? "(" ++ e ++ ")") = false.
Proof.
  apply String.eqb_neq. intros H.
  apply (f_equal String.length) in H. simpl in H. rewrite length_append in H.
  simpl in H. lia.
Qed.

(** A check constraint is loaded with the text that follows the leading
    [CHECK ] of its definition.  When the definition is the clause as the
    emitter writes it, [CHECK (e)], the loaded expression is [(e)], which is
    never the declared [e]: the declared constraint and the loaded one then
    always compare as changed, and a drop-and-recreate is issued. *)
Theorem check_constraint_reading (row : ConstraintRow) (definition : string) :
  crow_constraint_type row = "c" ->
  crow_expression row = "CHECK " ++ definition ->
  catalogConstraint row
  = Some (CheckConstraint (crow_constraint_name row) (crow_table_name row) definition)
  /\ forall name tableName e,
      definition = "(" ++ e ++ ")" ->
      diffConstraint (Some (CheckConstraint name tableName e)) (catalogConstraint row)
      = [ConstraintDelete (crow_table_name row) (crow_constraint_name row);
         ConstraintCreate (CheckConstraint name tableName e)].
Proof.
  intros Ht He.
  assert (H : catalogConstraint row
              = Some (CheckConstraint (crow_constraint_name row) (crow_table_name row)
                        definition)).
  { unfold catalogConstraint. rewrite Ht, He. cbn [String.eqb Ascii.eqb Bool.eqb].
    cbv iota. change ("CHECK " ++ definition) with ("CHECK " ++ definition).
    now rewrite (replaceFirst_leading "CHECK " "" definition). }
  split; [exact H|].
  intros name tableName e ->. rewrite H.
  cbn [diffConstraint con_type]. unfold diffCheckConstraint.
  cbn [con_expression neq_ostr]. now rewrite parenthesized_differs.
Qed.

Lemma check_constraint_reading_witness :
  catalogConstraint checkRow = Some (CheckConstraint "CHK_1" "Table1" "(size > 0)")
  /\ diffConstraint (Some (CheckConstraint "CHK_1" "Table1" "size > 0"))
       (catalogConstraint checkRow)
     = [ConstraintDelete "Table1" "CHK_1";
        ConstraintCreate (CheckConstraint "CHK_1" "Table1" "size > 0")].
Proof.
  destruct (check_constraint_reading checkRow "(size > 0)" eq_refl eq_refl) as [H1 H2].
  split; [exact H1|]. apply (H2 "CHK_1" "Table1" "size > 0"). reflexivity.
Defined.

(** A foreign key read from the catalog always carries both referential
    actions, an unknown action code being read as NO ACTION; its statement
    therefore always has both an [ON DELETE] and an [ON UPDATE] clause.  A
    declared foreign key that leaves out either action is never equal to
    one read from the catalog: their comparison always yields the
    drop-and-recreate pair. *)
Theorem catalog_foreign_key_actions (row : ConstraintRow) (c : DatabaseConstraint) :
  catalogConstraint row = Some c ->
  con_type c = FOREIGN_KEY ->
  con_onUpdate c = Some (asDatabaseAction (crow_update_action row))
  /\ con_onDelete c = Some (asDatabaseAction (crow_delete_action row))
  /\ withAction c
     = " ON DELETE " ++ action_string (asDatabaseAction (crow_delete_action row))
         ++ " ON UPDATE " ++ action_string (asDatabaseAction (crow_update_action row))
  /\ (forall code, ~ In code ["c"; "r"; "n"; "d"] -> asDatabaseAction code = NO_ACTION)
  /\ forall s,
      con_type s = FOREIGN_KEY ->
      con_onUpdate s = None \/ con_onDelete s = None ->
      diffConstraint (Some s) (Some c)
      = [ConstraintDelete (con_tableName c) (con_name c); ConstraintCreate s].
Proof.
  intros H Hty.
  assert (Hu : con_onUpdate c = Some (asDatabaseAction (crow_update_action row))
               /\ con_onDelete c = Some (asDatabaseAction (crow_delete_action row))).
  { unfold catalogConstraint in H.
    repeat match type of H with
           | (if ?b then _ else _) = _ => destruct b
           | match ?x with _ => _ end = _ => destruct x
           end;
      inversion H; subst; try discriminate Hty; split; reflexivity. }
  destruct Hu as [Hu Hd]. split; [exact Hu|]. split; [exact Hd|]. split; [|split].
  - unfold withAction. rewrite Hu, Hd. now rewrite append_assoc.
  - intros code Hn. unfold asDatabaseAction.
    destruct (code =? "a"); [reflexivity|].
    destruct (code =? "c") eqn:Ec; [apply String.eqb_eq in Ec; subst; simpl in Hn; tauto|].
    destruct (code =? "r") eqn:Er; [apply String.eqb_eq in Er; subst; simpl in Hn; tauto|].
    destruct (code =? "n") eqn:En; [apply String.eqb_eq in En; subst; simpl in Hn; tauto|].
    destruct (code =? "d") eqn:Ed; [apply String.eqb_eq in Ed; subst; simpl in Hn; tauto|].
    reflexivity.
  - intros s Hs Hnone. cbn [diffConstraint]. rewrite Hs.
    unfold diffForeignKeyConstraint, dropAndRecreateConstraint. rewrite Hu, Hd.
    destruct Hnone as [-> | ->]; cbn [neq_oaction]; now rewrite ?orb_true_r.
Qed.

Lemma catalog_foreign_key_actions_witness :
  withAction (ForeignKeyConstraint "FK_1" "Table1" ["Column1"] "Table2" ["Id"]
                (Some CASCADE) (Some NO_ACTION))
  = " ON DELETE NO ACTION ON UPDATE CASCADE"
  /\ diffConstraint
       (Some (ForeignKeyConstraint "FK_1" "Table1" ["Column1"] "Table2" ["Id"]
                (Some CASCADE) None))
       (Some (ForeignKeyConstraint "FK_1" "Table1" ["Column1"] "Table2" ["Id"]
                (Some CASCADE) (Some NO_ACTION)))
     = [ConstraintDelete "Table1" "FK_1";
        ConstraintCreate (ForeignKeyConstraint "FK_1" "Table1" ["Column1"] "Table2" ["Id"]
                            (Some CASCADE) None)].
Proof.
  destruct (catalog_foreign_key_actions foreignKeyRow _ eq_refl eq_refl)
    as (_ & _ & Hw & _ & Hdiff).
  split; [exact Hw|].
  apply (Hdiff (ForeignKeyConstraint "FK_1" "Table1" ["Column1"] "Table2" ["Id"]
                  (Some CASCADE) None)); [reflexivity | now right].
Defined.

(** A column built by the metadata compiler's columns pass is never
    reported as unchanged against a column read from the catalog: the
    former always has a [primary] field, the latter never, so their
    comparison yields a [column.update] when the types agree and the
    drop-and-recreate pair when they do not. *)
Theorem declared_column_never_unchanged
        (tableName propertyName : string) (options : ColumnOptions)
        (enumMap : JsObject (list string)) (row : ColumnRow) (t : DatabaseColumn) :
  catalogColumn enumMap row = Some t ->
  diffColumn (Some (dynamicColumn tableName propertyName options)) (Some t)
  = if col_type (dynamicColumn tableName propertyName options) =? col_type t
    then [ColumnUpdate (dynamicColumn tableName propertyName options) t]
    else [ColumnDelete (col_tableName t) (col_name t);
          ColumnCreate (dynamicColumn tableName propertyName options)].
Proof.
  intros Ht. apply catalogColumn_primary in Ht.
  unfold diffColumn, dropAndRecreateColumn.
  destruct (col_type (dynamicColumn tableName propertyName options) =? col_type t);
    [|reflexivity].
  rewrite dynamicColumn_primary, Ht. cbn [negb neq_obool orb].
  now rewrite orb_true_r.
Qed.

Lemma declared_column_never_unchanged_witness :
  exists t,
    catalogColumn [] sampleColumnRow = Some t
    /\ diffColumn
         (Some (dynamicColumn "Table1" "Column2"
                  (mkColumnOptions None None None None None None None None)))
         (Some t)
       = [ColumnUpdate
            (dynamicColumn "Table1" "Column2"
               (mkColumnOptions None None None None None None None None)) t].
Proof.
  eexists. split; [reflexivity|].
  apply (declared_column_never_unchanged "Table1" "Column2"
           (mkColumnOptions None None None None None None None None) [] sampleColumnRow).
  reflexivity.
Defined.

(* ================================================================== *)
(** ** The metadata compiler *)
(* ================================================================== *)

Lemma toLowerChar_not_upper (c : ascii) : isUpperLetter (toLowerChar c) = false.
Proof. destruct c as [[] [] [] [] [] [] [] []]; reflexivity. Qed.

Lemma toLowerChar_idempotent (c : ascii) : toLowerChar (toLowerChar c) = toLowerChar c.
Proof. destruct c as [[] [] [] [] [] [] [] []]; reflexivity. Qed.

Lemma toLowerChar_fixes_no_upper (c : ascii) :
  toLowerChar c = c -> isUpperLetter c = false.
Proof. intros <-. apply toLowerChar_not_upper. Qed.

Lemma toLowerCase_noUpper (s : string) : noUpperLetters (toLowerCase s) = true.
Proof.
  induction s as [|c s IH]; simpl; [reflexivity|].
  now rewrite toLowerChar_not_upper, IH.
Qed.

Lemma toLowerCase_idempotent (s : string) : toLowerCase (toLowerCase s) = toLowerCase s.
Proof.
  induction s as [|c s IH]; simpl; [reflexivity|].
  now rewrite toLowerChar_idempotent, IH.
Qed.

Lemma toLowerCase_fixed_noUpper (s : string) :
  toLowerCase s = s -> noUpperLetters s = true.
Proof. intros <-. apply toLowerCase_noUpper. Qed.

Lemma insertUnderscores_noUpper (s : string) :
  noUpperLetters s = true -> insertUnderscores s = s.
Proof.
  induction s as [|a s IH]; [reflexivity|].
  intros H. cbn [noUpperLetters] in H. apply andb_prop in H as [Ha Hs].
  cbn [insertUnderscores]. destruct s as [|b s']; [reflexivity|].
  cbn [noUpperLetters] in Hs. apply andb_prop in Hs as [Hb Hs'].
  apply negb_true_iff in Hb. rewrite Hb, andb_false_r.
  rewrite IH; [reflexivity|]. cbn [noUpperLetters]. now rewrite Hb, Hs'.
Qed.

(** [asSnakeCase] is idempotent, its result holds no upper-case letter
    A-Z, and it leaves unchanged every name that [toLowerCase] leaves
    unchanged. *)
Theorem asSnakeCase_idempotent (name : string) :
  asSnakeCase (asSnakeCase name) = asSnakeCase name
  /\ noUpperLetters (asSnakeCase name) = true
  /\ (toLowerCase name = name -> asSnakeCase name = name).
Proof.
  unfold asSnakeCase. split; [|split].
  - rewrite insertUnderscores_noUpper by apply toLowerCase_noUpper.
    apply toLowerCase_idempotent.
  - apply toLowerCase_noUpper.
  - intros H. rewrite insertUnderscores_noUpper; [exact H|].
    now apply toLowerCase_fixed_noUpper.
Qed.

Example asSnakeCase_examples :
  asSnakeCase "UserEntity" = "user_entity"
  /\ asSnakeCase "APIKeyEntity" = "apikey_entity"
  /\ asSnakeCase "albumsAssetsAssets" = "albums_assets_assets".
Proof. repeat split. Qed.

(** *** Caching *)

Lemma register_keeps_cache (m : SchemaModule) (r : Registration) :
  mod_initialized (register m r) = mod_initialized m
  /\ mod_dynamicSchema (register m r) = mod_dynamicSchema m.
Proof. destruct r; split; reflexivity. Qed.

Lemma registers_keep_cache (registrations : list Registration) (m : SchemaModule) :
  mod_initialized (fold_left register registrations m) = mod_initialized m
  /\ mod_dynamicSchema (fold_left register registrations m) = mod_dynamicSchema m.
Proof.
  revert m. induction registrations as [|r rs IH]; intros m; simpl; [now split|].
  destruct (IH (register m r)) as [-> ->]. apply register_keeps_cache.
Qed.

Lemma getDynamicSchema_initializes (sha1 : string -> string) (m : SchemaModule) :
  mod_initialized (fst (getDynamicSchema sha1 m)) = true
  /\ mod_dynamicSchema (fst (getDynamicSchema sha1 m)) = snd (getDynamicSchema sha1 m).
Proof.
  unfold getDynamicSchema. destruct (mod_initialized m) eqn:E; simpl; auto.
Qed.

(** [getDynamicSchema] compiles once.  After a first call, every further
    call returns the schema of the first call, also when decorators have
    registered more tables, columns, indexes or relations in between: late
    registrations never reach the schema. *)
Theorem getDynamicSchema_cached
        (sha1 : string -> string) (m : SchemaModule) (late : list Registration) :
  snd (getDynamicSchema sha1 (fold_left register late (fst (getDynamicSchema sha1 m))))
  = snd (getDynamicSchema sha1 m)
  /\ mod_dynamicSchema
       (fst (getDynamicSchema sha1
               (fold_left register late (fst (getDynamicSchema sha1 m)))))
     = snd (getDynamicSchema sha1 m).
Proof.
  destruct (getDynamicSchema_initializes sha1 m) as [Hi Hs].
  destruct (registers_keep_cache late (fst (getDynamicSchema sha1 m))) as [Hi' Hs'].
  rewrite Hi in Hi'. rewrite Hs in Hs'.
  set (m' := fold_left register late (fst (getDynamicSchema sha1 m))) in *.
  assert (E : getDynamicSchema sha1 m' = (m', mod_dynamicSchema m')).
  { unfold getDynamicSchema. now rewrite Hi'. }
  rewrite E. simpl. split; exact Hs'.
Qed.

(** *** What the passes keep *)

Lemma fold_keeps {S R : Type} (Inv : S -> Prop) (step : S -> R -> S) (rs : list R) (st : S) :
  (forall st r, Inv st -> Inv (step st r)) -> Inv st -> Inv (fold_left step rs st).
Proof.
  intros Hstep. revert st. induction rs as [|r rs IH]; intros st H; simpl; [exact H|].
  apply IH. now apply Hstep.
Qed.

Lemma updateFirst_names (n : string) (f : DatabaseTable -> DatabaseTable)
      (tables : list DatabaseTable) :
  (forall t, tbl_name (f t) = tbl_name t) ->
  map tbl_name (updateFirst n f tables) = map tbl_name tables.
Proof.
  intros Hf. induction tables as [|t r IH]; simpl; [reflexivity|].
  destruct (tbl_name t =? n); simpl; [now rewrite Hf | now rewrite IH].
Qed.

Lemma updateFirst_Forall (P : DatabaseTable -> Prop) (n : string)
      (f : DatabaseTable -> DatabaseTable) (tables : list DatabaseTable) :
  (forall t, P t -> tbl_name t = n -> P (f t)) ->
  Forall P tables -> Forall P (updateFirst n f tables).
Proof.
  intros Hf H. induction H as [|t r Ht Hr IH]; simpl; [constructor|].
  destruct (tbl_name t =? n) eqn:E.
  - apply String.eqb_eq in E. constructor; [now apply Hf | assumption].
  - constructor; assumption.
Qed.

Section CompilerFacts.

Variable sha1 : string -> string.

(** Every pass keeps the list of table names. *)
Lemma compileColumn_names st reg :
  map tbl_name (cs_tables (compileColumn sha1 st reg)) = map tbl_name (cs_tables st).
Proof.
  unfold compileColumn. destruct (findByName _ _ _) as [table|]; [|reflexivity].
  cbn [cs_tables].
  destruct (negb _ && _); rewrite ?updateFirst_names; reflexivity.
Qed.

Lemma compileIndex_names st reg :
  map tbl_name (cs_tables (compileIndex st reg)) = map tbl_name (cs_tables st).
Proof.
  unfold compileIndex. destruct (findByName _ _ _) as [table|]; [|reflexivity].
  cbn [cs_tables]. now rewrite updateFirst_names.
Qed.

Lemma compileColumnIndex_names st reg :
  map tbl_name (cs_tables (compileColumnIndex st reg)) = map tbl_name (cs_tables st).
Proof.
  unfold compileColumnIndex. destruct (findByName _ _ _) as [table|]; [|reflexivity].
  destruct (findByName _ _ _) as [column|]; [|reflexivity].
  cbn [cs_tables]. now rewrite updateFirst_names.
Qed.

Lemma compileRelation_names st reg :
  map tbl_name (cs_tables (compileRelation sha1 st reg)) = map tbl_name (cs_tables st).
Proof.
  unfold compileRelation. destruct (findByName _ _ _) as [child|]; [|reflexivity].
  destruct (findByName _ _ _) as [parent|]; [|reflexivity].
  destruct (rr_type reg); [|reflexivity].
  cbn [cs_tables]. rewrite updateFirst_names by reflexivity.
  destruct (find _ (tbl_columns child)); [reflexivity|].
  now rewrite updateFirst_names.
Qed.

Lemma addPrimaryKey_name (t : DatabaseTable) : tbl_name (addPrimaryKey sha1 t) = tbl_name t.
Proof.
  unfold addPrimaryKey. now destruct (primaryColumnNames (tbl_columns t)).
Qed.

Lemma fold_compileTable_tables (regs : list RegisterTable) (st : CompileState) :
  cs_tables (fold_left compileTable regs st)
  = (cs_tables st
       ++ map (fun reg => mkTable (registeredTableName reg) [] [] []) regs)%list.
Proof.
  revert st. induction regs as [|r regs IH]; intros st; simpl.
  - now rewrite app_nil_r.
  - rewrite IH. cbn [compileTable cs_tables]. now rewrite <- app_assoc.
Qed.

Lemma fold_names {R : Type} (step : CompileState -> R -> CompileState)
      (rs : list R) (st : CompileState) :
  (forall st r, map tbl_name (cs_tables (step st r)) = map tbl_name (cs_tables st)) ->
  map tbl_name (cs_tables (fold_left step rs st)) = map tbl_name (cs_tables st).
Proof.
  intros Hstep. revert st. induction rs as [|r rs IH]; intros st; simpl; [reflexivity|].
  now rewrite IH, Hstep.
Qed.

Lemma compile_names (m : SchemaModule) :
  map tbl_name (cs_tables (compile sha1 m))
  = (map tbl_name (sch_tables (mod_dynamicSchema m))
       ++ map registeredTableName (mod_tables m))%list.
Proof.
  unfold compile.
  rewrite (fold_names (compileRelation sha1)) by apply compileRelation_names.
  rewrite (fold_names compileColumnIndex) by apply compileColumnIndex_names.
  rewrite (fold_names compileIndex) by apply compileIndex_names.
  cbn [cs_tables]. rewrite map_map.
  rewrite (map_ext _ tbl_name (addPrimaryKey_name)).
  rewrite (fold_names (compileColumn sha1)) by apply compileColumn_names.
  rewrite fold_compileTable_tables. cbn [cs_tables].
  now rewrite map_app, map_map.
Qed.

End CompilerFacts.

Lemma pushColumn_consistent (t : DatabaseTable) (c : DatabaseColumn) :
  tableConsistent t -> col_tableName c = tbl_name t -> tableConsistent (pushColumn c t).
Proof.
  intros (Hc & Hi & Hk) E. repeat split; cbn [pushColumn tbl_columns tbl_indexes
    tbl_constraints tbl_name]; try assumption.
  apply Forall_app. split; [assumption | now repeat constructor].
Qed.

Lemma pushIndex_consistent (t : DatabaseTable) (i : DatabaseIndex) :
  tableConsistent t -> idx_tableName i = tbl_name t -> tableConsistent (pushIndex i t).
Proof.
  intros (Hc & Hi & Hk) E. repeat split; cbn [pushIndex tbl_columns tbl_indexes
    tbl_constraints tbl_name]; try assumption.
  apply Forall_app. split; [assumption | now repeat constructor].
Qed.

Lemma pushConstraint_consistent (t : DatabaseTable) (c : DatabaseConstraint) :
  tableConsistent t -> con_tableName c = tbl_name t -> tableConsistent (pushConstraint c t).
Proof.
  intros (Hc & Hi & Hk) E. repeat split; cbn [pushConstraint tbl_columns tbl_indexes
    tbl_constraints tbl_name]; try assumption.
  apply Forall_app. split; [assumption | now repeat constructor].
Qed.

Lemma filter_snoc {A : Type} (p : A -> bool) (l : list A) (x : A) :
  filter p (l ++ [x]) = (filter p l ++ if p x then [x] else [])%list.
Proof. rewrite filter_app. simpl. now destruct (p x). Qed.

Section CompilerInvariants.

Variable sha1 : string -> string.

Lemma compileTable_consistent st reg :
  Forall tableConsistent (cs_tables st) ->
  Forall tableConsistent (cs_tables (compileTable st reg)).
Proof.
  intros H. cbn [compileTable cs_tables]. apply Forall_app. split; [assumption|].
  repeat constructor.
Qed.

Lemma compileColumn_consistent st reg :
  Forall tableConsistent (cs_tables st) ->
  Forall tableConsistent (cs_tables (compileColumn sha1 st reg)).
Proof.
  intros H. unfold compileColumn.
  destruct (findByName _ _ _) as [table|]; [|assumption]. cbn [cs_tables].
  assert (H1 : Forall tableConsistent
                 (updateFirst (tbl_name table)
                    (pushColumn (dynamicColumn (tbl_name table) (rc_propertyName reg)
                                   (rc_options reg)))
                    (cs_tables st))).
  { apply updateFirst_Forall; [|assumption].
    intros t Ht E. apply pushColumn_consistent; [assumption | now rewrite E]. }
  destruct (negb _ && _); [|assumption].
  apply updateFirst_Forall; [|assumption].
  intros t Ht E. apply pushConstraint_consistent; [assumption | now rewrite E].
Qed.

Lemma addPrimaryKey_consistent (t : DatabaseTable) :
  tableConsistent t -> tableConsistent (addPrimaryKey sha1 t).
Proof.
  intros H. unfold addPrimaryKey.
  destruct (primaryColumnNames (tbl_columns t)); [assumption|].
  now apply pushConstraint_consistent.
Qed.

Lemma compileIndex_consistent st reg :
  Forall tableConsistent (cs_tables st) ->
  Forall tableConsistent (cs_tables (compileIndex st reg)).
Proof.
  intros H. unfold compileIndex.
  destruct (findByName _ _ _) as [table|]; [|assumption]. cbn [cs_tables].
  apply updateFirst_Forall; [|assumption].
  intros t Ht E. apply pushIndex_consistent; [assumption | now rewrite E].
Qed.

Lemma compileColumnIndex_consistent st reg :
  Forall tableConsistent (cs_tables st) ->
  Forall tableConsistent (cs_tables (compileColumnIndex st reg)).
Proof.
  intros H. unfold compileColumnIndex.
  destruct (findByName _ _ _) as [table|]; [|assumption].
  destruct (findByName _ _ _) as [column|]; [|assumption]. cbn [cs_tables].
  apply updateFirst_Forall; [|assumption].
  intros t Ht E. apply pushIndex_consistent; [assumption | now rewrite E].
Qed.

Lemma compileRelation_consistent st reg :
  Forall tableConsistent (cs_tables st) ->
  Forall tableConsistent (cs_tables (compileRelation sha1 st reg)).
Proof.
  intros H. unfold compileRelation.
  destruct (findByName _ _ _) as [child|]; [|assumption].
  destruct (findByName _ _ _) as [parent|]; [|assumption].
  destruct (rr_type reg); [|assumption]. cbn [cs_tables].
  apply updateFirst_Forall.
  { intros t Ht E. apply pushConstraint_consistent; [assumption | now rewrite E]. }
  destruct (find _ (tbl_columns child)); [assumption|].
  apply updateFirst_Forall; [|assumption].
  intros t Ht E. apply pushColumn_consistent; [assumption | now rewrite E].
Qed.

Lemma compile_consistent (m : SchemaModule) :
  Forall tableConsistent (sch_tables (mod_dynamicSchema m)) ->
  Forall tableConsistent (cs_tables (compile sha1 m)).
Proof.
  intros H. unfold compile.
  apply (fold_keeps (fun st => Forall tableConsistent (cs_tables st)));
    [intros st r; apply compileRelation_consistent|].
  apply (fold_keeps (fun st => Forall tableConsistent (cs_tables st)));
    [intros st r; apply compileColumnIndex_consistent|].
  apply (fold_keeps (fun st => Forall tableConsistent (cs_tables st)));
    [intros st r; apply compileIndex_consistent|].
  cbn [cs_tables]. apply Forall_map.
  eapply Forall_impl; [intros t; apply addPrimaryKey_consistent|].
  apply (fold_keeps (fun st => Forall tableConsistent (cs_tables st)));
    [intros st r; apply compileColumn_consistent|].
  apply (fold_keeps (fun st => Forall tableConsistent (cs_tables st)));
    [intros st r; apply compileTable_consistent|].
  exact H.
Qed.

(** Primary keys. *)
Lemma compileTable_noPrimaryKey st reg :
  Forall hasNoPrimaryKey (cs_tables st) ->
  Forall hasNoPrimaryKey (cs_tables (compileTable st reg)).
Proof.
  intros H. cbn [compileTable cs_tables]. apply Forall_app. split; [assumption|].
  repeat constructor.
Qed.

Lemma compileColumn_noPrimaryKey st reg :
  Forall hasNoPrimaryKey (cs_tables st) ->
  Forall hasNoPrimaryKey (cs_tables (compileColumn sha1 st reg)).
Proof.
  intros H. unfold compileColumn.
  destruct (findByName _ _ _) as [table|]; [|assumption]. cbn [cs_tables].
  assert (H1 : Forall hasNoPrimaryKey
                 (updateFirst (tbl_name table)
                    (pushColumn (dynamicColumn (tbl_name table) (rc_propertyName reg)
                                   (rc_options reg)))
                    (cs_tables st))).
  { apply updateFirst_Forall; [|assumption]. intros t Ht _. exact Ht. }
  destruct (negb _ && _); [|assumption].
  apply updateFirst_Forall; [|assumption].
  intros t Ht _. unfold hasNoPrimaryKey in *. cbn [pushConstraint tbl_constraints].
  rewrite filter_snoc, Ht. reflexivity.
Qed.

Lemma addPrimaryKey_matches (t : DatabaseTable) :
  hasNoPrimaryKey t -> primaryKeyMatches sha1 (addPrimaryKey sha1 t).
Proof.
  unfold hasNoPrimaryKey, primaryKeyMatches, addPrimaryKey. intros H.
  destruct (primaryColumnNames (tbl_columns t)) as [|n ns] eqn:E.
  - now rewrite E.
  - cbn [pushConstraint tbl_constraints tbl_columns tbl_name].
    rewrite E, filter_snoc, H. reflexivity.
Qed.

Lemma pushColumn_primaryKey (t : DatabaseTable) (c : DatabaseColumn) :
  col_primary c = None ->
  primaryKeyMatches sha1 t -> primaryKeyMatches sha1 (pushColumn c t).
Proof.
  unfold primaryKeyMatches. intros Hc H.
  cbn [pushColumn tbl_constraints tbl_columns tbl_name].
  unfold primaryColumnNames in *. rewrite filter_snoc, Hc. cbn [truthy_bool].
  now rewrite app_nil_r.
Qed.

Lemma pushConstraint_primaryKey (t : DatabaseTable) (c : DatabaseConstraint) :
  con_type c <> PRIMARY_KEY ->
  primaryKeyMatches sha1 t -> primaryKeyMatches sha1 (pushConstraint c t).
Proof.
  unfold primaryKeyMatches. intros Hc H.
  cbn [pushConstraint tbl_constraints tbl_columns tbl_name].
  rewrite filter_snoc, H.
  destruct (con_type c); try contradiction; cbn [constraintType_eqb];
    now rewrite app_nil_r.
Qed.

Lemma compileIndex_primaryKey st reg :
  Forall (primaryKeyMatches sha1) (cs_tables st) ->
  Forall (primaryKeyMatches sha1) (cs_tables (compileIndex st reg)).
Proof.
  intros H. unfold compileIndex.
  destruct (findByName _ _ _) as [table|]; [|assumption]. cbn [cs_tables].
  apply updateFirst_Forall; [|assumption]. intros t Ht _. exact Ht.
Qed.

Lemma compileColumnIndex_primaryKey st reg :
  Forall (primaryKeyMatches sha1) (cs_tables st) ->
  Forall (primaryKeyMatches sha1) (cs_tables (compileColumnIndex st reg)).
Proof.
  intros H. unfold compileColumnIndex.
  destruct (findByName _ _ _) as [table|]; [|assumption].
  destruct (findByName _ _ _) as [column|]; [|assumption]. cbn [cs_tables].
  apply updateFirst_Forall; [|assumption]. intros t Ht _. exact Ht.
Qed.

Lemma compileRelation_primaryKey st reg :
  Forall (primaryKeyMatches sha1) (cs_tables st) ->
  Forall (primaryKeyMatches sha1) (cs_tables (compileRelation sha1 st reg)).
Proof.
  intros H. unfold compileRelation.
  destruct (findByName _ _ _) as [child|]; [|assumption].
  destruct (findByName _ _ _) as [parent|]; [|assumption].
  destruct (rr_type reg); [|assumption]. cbn [cs_tables].
  apply updateFirst_Forall.
  { intros t Ht _. apply pushConstraint_primaryKey; [discriminate | assumption]. }
  destruct (find _ (tbl_columns child)); [assumption|].
  apply updateFirst_Forall; [|assumption].
  intros t Ht _. now apply pushColumn_primaryKey.
Qed.

Lemma compile_primaryKey (m : SchemaModule) :
  Forall hasNoPrimaryKey (sch_tables (mod_dynamicSchema m)) ->
  Forall (primaryKeyMatches sha1) (cs_tables (compile sha1 m)).
Proof.
  intros H. unfold compile.
  apply (fold_keeps (fun st => Forall (primaryKeyMatches sha1) (cs_tables st)));
    [intros st r; apply compileRelation_primaryKey|].
  apply (fold_keeps (fun st => Forall (primaryKeyMatches sha1) (cs_tables st)));
    [intros st r; apply compileColumnIndex_primaryKey|].
  apply (fold_keeps (fun st => Forall (primaryKeyMatches sha1) (cs_tables st)));
    [intros st r; apply compileIndex_primaryKey|].
  cbn [cs_tables]. apply Forall_map.
  eapply Forall_impl; [intros t; apply addPrimaryKey_matches|].
  apply (fold_keeps (fun st => Forall hasNoPrimaryKey (cs_tables st)));
    [intros st r; apply compileColumn_noPrimaryKey|].
  apply (fold_keeps (fun st => Forall hasNoPrimaryKey (cs_tables st)));
    [intros st r; apply compileTable_noPrimaryKey|].
  exact H.
Qed.

End CompilerInvariants.

Lemma register_tables (registrations : list Registration) (m : SchemaModule) :
  mod_tables (fold_left register registrations m)
  = (mod_tables m ++ tableRegistrations registrations)%list.
Proof.
  revert m. induction registrations as [|r rs IH]; intros m; simpl.
  - now rewrite app_nil_r.
  - rewrite IH. destruct r; simpl; rewrite <- ?app_assoc; reflexivity.
Qed.

Lemma decorated_schema (sha1 : string -> string) (registrations : list Registration) :
  sch_tables (snd (getDynamicSchema sha1 (decorated registrations)))
  = cs_tables (compile sha1 (decorated registrations))
  /\ sch_tables (mod_dynamicSchema (decorated registrations)) = []
  /\ mod_tables (decorated registrations) = tableRegistrations registrations.
Proof.
  unfold decorated.
  destruct (registers_keep_cache registrations initialModule) as [Hi Hs].
  split; [|split].
  - unfold getDynamicSchema. rewrite Hi. reflexivity.
  - rewrite Hs. reflexivity.
  - now rewrite register_tables.
Qed.

(** The compiled schema has one table per [@Table] registration, in
    registration order, named by [options.name] or else by the snake-cased
    class name; the later passes neither add, remove nor rename a table,
    and two registrations of one name give two tables of that name. *)
Theorem getDynamicSchema_tables (sha1 : string -> string)
        (registrations : list Registration) :
  map tbl_name (sch_tables (snd (getDynamicSchema sha1 (decorated registrations))))
  = map registeredTableName (tableRegistrations registrations).
Proof.
  destruct (decorated_schema sha1 registrations) as (-> & H0 & Ht).
  now rewrite compile_names, H0, Ht.
Qed.

(** In the compiled schema every column, index and constraint carries the
    name of the table it sits in. *)
Theorem getDynamicSchema_consistent (sha1 : string -> string)
        (registrations : list Registration) :
  Forall tableConsistent
    (sch_tables (snd (getDynamicSchema sha1 (decorated registrations)))).
Proof.
  destruct (decorated_schema sha1 registrations) as (-> & H0 & _).
  apply compile_consistent. rewrite H0. constructor.
Qed.

(** In the compiled schema a table has a PRIMARY_KEY constraint exactly
    when it has primary columns, and then exactly one: over the names of
    its primary columns in column order, under the synthesized [PK_] name.
    Relations add columns and constraints afterwards without disturbing
    it. *)
Theorem getDynamicSchema_primary_keys (sha1 : string -> string)
        (registrations : list Registration) :
  Forall (primaryKeyMatches sha1)
    (sch_tables (snd (getDynamicSchema sha1 (decorated registrations)))).
Proof.
  destruct (decorated_schema sha1 registrations) as (-> & H0 & _).
  apply compile_primaryKey. rewrite H0. constructor.
Qed.

Example sample_dynamic_schema :
  map tbl_name (sch_tables (snd (getDynamicSchema Sha1.sha1 (decorated sampleRegistrations))))
  = ["users"; "apikey_entity"]
  /\ map (fun t => map col_name (tbl_columns t))
       (sch_tables (snd (getDynamicSchema Sha1.sha1 (decorated sampleRegistrations))))
     = [["id"; "email"]; ["name"; "userId"]]
  /\ map (fun t => map con_name (tbl_constraints t))
       (sch_tables (snd (getDynamicSchema Sha1.sha1 (decorated sampleRegistrations))))
     = [["UQ_97672ac88f789774dd47f7c8be3"; "PK_a3ffb1c0c8416b9fc6f907b7433"];
        [asForeignKeyConstraintName Sha1.sha1 "apikey_entity" ["userId"]]].
Proof. repeat split; vm_compute; reflexivity. Qed.
